(** * Memory Scramble: the Board ADT of [src/board.ts]

    A shallow embedding of the synchronous Board (rules 1-A .. 3-B) and of
    the board-file parser, followed by the properties of the design
    document that can be stated over it.

    Conventions of the embedding.
    - A JavaScript string is the list of its UTF-16 code units ([list N]).
    - A JavaScript number that the code only uses as an integer (row and
      column indices, [rows], [cols], array lengths) is a [Z]; this agrees
      with IEEE doubles below 2^53.
    - An array is a list.  A JavaScript array has fewer than 2^32
      elements; the properties that depend on this bound, or on the one
      above, carry it as a hypothesis.
    - A method of the class is a function of the state monad [M]: it takes
      the board, returns the board it leaves behind and either a value or
      the [Error] it threw.  A [throw] keeps every mutation made before it,
      exactly as an exception in JavaScript does.
    - Every [Slot] object is created by the constructor for one grid cell
      and no method ever stores a reference to it elsewhere, so assigning
      to a field of a slot obtained from [getCell] is an update of the grid
      at that cell ([mutSlot]). *)

From Stdlib Require Import ZArith String Ascii List Lia DecimalString.
From stdpp Require Import base option list gmap strings.

Local Open Scope Z_scope.

(** ** Strings *)

Abbreviation jsstring := (list N).

Definition js (s : string) : jsstring :=
  N_of_ascii <$> list_ascii_of_string s.

(** The string a template literal prints for an integer below 2^53 in
    absolute value, where every integer is a double and prints as its
    decimal digits.  (A larger double prints the shortest digits that
    denote it, in exponent form from 10^21 on; a board that has a cell has
    far smaller dimensions.) *)
Definition showZ (z : Z) : jsstring :=
  js (NilZero.string_of_int (Z.to_int z)).

(** Code units matched by the class [\s] of a JavaScript regular
    expression (it already contains line feed and carriage return). *)
Definition isSpace (u : N) : bool :=
  ((9 <=? u) && (u <=? 13) || (u =? 32) || (u =? 160) || (u =? 5760)
   || (8192 <=? u) && (u <=? 8202) || (u =? 8232) || (u =? 8233)
   || (u =? 8239) || (u =? 8287) || (u =? 12288) || (u =? 65279))%N.

(** [/^[^\s\n\r]+$/u.test(s)] *)
Definition cardRe (s : jsstring) : bool :=
  match s with
  | [] => false
  | _ => forallb (λ u, negb (isSpace u)) s
  end.

(** The line feed. *)
Definition nl : jsstring := [10%N].

(** [xs.join(sep)] *)
Fixpoint join (sep : jsstring) (xs : list jsstring) : jsstring :=
  match xs with
  | [] => []
  | [x] => x
  | x :: rest => x ++ sep ++ join sep rest
  end.

(** ** Data *)

Abbreviation Player := (list N).

Record Pos := mkPos { r : Z; c : Z }.

Record Slot := mkSlot {
  label : jsstring;
  faceUp : bool;
  controller : option Player
}.

Inductive Kind := matched | mismatched.

Record Outcome := mkOutcome { kind : Kind; first : Pos; second : Pos }.

Record Board := mkBoard {
  rows : Z;
  cols : Z;
  grid : list (list (option Slot));
  firstSelection : gmap Player Pos;
  pending : gmap Player (option Outcome)
}.

#[global] Instance Pos_eq_dec : EqDecision Pos.
Proof. solve_decision. Defined.
#[global] Instance Slot_eq_dec : EqDecision Slot.
Proof. solve_decision. Defined.
#[global] Instance Kind_eq_dec : EqDecision Kind.
Proof. solve_decision. Defined.
#[global] Instance Outcome_eq_dec : EqDecision Outcome.
Proof. solve_decision. Defined.

(** The messages of the [Error]s the code throws. *)
Inductive Error :=
| MissingLabel                       (* Internal: missing label *)
| MissingHeader                      (* Malformed board: missing header *)
| MalformedHeader (header : jsstring) (* Malformed header '..', expected ROWxCOL *)
| NotPositive                        (* Rows/cols must be positive integers *)
| CardCount (expected got : Z)       (* Malformed board: expected .. card lines, got .. *)
| InvalidCard (card : jsstring)      (* Invalid card '..' *)
| EmptySpace1A                       (* 1-A: empty space *)
| Controlled1D                       (* 1-D: card is controlled by another player *)
| NoFirstCard                        (* No first card selected for this player *)
| EmptySpace2A                       (* 2-A: second position is empty *)
| Controlled2B                       (* 2-B: second card is controlled *)
| FirstSelectionMissing              (* Internal: first selection missing *)
| RowOutOfBounds                     (* RI: row index out of bounds *)
| ColumnOutOfBounds                  (* RI: column index out of bounds *)
| OutOfBounds (i j : Z)              (* Out of bounds (r,c) *)
| RIRowCount                         (* RI: wrong row count *)
| RIColCount                         (* RI: wrong col count *)
| RIBadLabel                         (* RI: bad label *)
| RIFaceDownControlled               (* RI: face-down card cannot be controlled *)
| RIPendingOOB.                      (* RI: pending pos OOB *)

(** ** The monad of methods *)

Definition M (A : Type) : Type := Board → (Error + A) * Board.

Definition ret {A} (a : A) : M A := λ b, (inr a, b).
Definition throw {A} (e : Error) : M A := λ b, (inl e, b).
Definition bind {A B} (m : M A) (k : A → M B) : M B :=
  λ b, match m b with
       | (inr a, b') => k a b'
       | (inl e, b') => (inl e, b')
       end.
Definition gets {A} (f : Board → A) : M A := λ b, (inr (f b), b).
Definition modify (f : Board → Board) : M unit := λ b, (inr tt, f b).

#[global] Instance M_ret : MRet M := @ret.
#[global] Instance M_bind : MBind M := λ A B k m, bind m k.

(** [for (const x of xs) body(x)] *)
Fixpoint forEach {A} (xs : list A) (body : A → M unit) : M unit :=
  match xs with
  | [] => ret tt
  | x :: rest => bind (body x) (λ _, forEach rest body)
  end.

(** A loop that pushes one value per iteration. *)
Fixpoint collect {A B} (xs : list A) (body : A → M B) : M (list B) :=
  match xs with
  | [] => ret []
  | x :: rest =>
      bind (body x) (λ y, bind (collect rest body) (λ ys, ret (y :: ys)))
  end.

(** ** Arrays *)

(** [xs[i]] for an integer [i]; [None] is [undefined]. *)
Definition nthZ {A} (xs : list A) (i : Z) : option A :=
  if decide (0 ≤ i) then xs !! Z.to_nat i else None.

(** [row[j] = v] for [0 <= j]; an index past the end extends the array
    with holes, which every reader turns into [null]. *)
Definition arraySet (row : list (option Slot)) (j : nat) (v : option Slot)
  : list (option Slot) :=
  if decide (j < length row)%nat then <[j := v]> row
  else row ++ replicate (j - length row) None ++ [v].

(** Assignment to fields of the slot object held by cell [(i, j)]. *)
Definition mutSlot (i j : Z) (f : Slot → Slot)
    (g : list (list (option Slot))) : list (list (option Slot)) :=
  alter (alter (fmap f) (Z.to_nat j)) (Z.to_nat i) g.

Definition setGrid (g : list (list (option Slot))) (b : Board) : Board :=
  mkBoard (rows b) (cols b) g (firstSelection b) (pending b).
Definition setFirstSelection (m : gmap Player Pos) (b : Board) : Board :=
  mkBoard (rows b) (cols b) (grid b) m (pending b).
Definition setPending (m : gmap Player (option Outcome)) (b : Board) : Board :=
  mkBoard (rows b) (cols b) (grid b) (firstSelection b) m.

Definition setFaceUp (v : bool) (s : Slot) : Slot :=
  mkSlot (label s) v (controller s).
Definition setController (v : option Player) (s : Slot) : Slot :=
  mkSlot (label s) (faceUp s) v.

(** ** Helpers of the class *)

Definition row (i : Z) : M (list (option Slot)) :=
  g ← gets grid;
  match nthZ g i with
  | Some rw => ret rw
  | None => throw RowOutOfBounds
  end.

Definition getCell (i j : Z) : M (option Slot) :=
  rw ← row i;
  ret (mjoin (nthZ rw j)).

Definition setCell (i j : Z) (val : option Slot) : M unit :=
  rw ← row i;
  n ← gets cols;
  if decide (j < 0 ∨ n ≤ j) then throw ColumnOutOfBounds
  else modify (λ b,
    setGrid (<[Z.to_nat i := arraySet rw (Z.to_nat j) val]> (grid b)) b).

Definition withinb (b : Board) (p : Pos) : bool :=
  bool_decide (0 ≤ r p) && bool_decide (r p < rows b)
  && bool_decide (0 ≤ c p) && bool_decide (c p < cols b).

Definition within (p : Pos) : M bool := gets (λ b, withinb b p).

Definition slotAt (p : Pos) : M (option Slot) :=
  ok ← within p;
  if ok : bool then getCell (r p) (c p) else throw (OutOfBounds (r p) (c p)).

(** [s.f = v] for the slot [s] that [getCell(r p, c p)] returned. *)
Definition assign (p : Pos) (f : Slot → Slot) : M unit :=
  modify (λ b, setGrid (mutSlot (r p) (c p) f (grid b)) b).

Definition checkRep : M unit :=
  g ← gets grid;
  nr ← gets rows;
  nc ← gets cols;
  if decide (Z.of_nat (length g) ≠ nr) then throw RIRowCount else
  forEach g (λ rw,
    if decide (Z.of_nat (length rw) ≠ nc) then throw RIColCount
    else ret tt);;
  forEach (seqZ 0 nr) (λ i,
    forEach (seqZ 0 nc) (λ j,
      cell ← getCell i j;
      match cell with
      | None => ret tt
      | Some s =>
          if negb (cardRe (label s)) then throw RIBadLabel
          else if negb (faceUp s) && bool_decide (controller s ≠ None)
          then throw RIFaceDownControlled
          else ret tt
      end));;
  pend ← gets pending;
  forEach (map_to_list pend) (λ entry,
    match entry.2 with
    | None => ret tt
    | Some out =>
        forEach [first out; second out] (λ p,
          ok ← within p;
          if ok : bool then ret tt else throw RIPendingOOB)
    end).

Definition relinquishFirstOnly (by_ : Player) : M unit :=
  fs ← gets firstSelection;
  match fs !! by_ with
  | None => ret tt
  | Some fst =>
      s1 ← slotAt fst;
      (if s1 is Some _ then assign fst (setController None) else ret tt);;
      modify (λ b, setFirstSelection (delete by_ (firstSelection b)) b);;
      checkRep
  end.

(** ** Construction *)

Fixpoint traverse {A B} (f : A → Error + B) (xs : list A)
  : Error + list B :=
  match xs with
  | [] => inr []
  | x :: rest =>
      match f x with
      | inl e => inl e
      | inr y =>
          match traverse f rest with
          | inl e => inl e
          | inr ys => inr (y :: ys)
          end
      end
  end.

Definition newSlot (l : jsstring) : Slot := mkSlot l false None.

(** [new Board(rows, cols, labels)], for fewer than 2^32 rows and columns,
    the sizes an array can have: from there on [Array.from] throws a range
    error before any label is read. *)
Definition construct (nr nc : Z) (labels : list jsstring) : Error + Board :=
  match
    traverse (λ i,
      traverse (λ j,
        match nthZ labels (i * nc + j) with
        | None => inl MissingLabel
        | Some l => inr (Some (newSlot l))
        end) (seqZ 0 nc)) (seqZ 0 nr)
  with
  | inl e => inl e
  | inr g =>
      let b := mkBoard nr nc g ∅ ∅ in
      match checkRep b with
      | (inl e, _) => inl e
      | (inr _, b') => inr b'
      end
  end.

(** ** The rules *)

Definition hasFirstSelection (p : Player) : M bool :=
  gets (λ b, bool_decide (is_Some (firstSelection b !! p))).

Definition settleBeforeNewFirstMove (p : Player) : M unit :=
  pend ← gets pending;
  match mjoin (pend !! p) with
  | None => ret tt
  | Some outcome =>
      (match kind outcome with
       | matched =>
           let a := first outcome in
           let b := second outcome in
           setCell (r a) (c a) None;;
           setCell (r b) (c b) None
       | mismatched =>
           forEach [first outcome; second outcome] (λ q,
             cell ← getCell (r q) (c q);
             match cell with
             | Some s =>
                 if faceUp s && bool_decide (controller s = None)
                 then assign q (setFaceUp false)
                 else ret tt
             | None => ret tt
             end)
       end);;
      modify (λ b, setPending (<[p := None]> (pending b)) b);;
      checkRep
  end.

Definition flipFirst (pos : Pos) (by_ : Player) : M unit :=
  settleBeforeNewFirstMove by_;;
  slot ← slotAt pos;
  match slot with
  | None => throw EmptySpace1A
  | Some s =>
      (if negb (faceUp s) then
         assign pos (setFaceUp true);;
         assign pos (setController (Some by_))
       else if bool_decide (controller s = None) then
         assign pos (setController (Some by_))
       else if bool_decide (controller s ≠ Some by_) then
         throw Controlled1D
       else ret tt);;
      modify (λ b, setFirstSelection (<[by_ := pos]> (firstSelection b)) b);;
      checkRep
  end.

Definition flipSecond (pos : Pos) (by_ : Player) : M unit :=
  fs ← gets firstSelection;
  match fs !! by_ with
  | None => throw NoFirstCard
  | Some fst =>
      ok ← within pos;
      s2 ← (if ok : bool then getCell (r pos) (c pos) else ret None);
      match s2 with
      | None => relinquishFirstOnly by_;; throw EmptySpace2A
      | Some t2 =>
          if faceUp t2 && bool_decide (controller t2 ≠ None) then
            relinquishFirstOnly by_;; throw Controlled2B
          else
            (if negb (faceUp t2) then assign pos (setFaceUp true)
             else ret tt);;
            s1 ← slotAt fst;
            match s1 with
            | None => throw FirstSelectionMissing
            | Some t1 =>
                (if bool_decide (label t1 = label t2) then
                   assign fst (setController (Some by_));;
                   assign pos (setController (Some by_));;
                   modify (λ b, setPending
                     (<[by_ := Some (mkOutcome matched fst pos)]> (pending b)) b)
                 else
                   assign fst (setController None);;
                   assign pos (setController None);;
                   modify (λ b, setPending
                     (<[by_ := Some (mkOutcome mismatched fst pos)]> (pending b)) b));;
                modify (λ b, setFirstSelection (delete by_ (firstSelection b)) b);;
                checkRep
            end
      end
  end.

(** The line of one cell in a snapshot. *)
Definition cellLine (forPlayer : Player) (cell : option Slot) : jsstring :=
  match cell with
  | None => js "none"
  | Some s =>
      if negb (faceUp s) then js "down"
      else if bool_decide (controller s = Some forPlayer)
      then js "my " ++ label s
      else js "up " ++ label s
  end.

Definition snapshot (forPlayer : Player) : M jsstring :=
  nr ← gets rows;
  nc ← gets cols;
  body ← collect (seqZ 0 nr) (λ i,
    collect (seqZ 0 nc) (λ j,
      cell ← getCell i j;
      ret (cellLine forPlayer cell)));
  ret (join nl ((showZ nr ++ js "x" ++ showZ nc) :: concat body) ++ nl).

(** ** Parsing a board file

    [parseFromFile] is modelled from the text it has read: the decoding of
    the file is outside the embedding. *)

Definition isDigit (u : N) : bool := ((48 <=? u) && (u <=? 57))%N.

(** [text.replace(/\r\n/g, "\n")] *)
Fixpoint replaceCRLF (s : jsstring) : jsstring :=
  match s with
  | [] => []
  | u :: rest =>
      match rest with
      | v :: rest' =>
          if ((u =? 13) && (v =? 10))%N then 10%N :: replaceCRLF rest'
          else u :: replaceCRLF rest
      | [] => [u]
      end
  end.

(** [.replace(/\r/g, "\n")] *)
Definition replaceCR (s : jsstring) : jsstring :=
  (λ u, if (u =? 13)%N then 10%N else u) <$> s.

(** [.split("\n")] *)
Fixpoint splitLines (s : jsstring) : list jsstring :=
  match s with
  | [] => [[]]
  | u :: rest =>
      if (u =? 10)%N then [] :: splitLines rest
      else match splitLines rest with
           | l :: ls => (u :: l) :: ls
           | [] => [[u]]
           end
  end.

(** The variable [lines]: the non-empty lines of the text. *)
Definition fileLines (text : jsstring) : list jsstring :=
  filter (λ l : jsstring, (0 < length l)%nat)
         (splitLines (replaceCR (replaceCRLF text))).

(** The longest prefix of digits, and what follows it. *)
Fixpoint spanDigits (s : jsstring) : jsstring * jsstring :=
  match s with
  | u :: rest =>
      if isDigit u then
        let (ds, tl) := spanDigits rest in (u :: ds, tl)
      else ([], s)
  | [] => ([], [])
  end.

(** The two groups of [/^([0-9]+)x([0-9]+)$/.exec(header)]. *)
Definition headerRe (header : jsstring) : option (jsstring * jsstring) :=
  match spanDigits header with
  | (u :: ds, x :: rest) =>
      if (x =? 120)%N then
        match spanDigits rest with
        | (v :: ds', []) => Some (u :: ds, v :: ds')
        | _ => None
        end
      else None
  | _ => None
  end.

(** [parseInt(ds, 10)] on a string of digits, as an exact integer (the
    double it denotes when below 2^53; a file that is accepted has that
    many card lines, so its dimensions are far below). *)
Definition parseInt (ds : jsstring) : Z :=
  fold_left (λ acc u, 10 * acc + (Z.of_N u - 48)) ds 0.

(** [Number.isFinite] on the value of [parseInt]: a double is infinite
    from [2^1024 - 2^970] on. *)
Definition isFinite (z : Z) : bool := z <? 2 ^ 1024 - 2 ^ 970.

(** [for (const c of cards) if (!cardRe.test(c)) throw ...] *)
Fixpoint checkCards (cards : list jsstring) : Error + unit :=
  match cards with
  | [] => inr tt
  | card :: rest =>
      if cardRe card then checkCards rest else inl (InvalidCard card)
  end.

Definition parseFromFile (text : jsstring) : Error + Board :=
  match fileLines text with
  | [] => inl MissingHeader
  | header :: cards =>
      match headerRe header with
      | None => inl (MalformedHeader header)
      | Some (m1, m2) =>
          let nr := parseInt m1 in
          let nc := parseInt m2 in
          if negb (isFinite nr) || negb (isFinite nc)
             || (nr <=? 0) || (nc <=? 0)
          then inl NotPositive
          else
            let expected := nr * nc in
            if negb (Z.of_nat (length cards) =? expected)
            then inl (CardCount expected (Z.of_nat (length cards)))
            else match checkCards cards with
                 | inl e => inl e
                 | inr _ => construct nr nc cards
                 end
      end
  end.

(** ** Reading the grid *)

(** The cell at a position, with [undefined] read as [null] as [getCell]
    does; [None] for a position outside the arrays. *)
Definition cellOf (g : list (list (option Slot))) (p : Pos) : option Slot :=
  nthZ g (r p) ≫= λ rw, mjoin (nthZ rw (c p)).

Definition cellAt (b : Board) (p : Pos) : option Slot := cellOf (grid b) p.

(** The effect a completed call leaves on the board. *)
Definition after {A} (m : M A) (b : Board) : Board := (m b).2.

(** The grid is [rows] arrays of [cols] cells. *)
Definition shaped (b : Board) : Prop :=
  Z.of_nat (length (grid b)) = rows b
  ∧ Forall (λ rw, Z.of_nat (length rw) = cols b) (grid b).

(** The representation invariant that [checkRep] tests. *)
Record RI (b : Board) : Prop := mkRI {
  ri_shaped : shaped b;
  ri_label : ∀ p s, cellAt b p = Some s → cardRe (label s) = true;
  ri_down : ∀ p s, cellAt b p = Some s →
            faceUp s = false → controller s = None;
  ri_pending : ∀ pl out, pending b !! pl = Some (Some out) →
            withinb b (first out) = true ∧ withinb b (second out) = true
}.

(** The invariant of the game: [RI], every first selection is a face-up
    card controlled by its player, both cards of a matched pair awaiting
    removal are controlled by the player who matched them, and a player
    with an outcome awaiting settlement holds no first selection. *)
Record Inv (b : Board) : Prop := mkInv {
  inv_ri : RI b;
  inv_first : ∀ pl q, firstSelection b !! pl = Some q →
      ∃ s, cellAt b q = Some s ∧ faceUp s = true ∧ controller s = Some pl;
  inv_matched : ∀ pl out q, pending b !! pl = Some (Some out) →
      kind out = matched → q = first out ∨ q = second out →
      ∃ s, cellAt b q = Some s ∧ faceUp s = true ∧ controller s = Some pl;
  inv_turn : ∀ pl out, pending b !! pl = Some (Some out) →
      firstSelection b !! pl = None
}.

(** Boards produced by the constructor and then used through the methods,
    whether a call returned or threw. *)
Inductive reachable : Board → Prop :=
| reach_construct nr nc labels b :
    construct nr nc labels = inr b → reachable b
| reach_settle p b :
    reachable b → reachable (after (settleBeforeNewFirstMove p) b)
| reach_flipFirst pos p b :
    reachable b → reachable (after (flipFirst pos p) b)
| reach_flipSecond pos p b :
    reachable b → reachable (after (flipSecond pos p) b)
| reach_snapshot p b :
    reachable b → reachable (after (snapshot p) b).

(** ** The boards the methods leave

    Closed forms of the effect of each method, used to state and prove
    the properties below. *)

(** The body of the loop of [checkRep] over the cells. *)
Definition checkCell (i j : Z) : M unit :=
  cell ← getCell i j;
  match cell with
  | None => ret tt
  | Some s =>
      if negb (cardRe (label s)) then throw RIBadLabel
      else if negb (faceUp s) && bool_decide (controller s ≠ None)
      then throw RIFaceDownControlled
      else ret tt
  end.

(** The body of the loop of [checkRep] over the recorded outcomes. *)
Definition checkPending (entry : Player * option Outcome) : M unit :=
  match entry.2 with
  | None => ret tt
  | Some out =>
      forEach [first out; second out] (λ p,
        ok ← within p;
        if ok : bool then ret tt else throw RIPendingOOB)
  end.

(** The board after [s.f = v] on the slot at [p]. *)
Definition modCell (p : Pos) (f : Slot → Slot) (b : Board) : Board :=
  setGrid (mutSlot (r p) (c p) f (grid b)) b.

(** The board after [setCell(r p, c p, v)]. *)
Definition putCell (p : Pos) (v : option Slot) (b : Board) : Board :=
  setGrid (<[Z.to_nat (r p) :=
             arraySet (default [] (grid b !! Z.to_nat (r p)))
                      (Z.to_nat (c p)) v]> (grid b)) b.

(** Rule 3-B on one card: it is turned face down if it is still there,
    face up and controlled by nobody. *)
Definition flipDown (q : Pos) (b : Board) : Board :=
  match cellAt b q with
  | Some s =>
      if faceUp s && bool_decide (controller s = None)
      then modCell q (setFaceUp false) b
      else b
  | None => b
  end.

(** The board [settleBeforeNewFirstMove p] leaves. *)
Definition settled (p : Player) (b : Board) : Board :=
  match mjoin (pending b !! p) with
  | None => b
  | Some out =>
      setPending (<[p := None]> (pending b))
        match kind out with
        | matched => putCell (second out) None (putCell (first out) None b)
        | mismatched => flipDown (second out) (flipDown (first out) b)
        end
  end.

(** No first selection and no matched pair awaiting removal names [q]. *)
Definition unreferenced (b : Board) (q : Pos) : Prop :=
  (∀ pl, firstSelection b !! pl ≠ Some q)
  ∧ (∀ pl out, pending b !! pl = Some (Some out) → kind out = matched →
       q ≠ first out ∧ q ≠ second out).

(** Rules 1-B and 1-C on the slot [s] found at [pos]. *)
Definition takeCard (pos : Pos) (by_ : Player) (s : Slot) (b : Board)
  : Board :=
  if negb (faceUp s)
  then modCell pos (setController (Some by_)) (modCell pos (setFaceUp true) b)
  else if bool_decide (controller s = None)
       then modCell pos (setController (Some by_)) b
       else b.

(** The board a successful first flip leaves. *)
Definition firstFlipped (pos : Pos) (by_ : Player) (s : Slot) (b : Board)
  : Board :=
  setFirstSelection (<[by_ := pos]> (firstSelection (settled by_ b)))
    (takeCard pos by_ s (settled by_ b)).

(** The board [relinquishFirstOnly by_] leaves when [fst] is the first
    selection of [by_]. *)
Definition released (fst : Pos) (by_ : Player) (b : Board) : Board :=
  setFirstSelection (delete by_ (firstSelection b))
    (modCell fst (setController None) b).

(** The board a second flip leaves when it resolves the turn: [t1] is
    the first card at [fst], [t2] the card found at [pos]. *)
Definition resolved (pos fst : Pos) (by_ : Player) (t1 t2 : Slot)
    (b : Board) : Board :=
  let b1 := if negb (faceUp t2) then modCell pos (setFaceUp true) b else b in
  let same := bool_decide (label t1 = label t2) in
  let ctl := if same then Some by_ else None in
  setFirstSelection (delete by_ (firstSelection b))
    (setPending
       (<[by_ := Some (mkOutcome (if same then matched else mismatched)
                         fst pos)]> (pending b))
       (modCell pos (setController ctl) (modCell fst (setController ctl) b1))).

(** The lines of a snapshot: the header, then the cells row by row. *)
Definition snapshotLines (p : Player) (b : Board) : M (list (list jsstring)) :=
  collect (seqZ 0 (rows b)) (λ i,
    collect (seqZ 0 (cols b)) (λ j,
      cell ← getCell i j; ret (cellLine p cell))).

(** The positions of a grid in row-major order. *)
Definition positions (nr nc : Z) : list Pos :=
  concat ((λ i, mkPos i <$> seqZ 0 nc) <$> seqZ 0 nr).

(** A string of one or more decimal digits. *)
Definition digits (ds : jsstring) : Prop :=
  ds ≠ [] ∧ Forall (λ u, isDigit u = true) ds.

(** A non-empty string without white space. *)
Definition token (card : jsstring) : Prop :=
  card ≠ [] ∧ Forall (λ u, isSpace u = false) card.

(** The diagnostics of a malformed board file. *)
Definition formatError (e : Error) : Prop :=
  match e with
  | MissingHeader | MalformedHeader _ | NotPositive
  | CardCount _ _ | InvalidCard _ => True
  | _ => False
  end.

(** ** Boards used to exercise the properties

    A 3x3 board with the cards A A B / B C C / D D E and two players. *)

Definition alice : Player := js "alice".
Definition bob : Player := js "bob".

Definition demoLabels : list jsstring :=
  [js "A"; js "A"; js "B"; js "B"; js "C"; js "C"; js "D"; js "D"; js "E"].

Definition demo0 : Board :=
  match construct 3 3 demoLabels with
  | inr b => b
  | inl _ => mkBoard 0 0 [] ∅ ∅
  end.

(** alice holds (0,0) as first card. *)
Definition demo1 : Board := after (flipFirst (mkPos 0 0) alice) demo0.

(** alice has matched (0,0) and (0,1); the pair awaits removal. *)
Definition demo2 : Board := after (flipSecond (mkPos 0 1) alice) demo1.

(** alice has mismatched (0,0) and (0,2); both stay face up. *)
Definition demoMis : Board := after (flipSecond (mkPos 0 2) alice) demo1.

(** The first pair is gone and alice has matched (0,2) and (1,0). *)
Definition demo3 : Board :=
  after (flipSecond (mkPos 1 0) alice)
    (after (flipFirst (mkPos 0 2) alice) demo2).

(** The text of a board file for [demo0], with mixed line endings and a
    blank line. *)
Definition demoText : jsstring :=
  js "3x3" ++ [13; 10]%N ++ js "A" ++ nl ++ js "A" ++ nl ++ nl
  ++ js "B" ++ [13]%N ++ js "B" ++ nl ++ js "C" ++ nl ++ js "C" ++ nl
  ++ js "D" ++ nl ++ js "D" ++ nl ++ js "E" ++ nl.

(** The grid the constructor builds when every label it reads is there. *)
Definition freshGrid (nr nc : Z) (labels : list jsstring)
  : list (list (option Slot)) :=
  (λ i, (λ j, Some (newSlot (default [] (nthZ labels (i * nc + j)))))
        <$> seqZ 0 nc) <$> seqZ 0 nr.

(** ** The commands of [src/commands.ts]

    The glue between the server and the board: each command acts on the
    board it is given and answers with the snapshot for the player. *)

Module Commands.

Definition look (playerId : Player) : M jsstring := snapshot playerId.

Definition flip (playerId : Player) (row column : Z) : M jsstring :=
  let pos := mkPos row column in
  has ← hasFirstSelection playerId;
  (if has : bool then flipSecond pos playerId else flipFirst pos playerId);;
  snapshot playerId.

(** The transformer is not used yet. *)
Definition map {T : Type} (playerId : Player) (transform : T) : M jsstring :=
  snapshot playerId.

Definition watch (playerId : Player) : M jsstring := snapshot playerId.

End Commands.

(** ** The helpers of [test/board.test.ts]

    A failed assertion is [None]. *)

Fixpoint dropWhile {A} (f : A → bool) (xs : list A) : list A :=
  match xs with
  | x :: rest => if f x then dropWhile f rest else xs
  | [] => []
  end.

(** [s.trimEnd()]: white space and line terminators are the class [\s]. *)
Definition trimEnd (s : jsstring) : jsstring :=
  reverse (dropWhile isSpace (reverse s)).

Definition linesOf (s : jsstring) : list jsstring :=
  splitLines (trimEnd (replaceCR (replaceCRLF s))).

Definition spotAt (snap : jsstring) (nr nc i j : Z) : option jsstring :=
  let lines := linesOf snap in
  if decide (nthZ lines 0 = Some (showZ nr ++ js "x" ++ showZ nc)) then
    let idx := 1 + i * nc + j in
    if decide (1 ≤ idx ∧ idx < Z.of_nat (length lines))
    then nthZ lines idx else None
  else None.

(** ** One call

    [step p b b']: a method called by (or for) player [p] on the board [b]
    leaves the board [b'], whether it returned or threw. *)
Inductive step (p : Player) : Board → Board → Prop :=
| step_settle b : step p b (after (settleBeforeNewFirstMove p) b)
| step_flipFirst pos b : step p b (after (flipFirst pos p) b)
| step_flipSecond pos b : step p b (after (flipSecond pos p) b)
| step_snapshot b : step p b (after (snapshot p) b).

(** A line of a snapshot: free of line terminators, and ending in a
    character that is not white space. *)
Definition printed (l : jsstring) : Prop :=
  Forall (λ u, u ≠ 10%N ∧ u ≠ 13%N) l
  ∧ ∃ u, last l = Some u ∧ isSpace u = false.

(** * Properties *)

(** ** Lists and positions *)

Lemma Pos_eta (p : Pos) : mkPos (r p) (c p) = p.
Proof. by destruct p. Qed.

Lemma nthZ_Some {A} (xs : list A) i x :
  nthZ xs i = Some x → 0 ≤ i < Z.of_nat (length xs).
Proof.
  unfold nthZ. case_decide; [|done]. intros Hx%lookup_lt_Some. lia.
Qed.

Lemma nthZ_lookup {A} (xs : list A) i :
  0 ≤ i → nthZ xs i = xs !! Z.to_nat i.
Proof. unfold nthZ. intros. by case_decide. Qed.

Lemma nthZ_is_Some {A} (xs : list A) i :
  0 ≤ i < Z.of_nat (length xs) → is_Some (nthZ xs i).
Proof.
  intros [H0 H1]. rewrite nthZ_lookup by done.
  apply lookup_lt_is_Some. lia.
Qed.

Lemma cellOf_Some g p s :
  cellOf g p = Some s →
  ∃ rw, nthZ g (r p) = Some rw ∧ nthZ rw (c p) = Some (Some s).
Proof.
  unfold cellOf. destruct (nthZ g (r p)) as [rw|] eqn:E; [|done].
  simpl. destruct (nthZ rw (c p)) as [[t|]|] eqn:E'; simpl; try done.
  intros [= ->]. eauto.
Qed.

Lemma cellAt_within b p s :
  shaped b → cellAt b p = Some s → withinb b p = true.
Proof.
  intros [Hrows HF] (rw & Hr & Hc)%cellOf_Some.
  pose proof (nthZ_Some _ _ _ Hr) as Hr'.
  pose proof (nthZ_Some _ _ _ Hc) as Hc'.
  assert (Z.of_nat (length rw) = cols b) as Hlen.
  { rewrite Forall_forall in HF.
    apply HF. rewrite nthZ_lookup in Hr by lia.
    eapply list_elem_of_lookup_2. exact Hr. }
  unfold withinb. rewrite !andb_true_iff, !bool_decide_eq_true.
  rewrite <- Hrows, <- Hlen. lia.
Qed.

Lemma within_bounds b p :
  withinb b p = true ↔ (0 ≤ r p < rows b ∧ 0 ≤ c p < cols b).
Proof.
  unfold withinb. rewrite !andb_true_iff, !bool_decide_eq_true. lia.
Qed.

Lemma within_row b p :
  shaped b → withinb b p = true → is_Some (nthZ (grid b) (r p)).
Proof.
  intros [Hrows _] H%within_bounds.
  apply nthZ_is_Some. rewrite Hrows. lia.
Qed.

(** Assigning to a field of the slot at [(i, j)] changes that cell and no
    other. *)
Lemma cellOf_mutSlot g i j f q :
  0 ≤ i → 0 ≤ j →
  cellOf (mutSlot i j f g) q
  = if decide (q = mkPos i j) then f <$> cellOf g q else cellOf g q.
Proof.
  intros Hi Hj. unfold cellOf, mutSlot.
  destruct q as [qi qj]; simpl.
  destruct (decide (mkPos qi qj = mkPos i j)) as [Hq|Hq].
  - injection Hq as -> ->. rewrite !nthZ_lookup by done.
    rewrite list_lookup_alter_eq.
    destruct (g !! Z.to_nat i) as [rw|]; simpl; [|done].
    rewrite !nthZ_lookup by done. rewrite list_lookup_alter_eq.
    by destruct (rw !! Z.to_nat j) as [[?|]|].
  - destruct (decide (0 ≤ qi)) as [Hqi|Hqi].
    2:{ unfold nthZ. by rewrite !decide_False by done. }
    rewrite !(nthZ_lookup _ qi) by done.
    destruct (decide (qi = i)) as [->|Hne].
    + rewrite list_lookup_alter_eq.
      destruct (g !! Z.to_nat i) as [rw|]; simpl; [|done].
      unfold nthZ. destruct (decide (0 ≤ qj)); [|done].
      rewrite list_lookup_alter_ne; [done|].
      intros E. apply Hq. f_equal. lia.
    + rewrite list_lookup_alter_ne; [done|]. lia.
Qed.

Lemma length_mutSlot g i j f : length (mutSlot i j f g) = length g.
Proof. unfold mutSlot. apply length_alter. Qed.

Lemma Forall_mutSlot g i j f (n : Z) :
  Forall (λ rw, Z.of_nat (length rw) = n) g →
  Forall (λ rw, Z.of_nat (length rw) = n) (mutSlot i j f g).
Proof.
  intros H. unfold mutSlot. apply Forall_alter; [done|].
  intros rw _ Hrw. by rewrite length_alter.
Qed.

(** [row[j] = v] on row [i] changes that cell and no other, also when it
    extends the row. *)
Lemma cellOf_arraySet g i j rw v q :
  0 ≤ i → 0 ≤ j → nthZ g i = Some rw →
  cellOf (<[Z.to_nat i := arraySet rw (Z.to_nat j) v]> g) q
  = if decide (q = mkPos i j) then v else cellOf g q.
Proof.
  intros Hi Hj Hrw. rewrite nthZ_lookup in Hrw by done.
  pose proof (lookup_lt_Some _ _ _ Hrw) as Hlt.
  unfold cellOf, nthZ. destruct q as [qi qj]; simpl.
  assert (∀ k, arraySet rw (Z.to_nat j) v !! k
     = if decide (k = Z.to_nat j) then Some v
       else if decide (k < length (arraySet rw (Z.to_nat j) v))%nat
            then Some (mjoin (rw !! k)) else None) as Hset.
  { intros k. unfold arraySet. case_decide as Hin.
    - rewrite length_insert. case_decide as Hk.
      + subst. by rewrite list_lookup_insert_eq.
      + rewrite list_lookup_insert_ne by done.
        case_decide as Hk'.
        * destruct (lookup_lt_is_Some_2 rw k Hk') as [x Hx]. by rewrite Hx.
        * apply lookup_ge_None_2. lia.
    - rewrite !length_app, length_replicate. simpl.
      case_decide as Hk.
      + subst. rewrite lookup_app_r by lia.
        rewrite lookup_app_r; rewrite length_replicate; [|lia].
        by replace (Z.to_nat j - length rw - (Z.to_nat j - length rw))%nat
          with 0%nat by lia.
      + case_decide as Hk'.
        * destruct (decide (k < length rw)%nat) as [Hk2|Hk2].
          -- rewrite lookup_app_l by done.
             destruct (lookup_lt_is_Some_2 rw k Hk2) as [x Hx]. by rewrite Hx.
          -- rewrite lookup_app_r by lia. rewrite lookup_app_l.
             2:{ rewrite length_replicate. lia. }
             rewrite lookup_replicate_2 by lia.
             by rewrite (lookup_ge_None_2 rw k) by lia.
        * apply lookup_ge_None_2.
          rewrite !length_app, length_replicate. simpl. lia. }
  destruct (decide (mkPos qi qj = mkPos i j)) as [Hq|Hq].
  - injection Hq as -> ->. rewrite !decide_True by done.
    rewrite list_lookup_insert_eq by done. simpl.
    rewrite decide_True by done.
    rewrite Hset. by rewrite decide_True.
  - destruct (decide (0 ≤ qi)) as [Hqi|]; [|done].
    destruct (decide (qi = i)) as [->|Hne].
    + rewrite list_lookup_insert_eq by done. rewrite Hrw. simpl.
      destruct (decide (0 ≤ qj)); [|done].
      rewrite Hset. rewrite decide_False.
      2:{ intros E. apply Hq. f_equal. lia. }
      case_decide as Hk; [done|].
      rewrite (lookup_ge_None_2 rw); [done|].
      unfold arraySet in Hk. case_decide.
      * rewrite length_insert in Hk. lia.
      * rewrite !length_app in Hk. lia.
    + rewrite list_lookup_insert_ne; [done|]. lia.
Qed.

(** ** Running the helpers *)

Ltac mrun :=
  cbv beta iota delta [mbind M_bind bind gets modify within ret throw].
Tactic Notation "mrun" "in" hyp(H) :=
  cbv beta iota delta [mbind M_bind bind gets modify within ret throw] in H.

Lemma bind_run {A B} (m : M A) (k : A → M B) b :
  (m ≫= k) b
  = match m b with (inr a, b') => k a b' | (inl e, b') => (inl e, b') end.
Proof. reflexivity. Qed.

Lemma getCell_run i j b :
  getCell i j b
  = match nthZ (grid b) i with
    | Some rw => (inr (mjoin (nthZ rw j)), b)
    | None => (inl RowOutOfBounds, b)
    end.
Proof.
  unfold getCell, row. rewrite !bind_run. unfold gets.
  by destruct (nthZ (grid b) i).
Qed.

Lemma getCell_cellAt b p :
  is_Some (nthZ (grid b) (r p)) →
  getCell (r p) (c p) b = (inr (cellAt b p), b).
Proof.
  intros [rw Hrw]. rewrite getCell_run. unfold cellAt, cellOf.
  by rewrite Hrw.
Qed.

Lemma getCell_mkPos b i j :
  is_Some (nthZ (grid b) i) →
  getCell i j b = (inr (cellAt b (mkPos i j)), b).
Proof. apply (getCell_cellAt b (mkPos i j)). Qed.

Lemma getCell_state i j b : (getCell i j b).2 = b.
Proof. rewrite getCell_run. by destruct (nthZ (grid b) i). Qed.

Lemma slotAt_within b p :
  shaped b → withinb b p = true → slotAt p b = (inr (cellAt b p), b).
Proof.
  intros HRI Hw. unfold slotAt, within. rewrite bind_run. unfold gets.
  rewrite Hw. apply getCell_cellAt. by apply within_row.
Qed.

Lemma slotAt_outside b p :
  withinb b p = false → slotAt p b = (inl (OutOfBounds (r p) (c p)), b).
Proof.
  intros Hw. unfold slotAt, within. rewrite bind_run. unfold gets.
  by rewrite Hw.
Qed.

Lemma forEach_ok {A} (xs : list A) body b :
  (∀ x, x ∈ xs → body x b = (inr tt, b)) → forEach xs body b = (inr tt, b).
Proof.
  induction xs as [|x xs IH]; intros H; simpl; [done|].
  unfold bind. rewrite H by left. apply IH. intros y Hy. apply H. by right.
Qed.

Lemma forEach_state {A} (xs : list A) body b :
  (∀ x b', (body x b').2 = b') → (forEach xs body b).2 = b.
Proof.
  intros H. induction xs as [|x xs IH]; simpl; [done|].
  unfold bind. specialize (H x b).
  destruct (body x b) as [[e|[]] b']; simpl in *; subst; done.
Qed.

Lemma forEach_inr {A} (xs : list A) body b :
  (∀ x b', (body x b').2 = b') →
  (forEach xs body b).1 = inr tt → ∀ x, x ∈ xs → body x b = (inr tt, b).
Proof.
  intros Hp. induction xs as [|x xs IH]; simpl; intros H y Hy.
  - by apply elem_of_nil in Hy.
  - unfold bind in H. pose proof (Hp x b) as Hx.
    destruct (body x b) as [[e|[]] b'] eqn:E; simpl in *; subst; [done|].
    apply elem_of_cons in Hy as [->|Hy]; [done|]. by apply IH.
Qed.

(** ** [checkRep] decides the representation invariant *)

Lemma checkRep_unfold b :
  checkRep b
  = if decide (Z.of_nat (length (grid b)) ≠ rows b)
    then (inl RIRowCount, b)
    else
      ((forEach (grid b) (λ rw,
          if decide (Z.of_nat (length rw) ≠ cols b) then throw RIColCount
          else ret tt);;
        forEach (seqZ 0 (rows b)) (λ i,
          forEach (seqZ 0 (cols b)) (λ j, checkCell i j));;
        pend ← gets pending;
        forEach (map_to_list pend) checkPending) : M unit) b.
Proof.
  unfold checkRep, checkCell, checkPending, mbind, M_bind, bind, gets.
  by case_decide.
Qed.

Lemma checkCell_state i j b : (checkCell i j b).2 = b.
Proof.
  unfold checkCell. rewrite bind_run, getCell_run.
  destruct (nthZ (grid b) i) as [rw|]; [|done].
  destruct (mjoin (nthZ rw j)) as [s|]; [|done].
  destruct (negb (cardRe (label s))); [done|].
  by destruct (negb (faceUp s) && bool_decide (controller s ≠ None)).
Qed.

Lemma checkPending_state e b : (checkPending e b).2 = b.
Proof.
  unfold checkPending. destruct (e.2) as [out|]; [|done].
  apply forEach_state. intros p b'. rewrite bind_run. unfold within, gets.
  by destruct (withinb b' p).
Qed.

Lemma checkRep_state b : (checkRep b).2 = b.
Proof.
  rewrite checkRep_unfold. case_decide; [done|].
  rewrite bind_run.
  pose proof (forEach_state (grid b) (λ rw,
    if decide (Z.of_nat (length rw) ≠ cols b) then throw RIColCount
    else ret tt) b) as H1.
  destruct (forEach (grid b) _ b) as [[e|[]] b1]; simpl in H1.
  { apply H1. intros rw b'. by case_decide. }
  rewrite H1 by (intros rw b'; by case_decide).
  rewrite bind_run.
  pose proof (forEach_state (seqZ 0 (rows b)) (λ i,
    forEach (seqZ 0 (cols b)) (λ j, checkCell i j)) b) as H2.
  destruct (forEach (seqZ 0 (rows b)) _ b) as [[e|[]] b2]; simpl in H2.
  { apply H2. intros i b'. apply forEach_state. intros. apply checkCell_state. }
  rewrite H2.
  2:{ intros i b'. apply forEach_state. intros. apply checkCell_state. }
  rewrite bind_run. unfold gets.
  apply forEach_state. intros. apply checkPending_state.
Qed.

Lemma checkRep_ok b : RI b → checkRep b = (inr tt, b).
Proof.
  intros HRI. destruct (ri_shaped b HRI) as [Hrows HF].
  rewrite checkRep_unfold.
  rewrite decide_False by (rewrite Hrows; tauto).
  rewrite bind_run, forEach_ok.
  2:{ intros rw Hrw.
      rewrite Forall_forall in HF. by rewrite decide_False by
        (rewrite (HF rw Hrw); tauto). }
  rewrite bind_run, forEach_ok.
  2:{ intros i Hi%elem_of_seqZ. apply forEach_ok. intros j Hj.
      unfold checkCell. rewrite bind_run.
      rewrite getCell_mkPos.
      2:{ apply nthZ_is_Some. rewrite Hrows. lia. }
      destruct (cellAt b (mkPos i j)) as [s|] eqn:E; [|done].
      rewrite (ri_label b HRI _ _ E). simpl.
      destruct (faceUp s) eqn:Ef; [done|]. simpl.
      by rewrite (ri_down b HRI _ _ E Ef). }
  rewrite bind_run. unfold gets. apply forEach_ok.
  intros [pl [out|]] He; [|done].
  apply elem_of_map_to_list in He.
  destruct (ri_pending b HRI _ _ He) as [H1 H2].
  unfold checkPending. simpl. mrun.
  by rewrite H1, H2.
Qed.

Lemma checkRep_sound b : (checkRep b).1 = inr tt → RI b.
Proof.
  rewrite checkRep_unfold. case_decide as Hrows; [done|].
  rewrite bind_run.
  pose proof (forEach_state (grid b) (λ rw,
    if decide (Z.of_nat (length rw) ≠ cols b) then throw RIColCount
    else ret tt) b) as S1.
  pose proof (forEach_inr (grid b) (λ rw,
    if decide (Z.of_nat (length rw) ≠ cols b) then throw RIColCount
    else ret tt) b) as I1.
  destruct (forEach (grid b) _ b) as [[e|[]] b1]; [done|]. simpl in S1, I1.
  rewrite S1 by (intros rw b'; by case_decide).
  assert (Forall (λ rw, Z.of_nat (length rw) = cols b) (grid b)) as Hcols.
  { apply Forall_forall. intros rw Hrw.
    specialize (I1 ltac:(intros ? ?; by case_decide) eq_refl rw Hrw).
    by case_decide as Hc. }
  clear S1 I1 b1.
  rewrite bind_run.
  pose proof (forEach_state (seqZ 0 (rows b)) (λ i,
    forEach (seqZ 0 (cols b)) (λ j, checkCell i j)) b) as S2.
  pose proof (forEach_inr (seqZ 0 (rows b)) (λ i,
    forEach (seqZ 0 (cols b)) (λ j, checkCell i j)) b) as I2.
  destruct (forEach (seqZ 0 (rows b)) _ b) as [[e|[]] b2]; [done|].
  simpl in S2, I2.
  assert (∀ i b', (forEach (seqZ 0 (cols b)) (λ j, checkCell i j) b').2 = b')
    as Hpure.
  { intros i b'. apply forEach_state. intros. apply checkCell_state. }
  rewrite S2 by done. specialize (I2 Hpure eq_refl). clear S2 b2.
  assert (∀ p s, cellAt b p = Some s →
     cardRe (label s) = true ∧ (faceUp s = false → controller s = None))
    as Hcells.
  { intros p s Hs. destruct (cellOf_Some _ _ _ Hs) as (rw & Hr & Hc).
    pose proof (nthZ_Some _ _ _ Hr) as Hr'.
    pose proof (nthZ_Some _ _ _ Hc) as Hc'.
    assert (Z.of_nat (length rw) = cols b) as Hlen.
    { rewrite Forall_forall in Hcols. apply Hcols.
      rewrite nthZ_lookup in Hr by lia. by eapply list_elem_of_lookup_2. }
    assert (r p ∈ seqZ 0 (rows b)) as Hi by (apply elem_of_seqZ; lia).
    assert (c p ∈ seqZ 0 (cols b)) as Hj by (apply elem_of_seqZ; lia).
    specialize (I2 _ Hi).
    pose proof (forEach_inr _ _ b (λ j b', checkCell_state (r p) j b')
      ltac:(by rewrite I2) _ Hj) as Hcell.
    unfold checkCell in Hcell. rewrite bind_run in Hcell.
    rewrite getCell_cellAt in Hcell by (rewrite Hr; eauto).
    rewrite Hs in Hcell.
    destruct (cardRe (label s)); [|done]. split; [done|].
    intros Hf. rewrite Hf in Hcell. simpl in Hcell.
    destruct (controller s); [done|done]. }
  rewrite bind_run. unfold gets. intros Hp.
  pose proof (forEach_inr _ _ b checkPending_state Hp) as I3.
  split; [done| | |].
  - intros p s Hs. by apply Hcells in Hs as [? ?].
  - intros p s Hs. by apply Hcells in Hs as [? ?].
  - intros pl out He. apply elem_of_map_to_list in He.
    specialize (I3 _ He). unfold checkPending in I3. simpl in I3.
    mrun in I3.
    destruct (withinb b (first out)); [|done].
    by destruct (withinb b (second out)).
Qed.

(** ** The two ways the methods write the grid *)

Lemma assign_run p f b : assign p f b = (inr tt, modCell p f b).
Proof. reflexivity. Qed.

Lemma setCell_run b p v :
  shaped b → withinb b p = true →
  setCell (r p) (c p) v b = (inr tt, putCell p v b).
Proof.
  intros Hs Hw. destruct (within_row b p Hs Hw) as [rw Hrw].
  apply within_bounds in Hw.
  unfold setCell, row. mrun. rewrite Hrw.
  rewrite decide_False by lia. unfold putCell.
  rewrite nthZ_lookup in Hrw by lia. by rewrite Hrw.
Qed.

Lemma shaped_modCell p f b : shaped b → shaped (modCell p f b).
Proof.
  intros [H1 H2]. split; simpl.
  - by rewrite length_mutSlot.
  - by apply Forall_mutSlot.
Qed.

Lemma cellAt_modCell b p f q :
  withinb b p = true →
  cellAt (modCell p f b) q
  = if decide (q = p) then f <$> cellAt b q else cellAt b q.
Proof.
  intros Hw%within_bounds. unfold cellAt. simpl.
  rewrite cellOf_mutSlot by lia. by rewrite Pos_eta.
Qed.

Lemma shaped_putCell p v b :
  shaped b → withinb b p = true → shaped (putCell p v b).
Proof.
  intros Hs Hw. destruct (within_row b p Hs Hw) as [rw Hrw].
  destruct Hs as [H1 H2]. apply within_bounds in Hw.
  rewrite nthZ_lookup in Hrw by lia.
  split; simpl.
  - by rewrite length_insert.
  - rewrite Hrw. simpl. apply Forall_insert; [done|].
    assert (Z.of_nat (length rw) = cols b) as Hlen.
    { rewrite Forall_forall in H2. apply H2.
      by eapply list_elem_of_lookup_2. }
    unfold arraySet. rewrite decide_True by lia.
    by rewrite length_insert.
Qed.

Lemma cellAt_putCell b p v q :
  shaped b → withinb b p = true →
  cellAt (putCell p v b) q = if decide (q = p) then v else cellAt b q.
Proof.
  intros Hs Hw. destruct (within_row b p Hs Hw) as [rw Hrw].
  apply within_bounds in Hw. unfold cellAt. simpl.
  pose proof Hrw as Hrw'. rewrite nthZ_lookup in Hrw' by lia.
  rewrite Hrw'. simpl.
  rewrite (cellOf_arraySet _ _ _ rw) by (done || lia).
  by rewrite Pos_eta.
Qed.

Lemma cellAt_setFirstSelection m b q :
  cellAt (setFirstSelection m b) q = cellAt b q.
Proof. reflexivity. Qed.

Lemma cellAt_setPending m b q : cellAt (setPending m b) q = cellAt b q.
Proof. reflexivity. Qed.

Lemma withinb_modCell p f b q : withinb (modCell p f b) q = withinb b q.
Proof. reflexivity. Qed.

Lemma withinb_putCell p v b q : withinb (putCell p v b) q = withinb b q.
Proof. reflexivity. Qed.

Lemma RI_shaped b : RI b → shaped b.
Proof. apply ri_shaped. Qed.

Lemma Inv_shaped b : Inv b → shaped b.
Proof. intros H. apply ri_shaped, inv_ri, H. Qed.

(** ** Settling preserves the invariants *)

Lemma cellAt_flipDown b q x :
  shaped b →
  cellAt (flipDown q b) x
  = (λ s, if decide (x = q)
          then (if faceUp s && bool_decide (controller s = None)
                then setFaceUp false s else s)
          else s) <$> cellAt b x.
Proof.
  intros Hs. unfold flipDown.
  destruct (cellAt b q) as [s|] eqn:E.
  - destruct (faceUp s && bool_decide (controller s = None)) eqn:Ei.
    + rewrite cellAt_modCell by (by eapply cellAt_within).
      case_decide as Hx.
      * subst. rewrite E. simpl. by rewrite Ei.
      * by destruct (cellAt b x).
    + destruct (cellAt b x) as [t|] eqn:Ex; [|done]. simpl.
      case_decide as Hx; [|done]. subst.
      assert (t = s) as -> by congruence. by rewrite Ei.
  - destruct (cellAt b x) as [t|] eqn:Ex; [|done]. simpl.
    case_decide; [congruence|done].
Qed.

Lemma shaped_flipDown q b : shaped b → shaped (flipDown q b).
Proof.
  intros Hs. unfold flipDown. destruct (cellAt b q) as [s|]; [|done].
  destruct (faceUp s && bool_decide (controller s = None)); [|done].
  by apply shaped_modCell.
Qed.

Lemma flipDown_frame q b :
  rows (flipDown q b) = rows b ∧ cols (flipDown q b) = cols b
  ∧ firstSelection (flipDown q b) = firstSelection b
  ∧ pending (flipDown q b) = pending b.
Proof.
  unfold flipDown. destruct (cellAt b q) as [s|]; [|done].
  by destruct (faceUp s && bool_decide (controller s = None)).
Qed.

Lemma withinb_frame b b' p :
  rows b' = rows b → cols b' = cols b → withinb b' p = withinb b p.
Proof. unfold withinb. by intros -> ->. Qed.

Lemma RI_flipDown q b : RI b → RI (flipDown q b).
Proof.
  intros HRI. pose proof (RI_shaped b HRI) as Hs.
  destruct (flipDown_frame q b) as (Hr & Hc & Hf & Hp).
  split.
  - by apply shaped_flipDown.
  - intros x s. rewrite cellAt_flipDown by done.
    destruct (cellAt b x) as [t|] eqn:E; [|done]. simpl. intros [= <-].
    pose proof (ri_label b HRI x t E).
    case_decide; [|done].
    by destruct (faceUp t && bool_decide (controller t = None)).
  - intros x s. rewrite cellAt_flipDown by done.
    destruct (cellAt b x) as [t|] eqn:E; [|done]. simpl. intros [= <-].
    pose proof (ri_down b HRI x t E) as Hd.
    case_decide; [|done].
    destruct (faceUp t && bool_decide (controller t = None)) eqn:Ei; [|done].
    simpl. intros _. apply andb_prop in Ei as [_ Ei].
    by apply bool_decide_eq_true_1 in Ei.
  - intros pl out. rewrite Hp.
    rewrite (withinb_frame b _ (first out)) by done.
    rewrite (withinb_frame b _ (second out)) by done.
    apply (ri_pending b HRI).
Qed.

Lemma Inv_flipDown q b : Inv b → Inv (flipDown q b).
Proof.
  intros HI. pose proof (Inv_shaped b HI) as Hs.
  destruct (flipDown_frame q b) as (Hr & Hc & Hf & Hp).
  assert (∀ x s, cellAt b x = Some s → faceUp s = true →
    controller s ≠ None → cellAt (flipDown q b) x = Some s) as Hkeep.
  { intros x s Hx Hu Hn. rewrite cellAt_flipDown, Hx by done. simpl.
    case_decide; [|done]. rewrite Hu. simpl.
    by rewrite bool_decide_eq_false_2. }
  split.
  - apply RI_flipDown, (inv_ri b HI).
  - intros pl x. rewrite Hf. intros Hx.
    destruct (inv_first b HI pl x Hx) as (s & E & Hu & Hctl).
    exists s. split; [|done]. apply Hkeep; [done..|congruence].
  - intros pl out x. rewrite Hp. intros Hx Hk Hq.
    destruct (inv_matched b HI pl out x Hx Hk Hq) as (s & E & Hu & Hctl).
    exists s. split; [|done]. apply Hkeep; [done..|congruence].
  - intros pl out. rewrite Hp, Hf. apply (inv_turn b HI).
Qed.

(** Forgetting a player's outcome keeps the invariants. *)
Lemma insert_None_old (p : Player) (m : gmap Player (option Outcome)) pl out :
  <[p := None]> m !! pl = Some (Some out) → m !! pl = Some (Some out).
Proof. rewrite lookup_insert. by case_decide. Qed.

Lemma RI_clear p b : RI b → RI (setPending (<[p := None]> (pending b)) b).
Proof.
  intros HRI. split; simpl.
  - apply (ri_shaped b HRI).
  - apply (ri_label b HRI).
  - apply (ri_down b HRI).
  - intros pl out H%insert_None_old. apply (ri_pending b HRI _ _ H).
Qed.

Lemma Inv_clear p b :
  Inv b → Inv (setPending (<[p := None]> (pending b)) b).
Proof.
  intros HI. split; simpl.
  - apply RI_clear, (inv_ri b HI).
  - apply (inv_first b HI).
  - intros pl out x H%insert_None_old. by apply (inv_matched b HI).
  - intros pl out H%insert_None_old. by apply (inv_turn b HI pl out).
Qed.

Lemma RI_remove q b : RI b → withinb b q = true → RI (putCell q None b).
Proof.
  intros HRI Hw. pose proof (RI_shaped b HRI) as Hs.
  split.
  - by apply shaped_putCell.
  - intros x s. rewrite cellAt_putCell by done.
    case_decide; [done|]. apply (ri_label b HRI).
  - intros x s. rewrite cellAt_putCell by done.
    case_decide; [done|]. apply (ri_down b HRI).
  - apply (ri_pending b HRI).
Qed.

Lemma Inv_remove q b :
  Inv b → withinb b q = true → unreferenced b q → Inv (putCell q None b).
Proof.
  intros HI Hw [Hu1 Hu2].
  pose proof (Inv_shaped b HI) as Hs.
  split.
  - by apply RI_remove, Hw; apply (inv_ri b HI).
  - simpl. intros pl x Hx.
    destruct (inv_first b HI pl x Hx) as (s & E & Hup & Hctl).
    exists s. rewrite cellAt_putCell by done.
    rewrite decide_False; [done|]. intros ->. by apply (Hu1 pl).
  - simpl. intros pl out x Hx Hk Hq.
    destruct (inv_matched b HI pl out x Hx Hk Hq) as (s & E & Hup & Hctl).
    exists s. rewrite cellAt_putCell by done.
    rewrite decide_False; [done|]. intros ->.
    destruct (Hu2 pl out Hx Hk). by destruct Hq.
  - apply (inv_turn b HI).
Qed.

Lemma matched_unreferenced p out q b :
  Inv b → pending b !! p = Some (Some out) → kind out = matched →
  q = first out ∨ q = second out →
  unreferenced (setPending (<[p := None]> (pending b)) b) q.
Proof.
  intros HI Hp Hk Hq.
  destruct (inv_matched b HI p out q Hp Hk Hq) as (s & E & Hup & Hctl).
  split; simpl.
  - intros pl Hx.
    destruct (inv_first b HI pl q Hx) as (s' & E' & _ & Hctl').
    assert (pl = p) as -> by congruence.
    pose proof (inv_turn b HI p out Hp). congruence.
  - intros pl out'. rewrite lookup_insert. case_decide; [done|].
    intros Hp' Hk'.
    split; intros ->.
    + destruct (inv_matched b HI pl out' (first out') Hp' Hk')
        as (s' & E' & _ & Hctl'); [by left|]. congruence.
    + destruct (inv_matched b HI pl out' (second out') Hp' Hk')
        as (s' & E' & _ & Hctl'); [by right|]. congruence.
Qed.

Lemma pending_join p b out :
  mjoin (pending b !! p) = Some out → pending b !! p = Some (Some out).
Proof. by destruct (pending b !! p) as [[?|]|]; intros; simplify_eq/=. Qed.

Lemma RI_settled p b : RI b → RI (settled p b).
Proof.
  intros HRI. unfold settled.
  destruct (mjoin (pending b !! p)) as [out|] eqn:E; [|done].
  apply pending_join in E.
  destruct (ri_pending b HRI p out E) as [Hw1 Hw2].
  destruct (kind out) eqn:Hk.
  - change (RI (putCell (second out) None (putCell (first out) None
              (setPending (<[p := None]> (pending b)) b)))).
    pose proof (RI_clear p b HRI) as H0.
    apply RI_remove; [by apply RI_remove|done].
  - pose proof (RI_flipDown (second out) _
                  (RI_flipDown (first out) b HRI)) as H2.
    apply (RI_clear p) in H2.
    destruct (flipDown_frame (second out) (flipDown (first out) b))
      as (_ & _ & _ & Hp2).
    destruct (flipDown_frame (first out) b) as (_ & _ & _ & Hp1).
    by rewrite Hp2, Hp1 in H2.
Qed.

Lemma settled_Inv p b : Inv b → Inv (settled p b).
Proof.
  intros HI. unfold settled.
  destruct (mjoin (pending b !! p)) as [out|] eqn:E; [|done].
  apply pending_join in E.
  destruct (ri_pending b (inv_ri b HI) p out E) as [Hw1 Hw2].
  destruct (kind out) eqn:Hk.
  - change (Inv (putCell (second out) None (putCell (first out) None
              (setPending (<[p := None]> (pending b)) b)))).
    pose proof (Inv_clear p b HI) as H0.
    pose proof (matched_unreferenced p out (first out) b HI E Hk
                  ltac:(by left)) as U1.
    pose proof (matched_unreferenced p out (second out) b HI E Hk
                  ltac:(by right)) as U2.
    apply Inv_remove; [apply Inv_remove; done|done|done].
  - pose proof (Inv_flipDown (second out) _
                  (Inv_flipDown (first out) b HI)) as H2.
    apply (Inv_clear p) in H2.
    destruct (flipDown_frame (second out) (flipDown (first out) b))
      as (_ & _ & _ & Hp2).
    destruct (flipDown_frame (first out) b) as (_ & _ & _ & Hp1).
    by rewrite Hp2, Hp1 in H2.
Qed.

Lemma flipDown_step q b :
  (match cellAt b q with
   | Some s =>
       if faceUp s && bool_decide (controller s = None)
       then assign q (setFaceUp false)
       else λ b0, (inr tt, b0)
   | None => λ b0, (inr tt, b0)
   end) b = (inr tt, flipDown q b).
Proof.
  unfold flipDown. destruct (cellAt b q) as [s|]; [|done].
  by destruct (faceUp s && bool_decide (controller s = None)).
Qed.

Lemma settle_run p b :
  RI b → settleBeforeNewFirstMove p b = (inr tt, settled p b).
Proof.
  intros HRI. pose proof (RI_settled p b HRI) as HRI'.
  pose proof (RI_shaped b HRI) as Hs.
  unfold settled in *. unfold settleBeforeNewFirstMove. mrun.
  destruct (mjoin (pending b !! p)) as [out|] eqn:E; [|done].
  apply pending_join in E.
  destruct (ri_pending b HRI p out E) as [Hw1 Hw2].
  destruct (kind out) eqn:Hk.
  - rewrite setCell_run by done.
    rewrite setCell_run; [|by apply shaped_putCell|done].
    simpl. by rewrite checkRep_ok.
  - simpl. mrun. rewrite getCell_cellAt by (by apply within_row).
    rewrite flipDown_step.
    set (b1 := flipDown (first out) b) in *.
    assert (shaped b1) as Hs1 by (by apply shaped_flipDown).
    destruct (flipDown_frame (first out) b) as (Hr1 & Hc1 & _ & Hp1).
    fold b1 in Hp1.
    rewrite getCell_cellAt.
    2:{ apply within_row; [done|].
        by rewrite (withinb_frame b) by done. }
    rewrite flipDown_step.
    destruct (flipDown_frame (second out) b1) as (_ & _ & _ & Hp2).
    rewrite Hp2, Hp1. by rewrite checkRep_ok.
Qed.

Lemma settled_pending p b : mjoin (pending (settled p b) !! p) = None.
Proof.
  unfold settled. destruct (mjoin (pending b !! p)) as [out|] eqn:E; [|done].
  simpl. by rewrite lookup_insert_eq.
Qed.

Lemma settled_frame p b :
  rows (settled p b) = rows b ∧ cols (settled p b) = cols b
  ∧ firstSelection (settled p b) = firstSelection b.
Proof.
  unfold settled. destruct (mjoin (pending b !! p)) as [out|]; [|done].
  destruct (kind out); simpl; [done|].
  destruct (flipDown_frame (second out) (flipDown (first out) b))
    as (-> & -> & -> & _).
  by destruct (flipDown_frame (first out) b) as (-> & -> & -> & _).
Qed.

(** ** First flips preserve the invariants *)

Lemma takeCard_frame pos by_ s b :
  rows (takeCard pos by_ s b) = rows b ∧ cols (takeCard pos by_ s b) = cols b
  ∧ firstSelection (takeCard pos by_ s b) = firstSelection b
  ∧ pending (takeCard pos by_ s b) = pending b.
Proof.
  unfold takeCard. destruct (negb (faceUp s)); [done|].
  by destruct (bool_decide (controller s = None)).
Qed.

Lemma shaped_takeCard pos by_ s b :
  shaped b → shaped (takeCard pos by_ s b).
Proof.
  intros Hs. unfold takeCard. destruct (negb (faceUp s)).
  - by do 2 apply shaped_modCell.
  - destruct (bool_decide (controller s = None)); [|done].
    by apply shaped_modCell.
Qed.

Lemma cellAt_takeCard pos by_ s b q :
  shaped b → cellAt b pos = Some s →
  (faceUp s = true → controller s = None ∨ controller s = Some by_) →
  cellAt (takeCard pos by_ s b) q
  = if decide (q = pos) then Some (mkSlot (label s) true (Some by_))
    else cellAt b q.
Proof.
  intros Hs E Hfree. pose proof (cellAt_within b pos s Hs E) as Hw.
  unfold takeCard. destruct (faceUp s) eqn:Hu; simpl.
  - destruct (bool_decide (controller s = None)) eqn:Hc.
    + rewrite cellAt_modCell by done. case_decide; [|done].
      subst. rewrite E. simpl. unfold setController. by rewrite Hu.
    + case_decide; [|done]. subst. rewrite E. f_equal.
      apply bool_decide_eq_false_1 in Hc.
      destruct (Hfree eq_refl) as [?|Hby]; [done|].
      destruct s; simpl in *. by subst.
  - rewrite !cellAt_modCell by done. case_decide; [|done].
    subst. by rewrite E.
Qed.

Lemma RI_take pos by_ s b g :
  RI b → cellAt b pos = Some s →
  shaped g → rows g = rows b → cols g = cols b → pending g = pending b →
  (∀ q, cellAt g q
        = if decide (q = pos) then Some (mkSlot (label s) true (Some by_))
          else cellAt b q) →
  RI (setFirstSelection (<[by_ := pos]> (firstSelection b)) g).
Proof.
  intros HRI E Hs Hr Hc Hp Hcell.
  split.
  - done.
  - intros q t. rewrite cellAt_setFirstSelection, Hcell. case_decide.
    + intros [= <-]. simpl. apply (ri_label b HRI pos s E).
    + apply (ri_label b HRI).
  - intros q t. rewrite cellAt_setFirstSelection, Hcell. case_decide.
    + by intros [= <-].
    + apply (ri_down b HRI).
  - intros pl out. simpl. rewrite Hp.
    rewrite (withinb_frame b _ (first out)) by done.
    rewrite (withinb_frame b _ (second out)) by done.
    apply (ri_pending b HRI).
Qed.

Lemma Inv_take pos by_ s b g :
  Inv b → mjoin (pending b !! by_) = None → cellAt b pos = Some s →
  (faceUp s = true → controller s = None ∨ controller s = Some by_) →
  shaped g → rows g = rows b → cols g = cols b → pending g = pending b →
  (∀ q, cellAt g q
        = if decide (q = pos) then Some (mkSlot (label s) true (Some by_))
          else cellAt b q) →
  Inv (setFirstSelection (<[by_ := pos]> (firstSelection b)) g).
Proof.
  intros HI Hnone E Hfree Hs Hr Hc Hp Hcell.
  split.
  - eapply RI_take; eauto. apply (inv_ri b HI).
  - intros pl q. simpl. rewrite lookup_insert. case_decide as Hpl.
    + intros [= <-]. subst. eexists.
      rewrite cellAt_setFirstSelection, Hcell.
      rewrite decide_True by done. done.
    + intros Hx.
      destruct (inv_first b HI pl q Hx) as (t & Et & Hup & Hctl).
      exists t. rewrite cellAt_setFirstSelection, Hcell.
      rewrite decide_False; [done|].
      intros ->. assert (t = s) as -> by congruence.
      destruct (Hfree Hup); congruence.
  - intros pl out q. simpl. rewrite Hp. intros Hx Hk Hq.
    destruct (inv_matched b HI pl out q Hx Hk Hq) as (t & Et & Hup & Hctl).
    exists t. rewrite cellAt_setFirstSelection, Hcell.
    rewrite decide_False; [done|].
    intros ->. assert (t = s) as -> by congruence.
    destruct (Hfree Hup) as [?|Hby]; [congruence|].
    assert (pl = by_) as -> by congruence.
    by rewrite Hx in Hnone.
  - intros pl out. simpl. rewrite Hp. intros Hx.
    rewrite lookup_insert_ne.
    + by apply (inv_turn b HI pl out).
    + intros <-. by rewrite Hx in Hnone.
Qed.

(** The four ways a first flip ends. *)
Lemma flipFirst_outside pos by_ b :
  RI b → withinb b pos = false →
  flipFirst pos by_ b = (inl (OutOfBounds (r pos) (c pos)), settled by_ b).
Proof.
  intros HRI Hw. unfold flipFirst. rewrite bind_run, settle_run by done.
  rewrite bind_run, slotAt_outside; [done|].
  destruct (settled_frame by_ b) as (Hr & Hc & _).
  by rewrite (withinb_frame b) by done.
Qed.

Lemma slotAt_settled pos by_ b :
  RI b → withinb b pos = true →
  slotAt pos (settled by_ b)
  = (inr (cellAt (settled by_ b) pos), settled by_ b).
Proof.
  intros HRI Hw. apply slotAt_within.
  - apply RI_shaped. by apply RI_settled.
  - destruct (settled_frame by_ b) as (Hr & Hc & _).
    by rewrite (withinb_frame b) by done.
Qed.

Lemma flipFirst_empty pos by_ b :
  RI b → withinb b pos = true → cellAt (settled by_ b) pos = None →
  flipFirst pos by_ b = (inl EmptySpace1A, settled by_ b).
Proof.
  intros HRI Hw E. unfold flipFirst. rewrite bind_run, settle_run by done.
  rewrite bind_run, slotAt_settled by done. by rewrite E.
Qed.

Lemma settled_cell_within pos by_ b s :
  RI b → cellAt (settled by_ b) pos = Some s → withinb b pos = true.
Proof.
  intros HRI E.
  pose proof (cellAt_within _ _ _ (RI_shaped _ (RI_settled by_ b HRI)) E)
    as Hw.
  destruct (settled_frame by_ b) as (Hr & Hc & _).
  by rewrite (withinb_frame b) in Hw by done.
Qed.

Lemma flipFirst_controlled pos by_ b s other :
  RI b → cellAt (settled by_ b) pos = Some s →
  faceUp s = true → controller s = Some other → other ≠ by_ →
  flipFirst pos by_ b = (inl Controlled1D, settled by_ b).
Proof.
  intros HRI E Hup Hctl Hne.
  pose proof (settled_cell_within pos by_ b s HRI E) as Hw.
  unfold flipFirst. rewrite bind_run, settle_run by done.
  rewrite bind_run, slotAt_settled by done. rewrite E.
  rewrite bind_run, Hup, Hctl. simpl.
  rewrite bool_decide_eq_true_2 by congruence. done.
Qed.

Lemma takeCard_step pos by_ s b :
  (faceUp s = true → controller s = None ∨ controller s = Some by_) →
  (if negb (faceUp s)
   then assign pos (setFaceUp true);;
        assign pos (setController (Some by_))
   else if bool_decide (controller s = None)
        then assign pos (setController (Some by_))
        else if bool_decide (controller s ≠ Some by_)
             then throw Controlled1D else ret tt) b
  = (inr tt, takeCard pos by_ s b).
Proof.
  intros Hfree.
  unfold takeCard. destruct (faceUp s) eqn:Hu; simpl; [|done].
  destruct (bool_decide (controller s = None)) eqn:Hn; [done|].
  apply bool_decide_eq_false_1 in Hn.
  destruct (Hfree eq_refl) as [?|Hby]; [done|].
  by rewrite bool_decide_eq_false_2 by (by intros []).
Qed.

Lemma flipFirst_taken pos by_ b s :
  RI b → cellAt (settled by_ b) pos = Some s →
  (faceUp s = true → controller s = None ∨ controller s = Some by_) →
  flipFirst pos by_ b = (inr tt, firstFlipped pos by_ s b).
Proof.
  intros HRI E Hfree.
  pose proof (RI_settled by_ b HRI) as HRI1.
  pose proof (RI_shaped _ HRI1) as Hs1.
  pose proof (settled_cell_within pos by_ b s HRI E) as Hw.
  destruct (takeCard_frame pos by_ s (settled by_ b))
    as (Hr' & Hc' & Hf' & Hp').
  assert (RI (firstFlipped pos by_ s b)) as HRI2.
  { eapply RI_take; eauto using shaped_takeCard.
    intros q. by apply cellAt_takeCard. }
  unfold flipFirst. rewrite bind_run, settle_run by done.
  rewrite bind_run, slotAt_settled by done. rewrite E.
  rewrite bind_run, takeCard_step by done. rewrite bind_run. mrun.
  rewrite Hf'. by rewrite checkRep_ok.
Qed.

Lemma firstFlipped_Inv pos by_ b s :
  Inv b → cellAt (settled by_ b) pos = Some s →
  (faceUp s = true → controller s = None ∨ controller s = Some by_) →
  Inv (firstFlipped pos by_ s b).
Proof.
  intros HI E Hfree.
  pose proof (settled_Inv by_ b HI) as HI1.
  destruct (takeCard_frame pos by_ s (settled by_ b))
    as (Hr' & Hc' & Hf' & Hp').
  eapply Inv_take;
    eauto using settled_pending, shaped_takeCard, Inv_shaped.
  intros q. apply cellAt_takeCard; eauto using Inv_shaped.
Qed.

Lemma flipFirst_Inv pos by_ b : Inv b → Inv (after (flipFirst pos by_) b).
Proof.
  intros HI. pose proof (settled_Inv by_ b HI) as HI1.
  pose proof (inv_ri b HI) as HRI. unfold after.
  destruct (withinb b pos) eqn:Hw.
  2:{ by rewrite flipFirst_outside. }
  destruct (cellAt (settled by_ b) pos) as [s|] eqn:E.
  2:{ by rewrite flipFirst_empty. }
  destruct (faceUp s) eqn:Hu.
  - destruct (controller s) as [other|] eqn:Hctl.
    + destruct (decide (other = by_)) as [->|Hne].
      * rewrite (flipFirst_taken pos by_ b s HRI E).
        -- apply firstFlipped_Inv; [done..|]. rewrite Hctl. by right.
        -- rewrite Hctl. by right.
      * by erewrite flipFirst_controlled.
    + rewrite (flipFirst_taken pos by_ b s HRI E).
      * apply firstFlipped_Inv; [done..|]. rewrite Hctl. by left.
      * rewrite Hctl. by left.
  - rewrite (flipFirst_taken pos by_ b s HRI E) by (by rewrite Hu).
    apply firstFlipped_Inv; [done..|]. by rewrite Hu.
Qed.

(** ** Second flips preserve the invariant *)

Lemma cellAt_outside b p : shaped b → withinb b p = false → cellAt b p = None.
Proof.
  intros Hs Hw. destruct (cellAt b p) as [s|] eqn:E; [|done].
  apply cellAt_within in E; [congruence|done].
Qed.

Lemma Inv_release fst by_ b :
  Inv b → firstSelection b !! by_ = Some fst → Inv (released fst by_ b).
Proof.
  intros HI Hf. pose proof (inv_ri b HI) as HRI.
  pose proof (Inv_shaped b HI) as Hs.
  destruct (inv_first b HI by_ fst Hf) as (t1 & E1 & Hup1 & Hctl1).
  pose proof (cellAt_within b fst t1 Hs E1) as Hw.
  assert (∀ q, cellAt (released fst by_ b) q
     = if decide (q = fst) then setController None <$> cellAt b q
       else cellAt b q) as Hcell.
  { intros q. unfold released.
    by rewrite cellAt_setFirstSelection, cellAt_modCell. }
  split; [split|..].
  - by apply shaped_modCell.
  - intros q t. rewrite Hcell. case_decide.
    + subst. rewrite E1. intros [= <-]. apply (ri_label b HRI fst t1 E1).
    + apply (ri_label b HRI).
  - intros q t. rewrite Hcell. case_decide.
    + subst. rewrite E1. intros [= <-]. simpl. congruence.
    + apply (ri_down b HRI).
  - apply (ri_pending b HRI).
  - intros pl q. simpl. rewrite lookup_delete. case_decide; [done|].
    intros Hx. destruct (inv_first b HI pl q Hx) as (t & Et & Hup & Hctl).
    exists t. rewrite Hcell. rewrite decide_False; [done|].
    intros ->. congruence.
  - intros pl out q. simpl. intros Hx Hk Hq.
    destruct (inv_matched b HI pl out q Hx Hk Hq) as (t & Et & Hup & Hctl).
    exists t. rewrite Hcell. rewrite decide_False; [done|].
    intros ->. assert (pl = by_) as -> by congruence.
    pose proof (inv_turn b HI by_ out Hx). congruence.
  - intros pl out. simpl. intros Hx. rewrite lookup_delete.
    case_decide; [done|]. by apply (inv_turn b HI pl out).
Qed.

Lemma relinquish_run fst by_ b :
  Inv b → firstSelection b !! by_ = Some fst →
  relinquishFirstOnly by_ b = (inr tt, released fst by_ b).
Proof.
  intros HI Hf. pose proof (Inv_release fst by_ b HI Hf) as HI'.
  pose proof (Inv_shaped b HI) as Hs.
  destruct (inv_first b HI by_ fst Hf) as (t1 & E1 & Hup1 & Hctl1).
  pose proof (cellAt_within b fst t1 Hs E1) as Hw.
  unfold relinquishFirstOnly. rewrite bind_run. unfold gets. rewrite Hf.
  rewrite bind_run, slotAt_within by done. rewrite E1.
  rewrite bind_run, assign_run. rewrite bind_run. mrun.
  rewrite checkRep_ok; [done|]. apply (inv_ri _ HI').
Qed.

Lemma cellAt_resolved pos fst by_ t1 t2 b q :
  shaped b → cellAt b fst = Some t1 → cellAt b pos = Some t2 →
  faceUp t1 = true → fst ≠ pos →
  cellAt (resolved pos fst by_ t1 t2 b) q
  = let ctl := if bool_decide (label t1 = label t2) then Some by_ else None in
    if decide (q = pos) then Some (mkSlot (label t2) true ctl)
    else if decide (q = fst) then Some (mkSlot (label t1) true ctl)
         else cellAt b q.
Proof.
  intros Hs E1 E2 Hup1 Hne.
  pose proof (cellAt_within b fst t1 Hs E1) as Hw1.
  pose proof (cellAt_within b pos t2 Hs E2) as Hw2.
  unfold resolved.
  rewrite cellAt_setFirstSelection, cellAt_setPending.
  set (ctl := if bool_decide (label t1 = label t2) then Some by_ else None).
  simpl.
  assert (∀ x, cellAt (if negb (faceUp t2)
                       then modCell pos (setFaceUp true) b else b) x
     = if decide (x = pos) then Some (mkSlot (label t2) true (controller t2))
       else cellAt b x) as H1.
  { intros x. destruct (faceUp t2) eqn:Hu; simpl.
    - case_decide; [|done]. subst. rewrite E2. by destruct t2; simpl in *; subst.
    - rewrite cellAt_modCell by done. case_decide; [|done].
      subst. by rewrite E2. }
  assert (∀ p, withinb (if negb (faceUp t2)
                        then modCell pos (setFaceUp true) b else b) p
               = withinb b p) as HW.
  { intros p. by destruct (negb (faceUp t2)). }
  rewrite !cellAt_modCell by (by rewrite ?withinb_modCell, ?HW).
  rewrite H1.
  destruct (decide (q = pos)) as [->|Hq].
  - by rewrite decide_False by done.
  - case_decide; [|done]. subst. rewrite E1. simpl.
    unfold setController. by rewrite Hup1.
Qed.

Lemma shaped_resolved pos fst by_ t1 t2 b :
  shaped b → shaped (resolved pos fst by_ t1 t2 b).
Proof.
  intros Hs. unfold resolved. do 2 apply shaped_modCell.
  destruct (negb (faceUp t2)); [by apply shaped_modCell|done].
Qed.

Lemma resolved_frame pos fst by_ t1 t2 b :
  rows (resolved pos fst by_ t1 t2 b) = rows b
  ∧ cols (resolved pos fst by_ t1 t2 b) = cols b.
Proof. unfold resolved. by destruct (negb (faceUp t2)). Qed.

Lemma Inv_resolve pos fst by_ t1 t2 b :
  Inv b → firstSelection b !! by_ = Some fst →
  cellAt b fst = Some t1 → cellAt b pos = Some t2 →
  faceUp t2 && bool_decide (controller t2 ≠ None) = false →
  Inv (resolved pos fst by_ t1 t2 b).
Proof.
  intros HI Hf E1 E2 Hfree. pose proof (inv_ri b HI) as HRI.
  pose proof (Inv_shaped b HI) as Hs.
  destruct (inv_first b HI by_ fst Hf) as (t1' & E1' & Hup1 & Hctl1).
  assert (t1' = t1) as -> by congruence. clear E1'.
  pose proof (cellAt_within b fst t1 Hs E1) as Hw1.
  pose proof (cellAt_within b pos t2 Hs E2) as Hw2.
  assert (fst ≠ pos) as Hne.
  { intros ->. assert (t2 = t1) as -> by congruence.
    rewrite Hup1, Hctl1 in Hfree. done. }
  assert (∀ q t, cellAt b q = Some t → faceUp t = true →
            controller t ≠ None → q ≠ pos) as Hnotpos.
  { intros q t Et Hu Hc ->. assert (t = t2) as -> by congruence.
    rewrite Hu in Hfree. simpl in Hfree.
    by apply bool_decide_eq_false_1 in Hfree. }
  pose proof (λ q, cellAt_resolved pos fst by_ t1 t2 b q Hs E1 E2 Hup1 Hne)
    as Hcell. simpl in Hcell.
  destruct (resolved_frame pos fst by_ t1 t2 b) as [Hr Hc].
  split; [split|..].
  - by apply shaped_resolved.
  - intros q t. rewrite Hcell.
    destruct (decide (q = pos)); [|destruct (decide (q = fst))].
    + intros [= <-]. apply (ri_label b HRI pos t2 E2).
    + intros [= <-]. apply (ri_label b HRI fst t1 E1).
    + apply (ri_label b HRI).
  - intros q t. rewrite Hcell.
    destruct (decide (q = pos)); [|destruct (decide (q = fst))].
    + by intros [= <-].
    + by intros [= <-].
    + apply (ri_down b HRI).
  - intros pl out.
    rewrite (withinb_frame b _ (first out)) by done.
    rewrite (withinb_frame b _ (second out)) by done.
    unfold resolved. simpl. rewrite lookup_insert.
    destruct (decide (by_ = pl)).
    + by intros [= <-].
    + apply (ri_pending b HRI).
  - intros pl q. unfold resolved at 1. simpl. rewrite lookup_delete.
    destruct (decide (by_ = pl)) as [Hpl|Hpl]; [done|]. intros Hx.
    destruct (inv_first b HI pl q Hx) as (t & Et & Hup & Hctl).
    exists t. rewrite Hcell.
    rewrite decide_False by (eapply Hnotpos; [done..|congruence]).
    rewrite decide_False; [done|]. intros ->. congruence.
  - intros pl out q. unfold resolved at 1. simpl. rewrite lookup_insert.
    destruct (decide (by_ = pl)) as [Hpl|Hpl].
    + intros [= <-]. simpl. subst pl.
      destruct (bool_decide (label t1 = label t2)) eqn:Hsame; [|done].
      intros _ [->| ->]; rewrite Hcell.
      * rewrite decide_False by done. rewrite decide_True by done. eauto.
      * rewrite decide_True by done. eauto.
    + intros Hx Hk Hq.
      destruct (inv_matched b HI pl out q Hx Hk Hq) as (t & Et & Hup & Hctl).
      exists t. rewrite Hcell.
      rewrite decide_False by (eapply Hnotpos; [done..|congruence]).
      rewrite decide_False; [done|]. intros ->. congruence.
  - intros pl out. unfold resolved. simpl.
    rewrite lookup_insert, lookup_delete.
    destruct (decide (by_ = pl)); [done|]. apply (inv_turn b HI).
Qed.

(** The four ways a second flip ends. *)
Lemma flipSecond_nofirst pos by_ b :
  firstSelection b !! by_ = None →
  flipSecond pos by_ b = (inl NoFirstCard, b).
Proof.
  intros Hf. unfold flipSecond. rewrite bind_run. unfold gets.
  by rewrite Hf.
Qed.

Lemma target_bind {B} pos b (k : option Slot → M B) :
  shaped b →
  ((if withinb b pos then getCell (r pos) (c pos) else ret None) ≫= k) b
  = k (cellAt b pos) b.
Proof.
  intros Hs. rewrite bind_run. destruct (withinb b pos) eqn:Hw.
  - rewrite getCell_cellAt; [done|]. by apply within_row.
  - by rewrite cellAt_outside.
Qed.

Ltac flipSecond_start Hs Hf :=
  unfold flipSecond; rewrite bind_run; unfold gets; rewrite Hf;
  cbv beta iota; rewrite bind_run; unfold within, gets; cbv beta iota;
  rewrite (target_bind _ _ _ Hs).

Lemma flipSecond_empty pos fst by_ b :
  Inv b → firstSelection b !! by_ = Some fst → cellAt b pos = None →
  flipSecond pos by_ b = (inl EmptySpace2A, released fst by_ b).
Proof.
  intros HI Hf E. pose proof (Inv_shaped b HI) as Hs.
  flipSecond_start Hs Hf. rewrite E.
  rewrite bind_run, (relinquish_run fst) by done. done.
Qed.

Lemma flipSecond_controlled pos fst by_ b t2 :
  Inv b → firstSelection b !! by_ = Some fst → cellAt b pos = Some t2 →
  faceUp t2 && bool_decide (controller t2 ≠ None) = true →
  flipSecond pos by_ b = (inl Controlled2B, released fst by_ b).
Proof.
  intros HI Hf E Hc. pose proof (Inv_shaped b HI) as Hs.
  flipSecond_start Hs Hf. rewrite E, Hc.
  rewrite bind_run, (relinquish_run fst) by done. done.
Qed.

Lemma flipSecond_resolved pos fst by_ b t1 t2 :
  Inv b → firstSelection b !! by_ = Some fst →
  cellAt b fst = Some t1 → cellAt b pos = Some t2 →
  faceUp t2 && bool_decide (controller t2 ≠ None) = false →
  flipSecond pos by_ b = (inr tt, resolved pos fst by_ t1 t2 b).
Proof.
  intros HI Hf E1 E2 Hc.
  pose proof (Inv_resolve pos fst by_ t1 t2 b HI Hf E1 E2 Hc) as HI'.
  pose proof (Inv_shaped b HI) as Hs.
  destruct (inv_first b HI by_ fst Hf) as (t1' & E1' & Hup1 & Hctl1).
  assert (t1' = t1) as -> by congruence. clear E1'.
  pose proof (cellAt_within b fst t1 Hs E1) as Hw1.
  pose proof (cellAt_within b pos t2 Hs E2) as Hw2.
  assert (fst ≠ pos) as Hne.
  { intros ->. assert (t2 = t1) as -> by congruence.
    rewrite Hup1, Hctl1 in Hc. done. }
  flipSecond_start Hs Hf. rewrite E2, Hc.
  unfold resolved in *.
  set (b1 := if negb (faceUp t2)
             then modCell pos (setFaceUp true) b else b) in *.
  assert ((if negb (faceUp t2) then assign pos (setFaceUp true) else ret tt) b
          = (inr tt, b1)) as Hstep.
  { unfold b1. by destruct (negb (faceUp t2)). }
  rewrite bind_run, Hstep.
  assert (shaped b1) as Hs1.
  { unfold b1. destruct (negb (faceUp t2)); [by apply shaped_modCell|done]. }
  assert (withinb b1 fst = true) as Hw1'.
  { unfold b1. by destruct (negb (faceUp t2)). }
  assert (cellAt b1 fst = Some t1) as E1'.
  { unfold b1. destruct (negb (faceUp t2)); [|done].
    rewrite cellAt_modCell by done. by rewrite decide_False. }
  assert (firstSelection b1 = firstSelection b ∧ pending b1 = pending b)
    as [Hf1 Hp1].
  { unfold b1. by destruct (negb (faceUp t2)). }
  rewrite bind_run, slotAt_within by done. rewrite E1'.
  destruct (bool_decide (label t1 = label t2)) eqn:Hsame.
  - mrun. unfold assign. mrun. simpl. rewrite Hf1, Hp1.
    rewrite checkRep_ok; [done|]. apply (inv_ri _ HI').
  - mrun. unfold assign. mrun. simpl. rewrite Hf1, Hp1.
    rewrite checkRep_ok; [done|]. apply (inv_ri _ HI').
Qed.

Lemma flipSecond_Inv pos by_ b : Inv b → Inv (after (flipSecond pos by_) b).
Proof.
  intros HI. unfold after.
  destruct (firstSelection b !! by_) as [fst|] eqn:Hf.
  2:{ by rewrite flipSecond_nofirst. }
  destruct (inv_first b HI by_ fst Hf) as (t1 & E1 & _).
  destruct (cellAt b pos) as [t2|] eqn:E2.
  2:{ rewrite (flipSecond_empty pos fst) by done. by apply Inv_release. }
  destruct (faceUp t2 && bool_decide (controller t2 ≠ None)) eqn:Hc.
  - rewrite (flipSecond_controlled pos fst by_ b t2) by done.
    by apply Inv_release.
  - rewrite (flipSecond_resolved pos fst by_ b t1 t2) by done.
    by apply Inv_resolve.
Qed.

(** ** Construction establishes the invariant *)

Lemma construct_inr nr nc labels b :
  construct nr nc labels = inr b →
  rows b = nr ∧ cols b = nc ∧ firstSelection b = ∅ ∧ pending b = ∅
  ∧ RI b
  ∧ traverse (λ i,
      traverse (λ j,
        match nthZ labels (i * nc + j) with
        | None => inl MissingLabel
        | Some l => inr (Some (newSlot l))
        end) (seqZ 0 nc)) (seqZ 0 nr) = inr (grid b).
Proof.
  unfold construct.
  destruct (traverse _ (seqZ 0 nr)) as [e|g] eqn:Eg; [done|].
  pose proof (checkRep_state (mkBoard nr nc g ∅ ∅)) as Hst.
  pose proof (checkRep_sound (mkBoard nr nc g ∅ ∅)) as Hri.
  destruct (checkRep (mkBoard nr nc g ∅ ∅)) as [[e|[]] b'']; [done|].
  simpl in *. intros [= <-]. subst b''. simpl.
  split_and!; try done. by apply Hri.
Qed.

Lemma construct_Inv nr nc labels b :
  construct nr nc labels = inr b → Inv b.
Proof.
  intros (_ & _ & Hf & Hp & HRI & _)%construct_inr.
  split; [done|..].
  - intros pl q. by rewrite Hf, lookup_empty.
  - intros pl out q. by rewrite Hp, lookup_empty.
  - intros pl out. by rewrite Hp, lookup_empty.
Qed.

(** ** Snapshots do not write *)

Lemma collect_state {A B} (xs : list A) (body : A → M B) b :
  (∀ x b', (body x b').2 = b') → (collect xs body b).2 = b.
Proof.
  intros H. induction xs as [|x xs IH]; simpl; [done|].
  unfold bind. specialize (H x b).
  destruct (body x b) as [[e|y] b']; simpl in *; subst; [done|].
  destruct (collect xs body b) as [[e|ys] b']; simpl in *; by subst.
Qed.

Lemma collect_ok {A B} (xs : list A) (body : A → M B) (f : A → B) b :
  (∀ x, x ∈ xs → body x b = (inr (f x), b)) →
  collect xs body b = (inr (f <$> xs), b).
Proof.
  induction xs as [|x xs IH]; intros H; simpl; [done|].
  unfold bind. rewrite H by left. rewrite IH; [done|].
  intros y Hy. apply H. by right.
Qed.

Lemma snapshot_run p b :
  snapshot p b
  = match snapshotLines p b b with
    | (inr body, b') =>
        (inr (join nl ((showZ (rows b) ++ js "x" ++ showZ (cols b))
                       :: concat body) ++ nl), b')
    | (inl e, b') => (inl e, b')
    end.
Proof.
  unfold snapshot, snapshotLines.
  cbv beta iota delta [mbind M_bind bind gets].
  by destruct (collect _ _ b) as [[e|body] b'].
Qed.

Lemma snapshotLines_state p b0 b : (snapshotLines p b0 b).2 = b.
Proof.
  unfold snapshotLines. apply collect_state. intros i b1.
  apply collect_state. intros j b2.
  rewrite bind_run, getCell_run. by destruct (nthZ (grid b2) i).
Qed.

Lemma snapshot_state p b : after (snapshot p) b = b.
Proof.
  unfold after. rewrite snapshot_run.
  pose proof (snapshotLines_state p b b) as H.
  by destruct (snapshotLines p b b) as [[e|body] b'].
Qed.

(** ** Every reachable board satisfies the invariant *)

Lemma settle_Inv p b :
  Inv b → Inv (after (settleBeforeNewFirstMove p) b).
Proof.
  intros HI. unfold after. rewrite settle_run by apply (inv_ri b HI).
  by apply settled_Inv.
Qed.

Lemma reachable_Inv b : reachable b → Inv b.
Proof.
  induction 1 as [nr nc labels b Hc|p b _ IH|pos p b _ IH|pos p b _ IH
                 |p b _ IH].
  - by eapply construct_Inv.
  - by apply settle_Inv.
  - by apply flipFirst_Inv.
  - by apply flipSecond_Inv.
  - by rewrite snapshot_state.
Qed.

(** * The properties of the design document *)

Lemma demo0_reachable : reachable demo0.
Proof. apply (reach_construct 3 3 demoLabels). vm_compute. reflexivity. Qed.

Lemma demo1_reachable : reachable demo1.
Proof. apply reach_flipFirst, demo0_reachable. Qed.

Lemma demo2_reachable : reachable demo2.
Proof. apply reach_flipSecond, demo1_reachable. Qed.

Lemma demoMis_reachable : reachable demoMis.
Proof. apply reach_flipSecond, demo1_reachable. Qed.

Lemma demo3_reachable : reachable demo3.
Proof. apply reach_flipSecond, reach_flipFirst, demo2_reachable. Qed.

(** ** Settlement *)

Lemma cellAt_settled p b q :
  RI b →
  cellAt (settled p b) q
  = match mjoin (pending b !! p) with
    | None => cellAt b q
    | Some out =>
        match kind out with
        | matched =>
            if decide (q = first out ∨ q = second out) then None
            else cellAt b q
        | mismatched =>
            match cellAt b q with
            | Some s =>
                if decide (q = first out ∨ q = second out)
                then (if faceUp s && bool_decide (controller s = None)
                      then Some (setFaceUp false s) else Some s)
                else Some s
            | None => None
            end
        end
    end.
Proof.
  intros HRI. pose proof (RI_shaped b HRI) as Hs. unfold settled.
  destruct (mjoin (pending b !! p)) as [out|] eqn:E; [|done].
  apply pending_join in E.
  destruct (ri_pending b HRI p out E) as [Hw1 Hw2].
  rewrite cellAt_setPending. destruct (kind out).
  - rewrite cellAt_putCell; [|by apply shaped_putCell|done].
    rewrite cellAt_putCell by done.
    destruct (decide (q = second out)), (decide (q = first out));
      by (rewrite decide_True by tauto) || (rewrite decide_False by tauto).
  - rewrite cellAt_flipDown by (by apply shaped_flipDown).
    rewrite cellAt_flipDown by done.
    destruct (cellAt b q) as [s|]; [|done]. simpl.
    destruct (decide (q = first out)), (decide (q = second out));
      (rewrite decide_True by tauto) || (rewrite decide_False by tauto);
      try done.
    + destruct (faceUp s && bool_decide (controller s = None)) eqn:Ei;
        [done|]. by rewrite Ei.
    + by destruct (faceUp s && bool_decide (controller s = None)).
    + by destruct (faceUp s && bool_decide (controller s = None)).
Qed.

Lemma pending_settled p b :
  pending (settled p b)
  = match mjoin (pending b !! p) with
    | None => pending b
    | Some _ => <[p := None]> (pending b)
    end.
Proof.
  unfold settled. by destruct (mjoin (pending b !! p)).
Qed.

(** C1.  On a board that satisfies the representation invariant,
    [settleBeforeNewFirstMove p] returns normally, keeps the dimensions
    and every first selection, and:
    - with no outcome recorded for [p] it leaves the board as it is;
    - with a matched outcome it empties both positions whatever their
      cards' state was, and leaves every other cell as it was;
    - with a mismatched outcome it turns face down exactly those of the
      two cards that are at that moment present, face up and controlled by
      nobody, and leaves every other cell as it was;
    - in both cases the outcome recorded for [p] is cleared. *)
Theorem settleBeforeNewFirstMove_spec (p : Player) (b : Board) :
  RI b →
  ∃ b', settleBeforeNewFirstMove p b = (inr tt, b')
    ∧ rows b' = rows b ∧ cols b' = cols b
    ∧ firstSelection b' = firstSelection b
    ∧ match mjoin (pending b !! p) with
      | None => b' = b
      | Some out =>
          pending b' = <[p := None]> (pending b)
          ∧ mjoin (pending b' !! p) = None
          ∧ ∀ q, cellAt b' q =
              match kind out with
              | matched =>
                  if decide (q = first out ∨ q = second out) then None
                  else cellAt b q
              | mismatched =>
                  match cellAt b q with
                  | Some s =>
                      if decide (q = first out ∨ q = second out)
                      then (if faceUp s && bool_decide (controller s = None)
                            then Some (mkSlot (label s) false None)
                            else Some s)
                      else Some s
                  | None => None
                  end
              end
      end.
Proof.
  intros HRI. exists (settled p b).
  destruct (settled_frame p b) as (Hr & Hc & Hf).
  split_and!; try done; [by apply settle_run|].
  pose proof (pending_settled p b) as Hp.
  pose proof (λ q, cellAt_settled p b q HRI) as Hcell.
  pose proof (settled_pending p b) as Hnone.
  destruct (mjoin (pending b !! p)) as [out|] eqn:E.
  - split_and!; try done. intros q. rewrite Hcell.
    destruct (kind out); [done|].
    destruct (cellAt b q) as [s|]; [|done].
    case_decide; [|done].
    destruct (faceUp s && bool_decide (controller s = None)) eqn:Ei; [|done].
    apply andb_prop in Ei as [_ Ei]. apply bool_decide_eq_true_1 in Ei.
    unfold setFaceUp. by rewrite Ei.
  - unfold settled. by rewrite E.
Qed.

Lemma settleBeforeNewFirstMove_spec_witness :
  RI demo2
  ∧ ∃ b', settleBeforeNewFirstMove alice demo2 = (inr tt, b')
    ∧ rows b' = rows demo2 ∧ cols b' = cols demo2
    ∧ firstSelection b' = firstSelection demo2
    ∧ match mjoin (pending demo2 !! alice) with
      | None => b' = demo2
      | Some out =>
          pending b' = <[alice := None]> (pending demo2)
          ∧ mjoin (pending b' !! alice) = None
          ∧ ∀ q, cellAt b' q =
              match kind out with
              | matched =>
                  if decide (q = first out ∨ q = second out) then None
                  else cellAt demo2 q
              | mismatched =>
                  match cellAt demo2 q with
                  | Some s =>
                      if decide (q = first out ∨ q = second out)
                      then (if faceUp s && bool_decide (controller s = None)
                            then Some (mkSlot (label s) false None)
                            else Some s)
                      else Some s
                  | None => None
                  end
              end
      end.
Proof.
  assert (RI demo2) as H by (apply checkRep_sound; vm_compute; reflexivity).
  split; [exact H|]. exact (settleBeforeNewFirstMove_spec alice demo2 H).
Defined.

(** ** First flips *)

Lemma after_settle p b :
  RI b → after (settleBeforeNewFirstMove p) b = settled p b.
Proof. intros HRI. unfold after. by rewrite settle_run. Qed.

Lemma cellAt_firstFlipped pos p s b q :
  RI b → cellAt (settled p b) pos = Some s →
  (faceUp s = true → controller s = None ∨ controller s = Some p) →
  cellAt (firstFlipped pos p s b) q
  = if decide (q = pos) then Some (mkSlot (label s) true (Some p))
    else cellAt (settled p b) q.
Proof.
  intros HRI E Hfree. unfold firstFlipped.
  rewrite cellAt_setFirstSelection.
  apply cellAt_takeCard; [|done..].
  by apply RI_shaped, RI_settled.
Qed.

(** C10.  If the outcome recorded for [p] is a matched pair, a first flip
    by [p] on either card of that pair throws the 1-A error: the
    settlement that opens the call has emptied both positions before the
    slot is looked up. *)
Theorem flipFirst_own_matched_pair
    (p : Player) (b : Board) (out : Outcome) (q : Pos) :
  RI b → pending b !! p = Some (Some out) → kind out = matched →
  q = first out ∨ q = second out →
  ∃ b', flipFirst q p b = (inl EmptySpace1A, b')
    ∧ cellAt b' (first out) = None ∧ cellAt b' (second out) = None
    ∧ firstSelection b' = firstSelection b.
Proof.
  intros HRI Hp Hk Hq. exists (settled p b).
  pose proof (λ x, cellAt_settled p b x HRI) as Hcell.
  rewrite Hp in Hcell. simpl in Hcell. rewrite Hk in Hcell.
  destruct (ri_pending b HRI p out Hp) as [Hw1 Hw2].
  destruct (settled_frame p b) as (_ & _ & Hf).
  split_and!; [|by rewrite Hcell, decide_True by tauto..|done].
  apply flipFirst_empty; [done| |].
  - by destruct Hq as [-> | ->].
  - by rewrite Hcell, decide_True.
Qed.

Lemma flipFirst_own_matched_pair_witness :
  RI demo2
  ∧ pending demo2 !! alice
    = Some (Some (mkOutcome matched (mkPos 0 0) (mkPos 0 1)))
  ∧ kind (mkOutcome matched (mkPos 0 0) (mkPos 0 1)) = matched
  ∧ (mkPos 0 1 = first (mkOutcome matched (mkPos 0 0) (mkPos 0 1))
     ∨ mkPos 0 1 = second (mkOutcome matched (mkPos 0 0) (mkPos 0 1)))
  ∧ ∃ b', flipFirst (mkPos 0 1) alice demo2 = (inl EmptySpace1A, b')
    ∧ cellAt b' (mkPos 0 0) = None ∧ cellAt b' (mkPos 0 1) = None
    ∧ firstSelection b' = firstSelection demo2.
Proof.
  assert (RI demo2) as H by (apply checkRep_sound; vm_compute; reflexivity).
  assert (pending demo2 !! alice
          = Some (Some (mkOutcome matched (mkPos 0 0) (mkPos 0 1)))) as Hp
    by (vm_compute; reflexivity).
  split; [exact H|]. split; [exact Hp|]. split; [reflexivity|].
  split; [right; reflexivity|].
  exact (flipFirst_own_matched_pair alice demo2
           (mkOutcome matched (mkPos 0 0) (mkPos 0 1)) (mkPos 0 1)
           H Hp eq_refl (or_intror eq_refl)).
Defined.

(** C7, as the code has it.  A first flip on a position that is outside
    the grid, or whose cell is empty once the caller's previous turn has
    been settled, throws (the out-of-bounds error of [slotAt] in the first
    case, the 1-A error in the second) and records no first selection.
    The board it leaves is the one settlement leaves, which is the board
    it started from when no outcome was recorded for the caller. *)
Theorem flipFirst_empty_space (pos : Pos) (p : Player) (b : Board) :
  RI b →
  withinb b pos = false
  ∨ cellAt (after (settleBeforeNewFirstMove p) b) pos = None →
  flipFirst pos p b
  = (inl (if withinb b pos then EmptySpace1A
          else OutOfBounds (r pos) (c pos)),
     after (settleBeforeNewFirstMove p) b)
  ∧ firstSelection (after (flipFirst pos p) b) = firstSelection b
  ∧ (mjoin (pending b !! p) = None → after (flipFirst pos p) b = b).
Proof.
  intros HRI H. rewrite after_settle in * by done.
  destruct (settled_frame p b) as (_ & _ & Hf).
  assert (flipFirst pos p b
          = (inl (if withinb b pos then EmptySpace1A
                  else OutOfBounds (r pos) (c pos)), settled p b)) as Hrun.
  { destruct (withinb b pos) eqn:Hw.
    - apply flipFirst_empty; [done..|]. by destruct H.
    - by apply flipFirst_outside. }
  unfold after. rewrite Hrun. simpl. split_and!; [done..|].
  intros Hn. unfold settled. by rewrite Hn.
Qed.

Lemma flipFirst_empty_space_witness :
  RI demo3
  ∧ (withinb demo3 (mkPos 0 0) = false
     ∨ cellAt (after (settleBeforeNewFirstMove bob) demo3) (mkPos 0 0) = None)
  ∧ flipFirst (mkPos 0 0) bob demo3
    = (inl (if withinb demo3 (mkPos 0 0) then EmptySpace1A
            else OutOfBounds 0 0),
       after (settleBeforeNewFirstMove bob) demo3)
  ∧ firstSelection (after (flipFirst (mkPos 0 0) bob) demo3)
    = firstSelection demo3
  ∧ (mjoin (pending demo3 !! bob) = None
     → after (flipFirst (mkPos 0 0) bob) demo3 = demo3).
Proof.
  assert (RI demo3) as H by (apply checkRep_sound; vm_compute; reflexivity).
  assert (withinb demo3 (mkPos 0 0) = false
     ∨ cellAt (after (settleBeforeNewFirstMove bob) demo3) (mkPos 0 0) = None)
    as H' by (right; vm_compute; reflexivity).
  split; [exact H|]. split; [exact H'|].
  exact (flipFirst_empty_space (mkPos 0 0) bob demo3 H H').
Defined.

(** C7 as stated fails: (0,0) is empty on [demo3] and alice's first flip
    there throws 1-A, yet the call has removed alice's matched pair (0,2),
    (1,0) and cleared the outcome recorded for alice. *)
Lemma empty_flipFirst_settles_anyway :
  reachable demo3
  ∧ cellAt demo3 (mkPos 0 0) = None
  ∧ (flipFirst (mkPos 0 0) alice demo3).1 = inl EmptySpace1A
  ∧ cellAt demo3 (mkPos 0 2) = Some (mkSlot (js "B") true (Some alice))
  ∧ cellAt (after (flipFirst (mkPos 0 0) alice) demo3) (mkPos 0 2) = None
  ∧ after (flipFirst (mkPos 0 0) alice) demo3 ≠ demo3.
Proof.
  split; [apply demo3_reachable|].
  assert (cellAt demo3 (mkPos 0 2) = Some (mkSlot (js "B") true (Some alice)))
    as H1 by (vm_compute; reflexivity).
  assert (cellAt (after (flipFirst (mkPos 0 0) alice) demo3) (mkPos 0 2)
          = None) as H2 by (vm_compute; reflexivity).
  split_and!; [by vm_compute|by vm_compute|done|done|].
  intros E. rewrite E in H2. congruence.
Qed.

(** C3, as the code has it.  A first flip on a card that is face up and
    controlled by another player does not wait: it throws the 1-D error at
    once, records no first selection, and leaves the board as settlement
    left it. *)
Theorem flipFirst_controlled_by_other
    (pos : Pos) (p other : Player) (b : Board) (s : Slot) :
  RI b →
  cellAt (after (settleBeforeNewFirstMove p) b) pos = Some s →
  faceUp s = true → controller s = Some other → other ≠ p →
  flipFirst pos p b
  = (inl Controlled1D, after (settleBeforeNewFirstMove p) b)
  ∧ firstSelection (after (flipFirst pos p) b) = firstSelection b
  ∧ cellAt (after (flipFirst pos p) b) pos = Some s.
Proof.
  intros HRI E Hup Hctl Hne. rewrite after_settle in * by done.
  destruct (settled_frame p b) as (_ & _ & Hf).
  pose proof (flipFirst_controlled pos p b s other HRI E Hup Hctl Hne) as Hrun.
  unfold after. by rewrite Hrun.
Qed.

Lemma flipFirst_controlled_by_other_witness :
  RI demo1
  ∧ cellAt (after (settleBeforeNewFirstMove bob) demo1) (mkPos 0 0)
    = Some (mkSlot (js "A") true (Some alice))
  ∧ faceUp (mkSlot (js "A") true (Some alice)) = true
  ∧ controller (mkSlot (js "A") true (Some alice)) = Some alice
  ∧ alice ≠ bob
  ∧ flipFirst (mkPos 0 0) bob demo1
    = (inl Controlled1D, after (settleBeforeNewFirstMove bob) demo1)
  ∧ firstSelection (after (flipFirst (mkPos 0 0) bob) demo1)
    = firstSelection demo1
  ∧ cellAt (after (flipFirst (mkPos 0 0) bob) demo1) (mkPos 0 0)
    = Some (mkSlot (js "A") true (Some alice)).
Proof.
  assert (RI demo1) as H by (apply checkRep_sound; vm_compute; reflexivity).
  assert (cellAt (after (settleBeforeNewFirstMove bob) demo1) (mkPos 0 0)
    = Some (mkSlot (js "A") true (Some alice))) as H1
    by (vm_compute; reflexivity).
  assert (alice ≠ bob) as H2 by (vm_compute; discriminate).
  split; [exact H|]. split; [exact H1|]. split; [reflexivity|].
  split; [reflexivity|]. split; [exact H2|].
  exact (flipFirst_controlled_by_other (mkPos 0 0) bob alice demo1
           (mkSlot (js "A") true (Some alice)) H H1 eq_refl eq_refl H2).
Defined.

(** C3 as stated fails: bob's first flip on the card alice controls
    returns at once with the 1-D error instead of waiting until alice
    relinquishes it. *)
Lemma contested_flipFirst_throws :
  reachable demo1
  ∧ cellAt demo1 (mkPos 0 0) = Some (mkSlot (js "A") true (Some alice))
  ∧ alice ≠ bob
  ∧ flipFirst (mkPos 0 0) bob demo1 = (inl Controlled1D, demo1).
Proof.
  split; [apply demo1_reachable|].
  split_and!; [by vm_compute|vm_compute; discriminate|by vm_compute].
Qed.

(** C6, as the code has it.  When the cell at [pos], once the caller's
    previous turn has been settled, holds a card that is not controlled by
    another player, the first flip returns normally; the card ends face up
    and controlled by the caller (a face-down card is turned up, an
    uncontrolled one is taken, the caller's own card stays as it is); no
    other cell changes; and the caller's first selection becomes [pos]. *)
Theorem flipFirst_takes_card (pos : Pos) (p : Player) (b : Board) (s : Slot) :
  RI b →
  cellAt (after (settleBeforeNewFirstMove p) b) pos = Some s →
  (faceUp s = true → controller s = None ∨ controller s = Some p) →
  ∃ b', flipFirst pos p b = (inr tt, b')
    ∧ cellAt b' pos = Some (mkSlot (label s) true (Some p))
    ∧ (faceUp s = true → controller s = Some p → cellAt b' pos = Some s)
    ∧ (∀ q, q ≠ pos →
         cellAt b' q = cellAt (after (settleBeforeNewFirstMove p) b) q)
    ∧ firstSelection b' = <[p := pos]> (firstSelection b)
    ∧ pending b' = pending (after (settleBeforeNewFirstMove p) b)
    ∧ rows b' = rows b ∧ cols b' = cols b.
Proof.
  intros HRI E Hfree. rewrite after_settle in * by done.
  exists (firstFlipped pos p s b).
  pose proof (λ q, cellAt_firstFlipped pos p s b q HRI E Hfree) as Hcell.
  destruct (settled_frame p b) as (Hr & Hc & Hf).
  destruct (takeCard_frame pos p s (settled p b)) as (Hr' & Hc' & Hf' & Hp').
  split_and!.
  - by apply flipFirst_taken.
  - by rewrite Hcell, decide_True.
  - intros Hup Hctl. rewrite Hcell, decide_True by done.
    destruct s; simpl in *. by subst.
  - intros q Hq. by rewrite Hcell, decide_False.
  - unfold firstFlipped. simpl. by rewrite Hf.
  - done.
  - unfold firstFlipped. simpl. by rewrite Hr'.
  - unfold firstFlipped. simpl. by rewrite Hc'.
Qed.

Lemma flipFirst_takes_card_witness :
  RI demoMis
  ∧ cellAt (after (settleBeforeNewFirstMove bob) demoMis) (mkPos 0 2)
    = Some (mkSlot (js "B") true None)
  ∧ (faceUp (mkSlot (js "B") true None) = true →
     controller (mkSlot (js "B") true None) = None
     ∨ controller (mkSlot (js "B") true None) = Some bob)
  ∧ ∃ b', flipFirst (mkPos 0 2) bob demoMis = (inr tt, b')
    ∧ cellAt b' (mkPos 0 2) = Some (mkSlot (js "B") true (Some bob))
    ∧ (true = true → None = Some bob →
       cellAt b' (mkPos 0 2) = Some (mkSlot (js "B") true None))
    ∧ (∀ q, q ≠ mkPos 0 2 →
         cellAt b' q
         = cellAt (after (settleBeforeNewFirstMove bob) demoMis) q)
    ∧ firstSelection b' = <[bob := mkPos 0 2]> (firstSelection demoMis)
    ∧ pending b' = pending (after (settleBeforeNewFirstMove bob) demoMis)
    ∧ rows b' = rows demoMis ∧ cols b' = cols demoMis.
Proof.
  assert (RI demoMis) as H by (apply checkRep_sound; vm_compute; reflexivity).
  assert (cellAt (after (settleBeforeNewFirstMove bob) demoMis) (mkPos 0 2)
    = Some (mkSlot (js "B") true None)) as H1 by (vm_compute; reflexivity).
  split; [exact H|]. split; [exact H1|].
  split; [exact (λ _, or_introl eq_refl)|].
  exact (flipFirst_takes_card (mkPos 0 2) bob demoMis
           (mkSlot (js "B") true None) H H1 (λ _, or_introl eq_refl)).
Defined.

(** C6 as stated fails: on [demo2] the card at (0,0) is there, face up and
    controlled by alice, so the target is not empty and no other player
    controls it; yet alice's first flip on it throws 1-A, the card is
    removed instead of being kept, and no first selection is recorded. *)
Lemma own_matched_card_is_not_retaken :
  reachable demo2
  ∧ cellAt demo2 (mkPos 0 0) = Some (mkSlot (js "A") true (Some alice))
  ∧ (flipFirst (mkPos 0 0) alice demo2).1 = inl EmptySpace1A
  ∧ cellAt (after (flipFirst (mkPos 0 0) alice) demo2) (mkPos 0 0) = None
  ∧ firstSelection (after (flipFirst (mkPos 0 0) alice) demo2) !! alice
    = None.
Proof.
  split; [apply demo2_reachable|].
  split_and!; by vm_compute.
Qed.

(** ** Second flips *)

Lemma cellAt_released fst p b q :
  shaped b → withinb b fst = true →
  cellAt (released fst p b) q
  = if decide (q = fst) then setController None <$> cellAt b q
    else cellAt b q.
Proof.
  intros Hs Hw. unfold released.
  by rewrite cellAt_setFirstSelection, cellAt_modCell.
Qed.

(** C5.  On a reachable board where [p] holds the first selection [fst],
    a second flip on a position that is outside the grid or empty throws
    the 2-A error, and one on a card that is face up and controlled by
    anybody ([p] included) throws the 2-B error.  Either way the call
    returns at once, the first card stays face up with no controller, no
    other cell changes, the first selection of [p] is removed and the
    recorded outcomes are untouched. *)
Theorem flipSecond_rejected (pos fst : Pos) (p : Player) (b : Board) :
  reachable b → firstSelection b !! p = Some fst →
  (withinb b pos = false ∨ cellAt b pos = None
   ∨ ∃ t2, cellAt b pos = Some t2
           ∧ faceUp t2 = true ∧ controller t2 ≠ None) →
  ∃ t1 b',
    cellAt b fst = Some t1
    ∧ flipSecond pos p b
      = (inl (if cellAt b pos is Some _ then Controlled2B else EmptySpace2A),
         b')
    ∧ cellAt b' fst = Some (mkSlot (label t1) true None)
    ∧ (∀ q, q ≠ fst → cellAt b' q = cellAt b q)
    ∧ firstSelection b' = delete p (firstSelection b)
    ∧ firstSelection b' !! p = None
    ∧ pending b' = pending b.
Proof.
  intros HI%reachable_Inv Hf Hcase.
  pose proof (Inv_shaped b HI) as Hs.
  destruct (inv_first b HI p fst Hf) as (t1 & E1 & Hup1 & Hctl1).
  pose proof (cellAt_within b fst t1 Hs E1) as Hw1.
  pose proof (λ q, cellAt_released fst p b q Hs Hw1) as Hcell.
  exists t1, (released fst p b).
  assert (flipSecond pos p b
    = (inl (if cellAt b pos is Some _ then Controlled2B else EmptySpace2A),
       released fst p b)) as Hrun.
  { destruct Hcase as [Hw|[E2|(t2 & E2 & Hup2 & Hctl2)]].
    - rewrite (cellAt_outside b pos) by done.
      apply flipSecond_empty; [done..|]. by apply cellAt_outside.
    - rewrite E2. by apply flipSecond_empty.
    - rewrite E2. apply (flipSecond_controlled pos fst p b t2); [done..|].
      rewrite Hup2. simpl. by apply bool_decide_eq_true_2. }
  split_and!; try done.
  - rewrite Hcell, decide_True by done. rewrite E1. simpl.
    unfold setController. by rewrite Hup1.
  - intros q Hq. by rewrite Hcell, decide_False.
  - unfold released. simpl. apply lookup_delete_eq.
Qed.

Lemma flipSecond_rejected_witness :
  reachable demo1
  ∧ firstSelection demo1 !! alice = Some (mkPos 0 0)
  ∧ (withinb demo1 (mkPos 0 0) = false ∨ cellAt demo1 (mkPos 0 0) = None
     ∨ ∃ t2, cellAt demo1 (mkPos 0 0) = Some t2
             ∧ faceUp t2 = true ∧ controller t2 ≠ None)
  ∧ ∃ t1 b',
    cellAt demo1 (mkPos 0 0) = Some t1
    ∧ flipSecond (mkPos 0 0) alice demo1
      = (inl (if cellAt demo1 (mkPos 0 0) is Some _
              then Controlled2B else EmptySpace2A), b')
    ∧ cellAt b' (mkPos 0 0) = Some (mkSlot (label t1) true None)
    ∧ (∀ q, q ≠ mkPos 0 0 → cellAt b' q = cellAt demo1 q)
    ∧ firstSelection b' = delete alice (firstSelection demo1)
    ∧ firstSelection b' !! alice = None
    ∧ pending b' = pending demo1.
Proof.
  assert (firstSelection demo1 !! alice = Some (mkPos 0 0)) as Hf
    by (vm_compute; reflexivity).
  assert (withinb demo1 (mkPos 0 0) = false ∨ cellAt demo1 (mkPos 0 0) = None
     ∨ ∃ t2, cellAt demo1 (mkPos 0 0) = Some t2
             ∧ faceUp t2 = true ∧ controller t2 ≠ None) as Hc.
  { right. right. exists (mkSlot (js "A") true (Some alice)).
    split; [vm_compute; reflexivity|]. split; [reflexivity|discriminate]. }
  split; [exact demo1_reachable|]. split; [exact Hf|]. split; [exact Hc|].
  exact (flipSecond_rejected (mkPos 0 0) (mkPos 0 0) alice demo1
           demo1_reachable Hf Hc).
Defined.

(** C4.  On a reachable board where [p] holds the first selection [fst],
    a second flip on a card that is not both face up and controlled
    returns normally.  Both cards end face up; when their labels are equal
    both are controlled by [p] and the outcome recorded for [p] is the
    matched pair [(fst, pos)]; otherwise neither is controlled and the
    outcome is the mismatched pair [(fst, pos)].  No other cell changes
    and the first selection of [p] is removed. *)
Theorem flipSecond_resolves
    (pos fst : Pos) (p : Player) (b : Board) (t2 : Slot) :
  reachable b → firstSelection b !! p = Some fst →
  cellAt b pos = Some t2 →
  ¬ (faceUp t2 = true ∧ controller t2 ≠ None) →
  ∃ t1 b',
    cellAt b fst = Some t1
    ∧ flipSecond pos p b = (inr tt, b')
    ∧ (label t1 = label t2 →
         cellAt b' fst = Some (mkSlot (label t1) true (Some p))
         ∧ cellAt b' pos = Some (mkSlot (label t2) true (Some p))
         ∧ pending b'
           = <[p := Some (mkOutcome matched fst pos)]> (pending b))
    ∧ (label t1 ≠ label t2 →
         cellAt b' fst = Some (mkSlot (label t1) true None)
         ∧ cellAt b' pos = Some (mkSlot (label t2) true None)
         ∧ pending b'
           = <[p := Some (mkOutcome mismatched fst pos)]> (pending b))
    ∧ (∀ q, q ≠ fst → q ≠ pos → cellAt b' q = cellAt b q)
    ∧ firstSelection b' = delete p (firstSelection b)
    ∧ firstSelection b' !! p = None.
Proof.
  intros HI%reachable_Inv Hf E2 Hfree.
  pose proof (Inv_shaped b HI) as Hs.
  destruct (inv_first b HI p fst Hf) as (t1 & E1 & Hup1 & Hctl1).
  assert (faceUp t2 && bool_decide (controller t2 ≠ None) = false) as Hc.
  { apply not_true_is_false. intros [Hu Hn]%andb_prop.
    apply bool_decide_eq_true_1 in Hn. by apply Hfree. }
  assert (fst ≠ pos) as Hne.
  { intros ->. assert (t2 = t1) as -> by congruence.
    rewrite Hup1, Hctl1 in Hc. done. }
  pose proof (λ q, cellAt_resolved pos fst p t1 t2 b q Hs E1 E2 Hup1 Hne)
    as Hcell. simpl in Hcell.
  exists t1, (resolved pos fst p t1 t2 b).
  split_and!; try done.
  - by apply flipSecond_resolved.
  - intros Hsame. rewrite !Hcell. unfold resolved. simpl.
    rewrite bool_decide_eq_true_2 by done.
    rewrite decide_False, !decide_True by done. done.
  - intros Hdiff. rewrite !Hcell. unfold resolved. simpl.
    rewrite bool_decide_eq_false_2 by done.
    rewrite decide_False, !decide_True by done. done.
  - intros q Hq1 Hq2. rewrite Hcell. by rewrite !decide_False.
  - unfold resolved. simpl. apply lookup_delete_eq.
Qed.

Lemma flipSecond_resolves_witness :
  reachable demo1
  ∧ firstSelection demo1 !! alice = Some (mkPos 0 0)
  ∧ cellAt demo1 (mkPos 0 1) = Some (mkSlot (js "A") false None)
  ∧ ¬ (faceUp (mkSlot (js "A") false None) = true
       ∧ controller (mkSlot (js "A") false None) ≠ None)
  ∧ ∃ t1 b',
    cellAt demo1 (mkPos 0 0) = Some t1
    ∧ flipSecond (mkPos 0 1) alice demo1 = (inr tt, b')
    ∧ (label t1 = js "A" →
         cellAt b' (mkPos 0 0) = Some (mkSlot (label t1) true (Some alice))
         ∧ cellAt b' (mkPos 0 1) = Some (mkSlot (js "A") true (Some alice))
         ∧ pending b'
           = <[alice := Some (mkOutcome matched (mkPos 0 0) (mkPos 0 1))]>
               (pending demo1))
    ∧ (label t1 ≠ js "A" →
         cellAt b' (mkPos 0 0) = Some (mkSlot (label t1) true None)
         ∧ cellAt b' (mkPos 0 1) = Some (mkSlot (js "A") true None)
         ∧ pending b'
           = <[alice := Some (mkOutcome mismatched (mkPos 0 0) (mkPos 0 1))]>
               (pending demo1))
    ∧ (∀ q, q ≠ mkPos 0 0 → q ≠ mkPos 0 1 → cellAt b' q = cellAt demo1 q)
    ∧ firstSelection b' = delete alice (firstSelection demo1)
    ∧ firstSelection b' !! alice = None.
Proof.
  assert (firstSelection demo1 !! alice = Some (mkPos 0 0)) as Hf
    by (vm_compute; reflexivity).
  assert (cellAt demo1 (mkPos 0 1) = Some (mkSlot (js "A") false None)) as E2
    by (vm_compute; reflexivity).
  assert (¬ (faceUp (mkSlot (js "A") false None) = true
       ∧ controller (mkSlot (js "A") false None) ≠ None)) as Hn
    by (intros [Hu _]; discriminate Hu).
  split; [exact demo1_reachable|]. split; [exact Hf|]. split; [exact E2|].
  split; [exact Hn|].
  exact (flipSecond_resolves (mkPos 0 1) (mkPos 0 0) alice demo1
           (mkSlot (js "A") false None) demo1_reachable Hf E2 Hn).
Defined.

(** ** The invariant *)

(** C2.  On every board reached from the constructor through
    [settleBeforeNewFirstMove], [flipFirst], [flipSecond] and [snapshot]
    (whether the calls returned or threw), a card that is face down has no
    controller; indeed the whole representation invariant holds, so
    [checkRep] passes. *)
Theorem face_down_uncontrolled (b : Board) (q : Pos) (s : Slot) :
  reachable b → cellAt b q = Some s → faceUp s = false →
  controller s = None ∧ checkRep b = (inr tt, b).
Proof.
  intros HI%reachable_Inv E Hd. pose proof (inv_ri b HI) as HRI. split.
  - by apply (ri_down b HRI q s).
  - by apply checkRep_ok.
Qed.

Lemma face_down_uncontrolled_witness :
  reachable demo3
  ∧ cellAt demo3 (mkPos 1 1) = Some (mkSlot (js "C") false None)
  ∧ faceUp (mkSlot (js "C") false None) = false
  ∧ controller (mkSlot (js "C") false None) = None
  ∧ checkRep demo3 = (inr tt, demo3).
Proof.
  assert (cellAt demo3 (mkPos 1 1) = Some (mkSlot (js "C") false None)) as E
    by (vm_compute; reflexivity).
  split; [exact demo3_reachable|]. split; [exact E|]. split; [reflexivity|].
  exact (face_down_uncontrolled demo3 (mkPos 1 1)
           (mkSlot (js "C") false None) demo3_reachable E eq_refl).
Defined.

(** ** Snapshots *)

Lemma snapshotLines_run p b :
  shaped b →
  snapshotLines p b b
  = (inr ((λ i, (λ j, cellLine p (cellAt b (mkPos i j))) <$> seqZ 0 (cols b))
          <$> seqZ 0 (rows b)), b).
Proof.
  intros [Hrows _]. unfold snapshotLines.
  apply collect_ok. intros i Hi%elem_of_seqZ.
  apply collect_ok. intros j _.
  rewrite bind_run, getCell_mkPos; [done|].
  apply nthZ_is_Some. lia.
Qed.

Lemma concat_lines {A} (f : Pos → A) (rs cs : list Z) :
  concat ((λ i, (λ j, f (mkPos i j)) <$> cs) <$> rs)
  = f <$> concat ((λ i, mkPos i <$> cs) <$> rs).
Proof.
  induction rs as [|i rs IH]; [done|].
  rewrite !fmap_cons. simpl. rewrite fmap_app, IH. f_equal.
  by rewrite <- list_fmap_compose.
Qed.

Lemma traverse_inr {A B} (f : A → Error + B) xs ys :
  traverse f xs = inr ys → Forall2 (λ x y, f x = inr y) xs ys.
Proof.
  revert ys. induction xs as [|x xs IH]; simpl; intros ys.
  - intros [= <-]. constructor.
  - destruct (f x) as [e|y] eqn:E; [done|].
    destruct (traverse f xs) as [e|ys'] eqn:E'; [done|].
    intros [= <-]. constructor; [done|]. by apply IH.
Qed.

(** Every cell the constructor builds holds a card that lies face down
    with no controller. *)
Lemma construct_cells nr nc labels b :
  construct nr nc labels = inr b →
  Forall (Forall (λ cell, ∃ l, cell = Some (newSlot l))) (grid b).
Proof.
  intros (_ & _ & _ & _ & _ & Hg)%construct_inr.
  apply traverse_inr in Hg.
  induction Hg as [|i rw is_ g Hrw _ IH]; constructor; [|done].
  apply traverse_inr in Hrw. clear IH.
  induction Hrw as [|j cell js_ rw' Hcell _ IH]; constructor; [|done].
  destruct (nthZ labels (i * nc + j)) as [l|]; [|done].
  injection Hcell as <-. eauto.
Qed.

Lemma construct_cellAt nr nc labels b q :
  construct nr nc labels = inr b → withinb b q = true →
  ∃ l, cellAt b q = Some (newSlot l).
Proof.
  intros Hc Hw. pose proof (construct_cells _ _ _ _ Hc) as Hcells.
  destruct (construct_inr _ _ _ _ Hc) as (_ & _ & _ & _ & HRI & _).
  pose proof (RI_shaped b HRI) as Hs.
  destruct (within_row b q Hs Hw) as [rw Hrw].
  apply within_bounds in Hw. destruct Hs as [Hrows Hcols].
  pose proof Hrw as Hrw'. rewrite nthZ_lookup in Hrw' by lia.
  apply list_elem_of_lookup_2 in Hrw'.
  rewrite Forall_forall in Hcols. pose proof (Hcols rw Hrw') as Hlen.
  rewrite Forall_forall in Hcells. pose proof (Hcells rw Hrw') as Hall.
  destruct (nthZ_is_Some rw (c q)) as [cell Hcell]; [lia|].
  pose proof Hcell as Hcell'. rewrite nthZ_lookup in Hcell' by lia.
  apply list_elem_of_lookup_2 in Hcell'.
  rewrite Forall_forall in Hall. destruct (Hall cell Hcell') as [l ->].
  exists l. unfold cellAt, cellOf. rewrite Hrw. simpl. by rewrite Hcell.
Qed.

Lemma elem_of_concat {A} (x : A) (ls : list (list A)) :
  x ∈ concat ls → ∃ l, l ∈ ls ∧ x ∈ l.
Proof.
  induction ls as [|l ls IH]; simpl.
  - by intros ?%elem_of_nil.
  - intros [H|H]%elem_of_app.
    + exists l. split; [left|done].
    + destruct (IH H) as (l' & ? & ?). exists l'. split; [by right|done].
Qed.

Lemma elem_of_positions nr nc q :
  q ∈ positions nr nc → 0 ≤ r q < nr ∧ 0 ≤ c q < nc.
Proof.
  unfold positions. intros (l & Hl & Hq)%elem_of_concat.
  apply list_elem_of_fmap in Hl as (i & -> & Hi%elem_of_seqZ).
  apply list_elem_of_fmap in Hq as (j & -> & Hj%elem_of_seqZ).
  simpl. lia.
Qed.

Lemma length_positions nr nc :
  0 ≤ nr → (0 < nr → 0 ≤ nc) →
  length (positions nr nc) = Z.to_nat (nr * nc).
Proof.
  intros Hr Hc. unfold positions.
  assert (∀ rs : list Z,
    length (concat ((λ i, mkPos i <$> seqZ 0 nc) <$> rs))
    = (length rs * Z.to_nat nc)%nat) as H.
  { induction rs as [|i rs IH]; [done|].
    rewrite fmap_cons. simpl.
    by rewrite length_app, IH, length_fmap, length_seqZ. }
  rewrite H, length_seqZ.
  destruct (decide (nr = 0)) as [->|]; [done|].
  rewrite Z2Nat.inj_mul by lia. done.
Qed.

Lemma isSpace_clean u : isSpace u = false → u ≠ 10%N ∧ u ≠ 13%N.
Proof. intros H. split; intros ->; discriminate H. Qed.

Lemma string_of_uint_chars d :
  Forall (λ u, isSpace u = false) (js (NilEmpty.string_of_uint d)).
Proof. induction d; simpl; by constructor. Qed.

Lemma showZ_chars z :
  showZ z ≠ [] ∧ Forall (λ u, isSpace u = false) (showZ z).
Proof.
  unfold showZ.
  assert (∀ d, js (NilZero.string_of_uint d) ≠ []
               ∧ Forall (λ u, isSpace u = false)
                   (js (NilZero.string_of_uint d))) as Hu.
  { intros d. split.
    - by destruct d.
    - destruct d; try apply (string_of_uint_chars (_ d)).
      by repeat constructor. }
  destruct (Z.to_int z) as [d|d]; simpl.
  - apply Hu.
  - split; [done|]. constructor; [done|]. apply Hu.
Qed.

Lemma concat_lookup_uniform {A} (ls : list (list A)) (n i j : nat) l :
  Forall (λ l, length l = n) ls → ls !! i = Some l → (j < n)%nat →
  concat ls !! (i * n + j)%nat = l !! j.
Proof.
  intros Hlen. revert i. induction Hlen as [|l0 ls Hl0 _ IH]; intros i Hi Hj.
  - done.
  - destruct i as [|i]; simpl in *.
    + simplify_eq. apply lookup_app_l. lia.
    + rewrite lookup_app_r by lia.
      replace (n + i * n + j - length l0)%nat with (i * n + j)%nat by lia.
      by apply IH.
Qed.

Lemma positions_lookup nr nc i j :
  0 ≤ i < nr → 0 ≤ j < nc →
  positions nr nc !! Z.to_nat (i * nc + j) = Some (mkPos i j).
Proof.
  intros Hi Hj. unfold positions.
  replace (Z.to_nat (i * nc + j))
    with (Z.to_nat i * Z.to_nat nc + Z.to_nat j)%nat by nia.
  rewrite (concat_lookup_uniform _ (Z.to_nat nc) _ _
             (mkPos i <$> seqZ 0 nc)).
  - rewrite list_lookup_fmap, lookup_seqZ_lt by lia. simpl.
    do 2 f_equal. lia.
  - apply Forall_fmap, Forall_forall. intros k _. simpl.
    by rewrite length_fmap, length_seqZ.
  - rewrite list_lookup_fmap, lookup_seqZ_lt by lia. simpl.
    do 3 f_equal. lia.
  - lia.
Qed.

Lemma join_concat (lines : list jsstring) :
  lines ≠ [] →
  join nl lines ++ nl = concat ((λ l, l ++ [10%N]) <$> lines).
Proof.
  intros Hne. induction lines as [|l ls IH]; [done|].
  destruct ls as [|l' ls].
  - simpl. by rewrite app_nil_r.
  - change (join nl (l :: l' :: ls)) with (l ++ nl ++ join nl (l' :: ls)).
    rewrite fmap_cons, concat_cons, <- IH by done.
    by rewrite <- !app_assoc.
Qed.

Lemma cellLine_cases (forPlayer : Player) (cell : option Slot) :
  cellLine forPlayer cell
  = match cell with
    | None => js "none"
    | Some s =>
        if faceUp s
        then if decide (controller s = Some forPlayer)
             then js "my " ++ label s else js "up " ++ label s
        else js "down"
    end.
Proof.
  destruct cell as [s|]; [|done]. unfold cellLine.
  destruct (faceUp s); [|done]. simpl.
  destruct (decide (controller s = Some forPlayer)).
  - by rewrite bool_decide_eq_true_2.
  - by rewrite bool_decide_eq_false_2.
Qed.

Lemma shaped_dimensions b :
  shaped b → 0 ≤ rows b ∧ (0 < rows b → 0 ≤ cols b).
Proof.
  intros [Hrows Hcols]. split; [lia|].
  intros Hpos. destruct (grid b) as [|rw g]; [simpl in *; lia|].
  inversion Hcols; subst. lia.
Qed.

(** C8, as the code has it.  [snapshot forPlayer] never writes to the
    board.  On a board whose grid has its declared dimensions it returns
    a header line followed by one line per cell in row-major order (the
    line of cell [(i, j)] is line [1 + i * cols + j]), each line ended by
    a line feed: [none] for an empty cell, [down] for a face-down card,
    [my LABEL] for a face-up card controlled by [forPlayer] and
    [up LABEL] for any other face-up card.  The header is one line; for
    dimensions in the range where every integer is a double and prints as
    its decimal digits, it is [ROWSxCOLS].  If the board comes straight
    from the constructor every cell line is [down]. *)
Theorem snapshot_spec (forPlayer : Player) (b : Board) :
  shaped b →
  let line := λ q : Pos,
    match cellAt b q with
    | None => js "none"
    | Some s =>
        if faceUp s
        then if decide (controller s = Some forPlayer)
             then js "my " ++ label s else js "up " ++ label s
        else js "down"
    end in
  ∃ header : jsstring,
    Forall (λ u, u ≠ 10%N) header
    ∧ (Z.abs (rows b) < 2 ^ 53 → Z.abs (cols b) < 2 ^ 53 →
       header = showZ (rows b) ++ js "x" ++ showZ (cols b))
    ∧ snapshot forPlayer b
      = (inr (concat ((λ l, l ++ [10%N])
                      <$> header :: (line <$> positions (rows b) (cols b)))),
         b)
    ∧ length (positions (rows b) (cols b)) = Z.to_nat (rows b * cols b)
    ∧ (∀ i j, 0 ≤ i < rows b → 0 ≤ j < cols b →
         positions (rows b) (cols b) !! Z.to_nat (i * cols b + j)
         = Some (mkPos i j))
    ∧ (∀ nr nc labels, construct nr nc labels = inr b →
         line <$> positions (rows b) (cols b)
         = replicate (Z.to_nat (nr * nc)) (js "down")).
Proof.
  intros Hs line. destruct (shaped_dimensions b Hs) as [Hnr Hnc].
  exists (showZ (rows b) ++ js "x" ++ showZ (cols b)). split_and!.
  - destruct (showZ_chars (rows b)) as [_ Hr].
    destruct (showZ_chars (cols b)) as [_ Hc].
    rewrite !Forall_app. split_and!.
    + eapply Forall_impl; [exact Hr|]. intros u Hu. by apply isSpace_clean.
    + by repeat constructor.
    + eapply Forall_impl; [exact Hc|]. intros u Hu. by apply isSpace_clean.
  - done.
  - rewrite snapshot_run, snapshotLines_run by done.
    pose proof (concat_lines (λ q, cellLine forPlayer (cellAt b q))
                  (seqZ 0 (rows b)) (seqZ 0 (cols b))) as Hl.
    cbv beta in Hl. rewrite Hl. fold (positions (rows b) (cols b)).
    rewrite join_concat by done. do 5 f_equal.
    apply list_fmap_ext. intros k q _. unfold line.
    by rewrite cellLine_cases.
  - by apply length_positions.
  - intros i j Hi Hj. by apply positions_lookup.
  - intros nr nc labels Hc.
    destruct (construct_inr _ _ _ _ Hc) as (Hr & Hcl & _).
    rewrite <- Hr, <- Hcl, <- length_positions by done.
    rewrite <- (length_fmap line).
    symmetry. apply replicate_as_Forall_2; [done|].
    apply Forall_fmap, Forall_forall. intros q Hq%elem_of_positions.
    destruct (construct_cellAt nr nc labels b q Hc) as [l Hl].
    { by apply within_bounds. }
    unfold line. simpl. by rewrite Hl.
Qed.

Lemma snapshot_spec_witness :
  construct 3 3 demoLabels = inr demo0
  ∧ shaped demo0
  ∧ snapshot bob demo0
    = (inr (js "3x3" ++ nl ++ js "down" ++ nl ++ js "down" ++ nl
            ++ js "down" ++ nl ++ js "down" ++ nl ++ js "down" ++ nl
            ++ js "down" ++ nl ++ js "down" ++ nl ++ js "down" ++ nl
            ++ js "down" ++ nl), demo0)
  ∧ shaped demo2
  ∧ snapshot alice demo2
    = (inr (js "3x3" ++ nl ++ js "my A" ++ nl ++ js "my A" ++ nl
            ++ js "down" ++ nl ++ js "down" ++ nl ++ js "down" ++ nl
            ++ js "down" ++ nl ++ js "down" ++ nl ++ js "down" ++ nl
            ++ js "down" ++ nl), demo2)
  ∧ snapshot bob demo2
    = (inr (js "3x3" ++ nl ++ js "up A" ++ nl ++ js "up A" ++ nl
            ++ js "down" ++ nl ++ js "down" ++ nl ++ js "down" ++ nl
            ++ js "down" ++ nl ++ js "down" ++ nl ++ js "down" ++ nl
            ++ js "down" ++ nl), demo2).
Proof.
  assert (construct 3 3 demoLabels = inr demo0) as E
    by (vm_compute; reflexivity).
  assert (shaped demo0) as H0.
  { split; [reflexivity|]. vm_compute. repeat constructor. }
  assert (shaped demo2) as H2.
  { split; [reflexivity|]. vm_compute. repeat constructor. }
  assert (Z.abs 3 < 2 ^ 53) as Hb by (vm_compute; reflexivity).
  split; [exact E|]. split; [exact H0|]. split.
  { destruct (snapshot_spec bob demo0 H0)
      as (header & _ & Hh & Hsnap & _ & _ & Hdown).
    rewrite Hsnap, (Hh Hb Hb), (Hdown 3 3 demoLabels E).
    vm_compute. reflexivity. }
  split; [exact H2|]. split.
  { destruct (snapshot_spec alice demo2 H2)
      as (header & _ & Hh & Hsnap & _).
    rewrite Hsnap, (Hh Hb Hb). vm_compute. reflexivity. }
  destruct (snapshot_spec bob demo2 H2) as (header & _ & Hh & Hsnap & _).
  rewrite Hsnap, (Hh Hb Hb). vm_compute. reflexivity.
Defined.

(** C8 as stated fails: the text is not made of the lines of the cells
    alone.  For the board the constructor builds from nine labels the
    snapshot has ten lines; the first, [3x3], is not the line of any cell,
    and the line of cell (0,0) comes second. *)
Lemma header_line_precedes_cells :
  construct 3 3 demoLabels = inr demo0
  ∧ snapshot alice demo0
    = (inr (js "3x3" ++ nl ++ js "down" ++ nl ++ js "down" ++ nl
            ++ js "down" ++ nl ++ js "down" ++ nl ++ js "down" ++ nl
            ++ js "down" ++ nl ++ js "down" ++ nl ++ js "down" ++ nl
            ++ js "down" ++ nl), demo0)
  ∧ (snapshot alice demo0).1
    ≠ inr (js "down" ++ nl ++ js "down" ++ nl ++ js "down" ++ nl
           ++ js "down" ++ nl ++ js "down" ++ nl ++ js "down" ++ nl
           ++ js "down" ++ nl ++ js "down" ++ nl ++ js "down" ++ nl)
  ∧ (∀ forPlayer cell, cellLine forPlayer cell ≠ js "3x3").
Proof.
  split_and!.
  - by vm_compute.
  - by vm_compute.
  - vm_compute. discriminate.
  - intros forPlayer [s|]; [|vm_compute; discriminate].
    unfold cellLine. destruct (faceUp s); simpl; [|discriminate].
    destruct (bool_decide _); discriminate.
Qed.

(** ** Parsing *)

Lemma spanDigits_spec s ds tl :
  spanDigits s = (ds, tl) →
  s = ds ++ tl ∧ Forall (λ u, isDigit u = true) ds.
Proof.
  revert ds tl. induction s as [|u s IH]; simpl; intros ds tl.
  - intros [= <- <-]. by split.
  - destruct (isDigit u) eqn:Hu.
    + destruct (spanDigits s) as [ds' tl'].
      intros [= <- <-]. destruct (IH ds' tl' eq_refl) as [-> HF].
      split; [done|]. by constructor.
    + intros [= <- <-]. by split.
Qed.

Lemma headerRe_spec header m1 m2 :
  headerRe header = Some (m1, m2) →
  header = m1 ++ js "x" ++ m2 ∧ digits m1 ∧ digits m2.
Proof.
  unfold headerRe.
  destruct (spanDigits header) as [[|u ds] [|x rest]] eqn:E1; try done.
  destruct (x =? 120)%N eqn:Hx; [|done]. apply N.eqb_eq in Hx. subst x.
  destruct (spanDigits rest) as [[|v ds'] [|? ?]] eqn:E2; try done.
  intros [= <- <-].
  apply spanDigits_spec in E1 as [-> H1].
  apply spanDigits_spec in E2 as [-> H2].
  rewrite app_nil_r. by repeat split.
Qed.

Lemma cardRe_token card : cardRe card = true ↔ token card.
Proof.
  unfold cardRe, token. destruct card as [|u card].
  - split; [done|]. by intros [? _].
  - rewrite forallb_forall. rewrite Forall_forall. split.
    + intros H. split; [done|]. intros x Hx%list_elem_of_In.
      apply H in Hx. by apply negb_true_iff.
    + intros [_ H] x Hx%list_elem_of_In. apply negb_true_iff. by apply H.
Qed.

Lemma checkCards_inr cards :
  checkCards cards = inr tt ↔ Forall token cards.
Proof.
  induction cards as [|card cards IH]; simpl.
  - split; [constructor|done].
  - destruct (cardRe card) eqn:E.
    + rewrite IH. apply cardRe_token in E. split.
      * by constructor.
      * by inversion 1.
    + split; [done|]. inversion 1 as [|? ? Ht]; subst.
      apply cardRe_token in Ht. congruence.
Qed.

Lemma checkCards_inl cards e : checkCards cards = inl e → formatError e.
Proof.
  induction cards as [|card cards IH]; simpl; [done|].
  destruct (cardRe card); [done|]. by intros [= <-].
Qed.

Lemma traverse_ok {A B} (f : A → Error + B) (g : A → B) xs :
  (∀ x, x ∈ xs → f x = inr (g x)) → traverse f xs = inr (g <$> xs).
Proof.
  induction xs as [|x xs IH]; intros H; simpl; [done|].
  rewrite H by left. rewrite IH; [done|]. intros y Hy. apply H. by right.
Qed.

(** The constructor accepts every list of [rows * cols] tokens. *)
Lemma construct_tokens nr nc (labels : list jsstring) :
  0 ≤ nr → 0 ≤ nc → Z.of_nat (length labels) = nr * nc →
  Forall token labels →
  ∃ b, construct nr nc labels = inr b.
Proof.
  intros Hnr Hnc Hlen Htok.
  set (lab := λ k, default [] (nthZ labels k)).
  set (g := (λ i, (λ j, Some (newSlot (lab (i * nc + j)))) <$> seqZ 0 nc)
              <$> seqZ 0 nr).
  assert (traverse (λ i,
      traverse (λ j,
        match nthZ labels (i * nc + j) with
        | None => inl MissingLabel
        | Some l => inr (Some (newSlot l))
        end) (seqZ 0 nc)) (seqZ 0 nr) = inr g) as Hg.
  { apply traverse_ok. intros i Hi%elem_of_seqZ.
    apply traverse_ok. intros j Hj%elem_of_seqZ.
    destruct (nthZ_is_Some labels (i * nc + j)) as [l Hl]; [nia|].
    unfold lab. by rewrite Hl. }
  assert (RI (mkBoard nr nc g ∅ ∅)) as HRI.
  { assert (∀ p s, cellAt (mkBoard nr nc g ∅ ∅) p = Some s →
              ∃ l, l ∈ labels ∧ s = newSlot l) as Hcells.
    { intros p s (rw & Hr & Hc)%cellOf_Some. simpl in Hr.
      pose proof (nthZ_Some _ _ _ Hr) as Hr'.
      pose proof (nthZ_Some _ _ _ Hc) as Hc'.
      rewrite nthZ_lookup in Hr by lia. rewrite nthZ_lookup in Hc by lia.
      unfold g in Hr.
      apply list_lookup_fmap_Some in Hr as (i & -> & Hi).
      apply list_lookup_fmap_Some in Hc as (j & [= ->] & Hj).
      apply list_elem_of_lookup_2, elem_of_seqZ in Hi.
      apply list_elem_of_lookup_2, elem_of_seqZ in Hj.
      destruct (nthZ_is_Some labels (i * nc + j)) as [l Hl]; [nia|].
      exists l. unfold lab. rewrite Hl. split; [|done].
      rewrite nthZ_lookup in Hl by nia. by eapply list_elem_of_lookup_2. }
    split.
    - split; simpl.
      + unfold g. rewrite length_fmap, length_seqZ. lia.
      + unfold g. apply Forall_fmap, Forall_forall. intros i _. simpl.
        rewrite length_fmap, length_seqZ. lia.
    - intros p s (l & Hl & ->)%Hcells. simpl.
      rewrite Forall_forall in Htok. by apply cardRe_token, Htok.
    - by intros p s (l & Hl & ->)%Hcells.
    - intros pl out. simpl. by rewrite lookup_empty. }
  exists (mkBoard nr nc g ∅ ∅). unfold construct.
  rewrite Hg. by rewrite checkRep_ok.
Qed.

(** C9.  [parseFromFile] either returns a board or throws, never both.
    When it returns a board, the first non-empty line of the text is
    [ROWS x COLS] with two strings of decimal digits denoting positive
    integers, exactly [ROWS * COLS] non-empty lines follow it, each of them
    a token without white space, and the board is the one the constructor
    builds from them.  In every other case it throws one of the format
    diagnostics. *)
Theorem parseFromFile_spec (text : jsstring) :
  match parseFromFile text with
  | inr b =>
      ∃ m1 m2 cards,
        fileLines text = (m1 ++ js "x" ++ m2) :: cards
        ∧ digits m1 ∧ digits m2
        ∧ 0 < parseInt m1 ∧ 0 < parseInt m2
        ∧ Z.of_nat (length cards) = parseInt m1 * parseInt m2
        ∧ Forall token cards
        ∧ construct (parseInt m1) (parseInt m2) cards = inr b
        ∧ rows b = parseInt m1 ∧ cols b = parseInt m2
  | inl e => formatError e
  end.
Proof.
  unfold parseFromFile.
  destruct (fileLines text) as [|header cards] eqn:El; [done|].
  destruct (headerRe header) as [[m1 m2]|] eqn:Eh; [|done].
  apply headerRe_spec in Eh as (-> & Hd1 & Hd2).
  cbv zeta.
  destruct (negb (isFinite (parseInt m1)) || negb (isFinite (parseInt m2))
            || (parseInt m1 <=? 0) || (parseInt m2 <=? 0)) eqn:Epos; [done|].
  apply orb_false_elim in Epos as [Epos H2%Z.leb_gt].
  apply orb_false_elim in Epos as [_ H1%Z.leb_gt].
  destruct (Z.of_nat (length cards) =? parseInt m1 * parseInt m2) eqn:Ec;
    [|done]. apply Z.eqb_eq in Ec. simpl.
  destruct (checkCards cards) as [e|[]] eqn:Ek.
  { by eapply checkCards_inl. }
  apply checkCards_inr in Ek.
  destruct (construct_tokens (parseInt m1) (parseInt m2) cards)
    as [b Hb]; [lia..|done|].
  rewrite Hb. destruct (construct_inr _ _ _ _ Hb) as (Hr & Hc & _).
  exists m1, m2, cards. by split_and!.
Qed.

(** The parser is not vacuous: it accepts every text of that shape whose
    dimensions are finite as doubles. *)
Lemma spanDigits_app ds tl :
  Forall (λ u, isDigit u = true) ds →
  match tl with [] => True | x :: _ => isDigit x = false end →
  spanDigits (ds ++ tl) = (ds, tl).
Proof.
  intros Hds Htl. induction Hds as [|u ds Hu _ IH]; simpl.
  - destruct tl as [|x tl]; [done|]. simpl. by rewrite Htl.
  - by rewrite Hu, IH.
Qed.

Lemma headerRe_complete m1 m2 :
  digits m1 → digits m2 → headerRe (m1 ++ js "x" ++ m2) = Some (m1, m2).
Proof.
  intros [Hn1 Hd1] [Hn2 Hd2]. unfold headerRe.
  rewrite spanDigits_app by done. destruct m1 as [|u ds]; [done|].
  change (js "x" ++ m2) with (120%N :: m2). simpl.
  pose proof (spanDigits_app m2 [] Hd2 I) as H2.
  rewrite app_nil_r in H2. rewrite H2. by destruct m2.
Qed.

Lemma parseFromFile_accepts text m1 m2 cards :
  fileLines text = (m1 ++ js "x" ++ m2) :: cards →
  digits m1 → digits m2 →
  0 < parseInt m1 < 2 ^ 1024 - 2 ^ 970 →
  0 < parseInt m2 < 2 ^ 1024 - 2 ^ 970 →
  Z.of_nat (length cards) = parseInt m1 * parseInt m2 →
  Forall token cards →
  ∃ b, parseFromFile text = inr b.
Proof.
  intros El Hd1 Hd2 [H1 F1] [H2 F2] Hlen Htok. unfold parseFromFile.
  rewrite El, headerRe_complete by done. cbv zeta. unfold isFinite.
  rewrite (proj2 (Z.ltb_lt _ _) F1), (proj2 (Z.ltb_lt _ _) F2).
  rewrite (proj2 (Z.leb_gt _ _) H1), (proj2 (Z.leb_gt _ _) H2). simpl.
  rewrite (proj2 (Z.eqb_eq _ _) Hlen). simpl.
  rewrite (proj2 (checkCards_inr cards) Htok).
  apply construct_tokens; [lia..|done].
Qed.

Lemma parseFromFile_demo : parseFromFile demoText = inr demo0.
Proof. vm_compute. reflexivity. Qed.


(** * Further properties of the code *)

(** ** Cell access *)

Lemma nthZ_None {A} (xs : list A) i :
  ¬ (0 ≤ i < Z.of_nat (length xs)) → nthZ xs i = None.
Proof.
  intros H. unfold nthZ. case_decide; [|done].
  apply lookup_ge_None_2. lia.
Qed.

Lemma shaped_row_length b i rw :
  shaped b → nthZ (grid b) i = Some rw → Z.of_nat (length rw) = cols b.
Proof.
  intros [_ HF] Hrw. pose proof (nthZ_Some _ _ _ Hrw).
  rewrite nthZ_lookup in Hrw by lia. rewrite Forall_forall in HF.
  apply HF. by eapply list_elem_of_lookup_2.
Qed.

(** X1.  On a board whose grid has its declared dimensions, [setCell] at
    a position inside the grid returns normally, the value written is what
    [getCell] then reads there, every other cell reads as before, and the
    grid keeps its dimensions. *)
Theorem setCell_then_getCell (b : Board) (p : Pos) (v : option Slot) :
  shaped b → withinb b p = true →
  ∃ b', setCell (r p) (c p) v b = (inr tt, b')
    ∧ getCell (r p) (c p) b' = (inr v, b')
    ∧ (∀ q, q ≠ p → cellAt b' q = cellAt b q)
    ∧ shaped b'
    ∧ rows b' = rows b ∧ cols b' = cols b
    ∧ firstSelection b' = firstSelection b ∧ pending b' = pending b.
Proof.
  intros Hs Hw. exists (putCell p v b).
  pose proof (shaped_putCell p v b Hs Hw) as Hs'.
  split_and!; try done.
  - by apply setCell_run.
  - rewrite getCell_cellAt by (by apply within_row).
    by rewrite cellAt_putCell, decide_True.
  - intros q Hq. by rewrite cellAt_putCell, decide_False.
Qed.

Lemma setCell_then_getCell_witness :
  shaped demo1 ∧ withinb demo1 (mkPos 2 1) = true
  ∧ ∃ b', setCell 2 1 None demo1 = (inr tt, b')
    ∧ getCell 2 1 b' = (inr None, b')
    ∧ (∀ q, q ≠ mkPos 2 1 → cellAt b' q = cellAt demo1 q)
    ∧ shaped b'
    ∧ rows b' = rows demo1 ∧ cols b' = cols demo1
    ∧ firstSelection b' = firstSelection demo1
    ∧ pending b' = pending demo1.
Proof.
  assert (shaped demo1) as H.
  { split; [reflexivity|]. vm_compute. repeat constructor. }
  split; [exact H|]. split; [reflexivity|].
  exact (setCell_then_getCell demo1 (mkPos 2 1) None H eq_refl).
Defined.

(** X2.  Outside the grid the accessors differ.  A row index outside
    [0 .. rows-1] makes [getCell] and [setCell] throw the row error; a
    column index outside [0 .. cols-1] on an existing row makes [getCell]
    answer [null] without throwing while [setCell] throws the column
    error; [slotAt] throws its own out-of-bounds error in both cases.
    None of them changes the board. *)
Theorem cell_access_out_of_bounds
    (b : Board) (i j : Z) (v : option Slot) :
  shaped b → withinb b (mkPos i j) = false →
  slotAt (mkPos i j) b = (inl (OutOfBounds i j), b)
  ∧ (¬ (0 ≤ i < rows b) →
       getCell i j b = (inl RowOutOfBounds, b)
       ∧ setCell i j v b = (inl RowOutOfBounds, b))
  ∧ (0 ≤ i < rows b →
       getCell i j b = (inr None, b)
       ∧ setCell i j v b = (inl ColumnOutOfBounds, b)).
Proof.
  intros Hs Hw. split_and!.
  - by rewrite slotAt_outside.
  - intros Hi. destruct Hs as [Hrows _].
    assert (nthZ (grid b) i = None) as Hn
      by (apply nthZ_None; by rewrite Hrows).
    rewrite getCell_run, Hn. unfold setCell, row. mrun. by rewrite Hn.
  - intros Hi.
    assert (¬ (0 ≤ j < cols b)) as Hj.
    { intros Hj. assert (withinb b (mkPos i j) = true)
        by (by apply within_bounds). congruence. }
    destruct (nthZ_is_Some (grid b) i) as [rw Hrw].
    { destruct Hs as [-> _]. done. }
    pose proof (shaped_row_length b i rw Hs Hrw) as Hlen.
    rewrite getCell_run, Hrw.
    rewrite (nthZ_None rw j) by (by rewrite Hlen).
    unfold setCell, row. mrun. rewrite Hrw.
    by rewrite decide_True by lia.
Qed.

Lemma cell_access_out_of_bounds_witness :
  shaped demo1 ∧ withinb demo1 (mkPos 1 3) = false
  ∧ slotAt (mkPos 1 3) demo1 = (inl (OutOfBounds 1 3), demo1)
  ∧ (¬ (0 ≤ 1 < rows demo1) →
       getCell 1 3 demo1 = (inl RowOutOfBounds, demo1)
       ∧ setCell 1 3 None demo1 = (inl RowOutOfBounds, demo1))
  ∧ (0 ≤ 1 < rows demo1 →
       getCell 1 3 demo1 = (inr None, demo1)
       ∧ setCell 1 3 None demo1 = (inl ColumnOutOfBounds, demo1)).
Proof.
  assert (shaped demo1) as H.
  { split; [reflexivity|]. vm_compute. repeat constructor. }
  split; [exact H|]. split; [reflexivity|].
  exact (cell_access_out_of_bounds demo1 1 3 None H eq_refl).
Defined.

(** ** [checkRep] *)

(** X3.  [checkRep] never changes the board, and it returns normally
    exactly on the boards that satisfy the documented representation
    invariant: the grid has [rows] rows of [cols] cells, every label is a
    non-empty string without white space, a face-down card has no
    controller, and the positions of every recorded outcome are inside the
    grid. *)
Theorem checkRep_decides_RI (b : Board) :
  after checkRep b = b
  ∧ ((checkRep b).1 = inr tt
     ↔ Z.of_nat (length (grid b)) = rows b
       ∧ Forall (λ rw, Z.of_nat (length rw) = cols b) (grid b)
       ∧ (∀ p s, cellAt b p = Some s →
            token (label s) ∧ (faceUp s = false → controller s = None))
       ∧ (∀ pl out, pending b !! pl = Some (Some out) →
            withinb b (first out) = true ∧ withinb b (second out) = true)).
Proof.
  split; [apply checkRep_state|]. split.
  - intros HRI%checkRep_sound. destruct HRI as [[H1 H2] H3 H4 H5].
    split_and!; try done. intros p s E. split.
    + by apply cardRe_token, (H3 p).
    + by apply (H4 p).
  - intros (H1 & H2 & H3 & H4). rewrite checkRep_ok; [done|].
    split; [done| | |done].
    + intros p s E. by apply cardRe_token, (H3 p).
    + intros p s E. by apply (H3 p).
Qed.

(** ** The constructor *)

Lemma traverse_inl {A B} (f : A → Error + B) xs e :
  traverse f xs = inl e → ∃ x, x ∈ xs ∧ f x = inl e.
Proof.
  induction xs as [|x xs IH]; simpl; [done|].
  destruct (f x) as [e'|y] eqn:E.
  - intros [= <-]. exists x. split; [left|done].
  - destruct (traverse f xs) as [e'|ys]; [|done].
    intros [= <-]. destruct (IH eq_refl) as (x' & Hx' & Hf).
    exists x'. split; [by right|done].
Qed.

Lemma construct_cell_label nr nc labels b i j :
  construct nr nc labels = inr b → 0 ≤ i < nr → 0 ≤ j < nc →
  ∃ l, nthZ labels (i * nc + j) = Some l
       ∧ cellAt b (mkPos i j) = Some (newSlot l).
Proof.
  intros (_ & _ & _ & _ & _ & Hg)%construct_inr Hi Hj.
  apply traverse_inr in Hg.
  assert (seqZ 0 nr !! Z.to_nat i = Some i) as Hli
    by (apply lookup_seqZ; lia).
  destruct (Forall2_lookup_l _ _ _ _ _ Hg Hli) as (rw & Hrw & Hrow).
  apply traverse_inr in Hrow.
  assert (seqZ 0 nc !! Z.to_nat j = Some j) as Hlj
    by (apply lookup_seqZ; lia).
  destruct (Forall2_lookup_l _ _ _ _ _ Hrow Hlj) as (cell & Hcell & Hc).
  destruct (nthZ labels (i * nc + j)) as [l|]; [|done].
  injection Hc as <-. exists l. split; [done|].
  unfold cellAt, cellOf. simpl. rewrite !nthZ_lookup by lia.
  rewrite Hrw. simpl. rewrite nthZ_lookup by lia. by rewrite Hcell.
Qed.

Lemma construct_ok nr nc (labels : list jsstring) :
  0 ≤ nr → (0 < nr → 0 ≤ nc) →
  (∀ i j, 0 ≤ i < nr → 0 ≤ j < nc →
     ∃ l, nthZ labels (i * nc + j) = Some l ∧ token l) →
  ∃ b, construct nr nc labels = inr b.
Proof.
  intros Hnr Hnc Hlab.
  set (lab := λ k, default [] (nthZ labels k)).
  set (g := (λ i, (λ j, Some (newSlot (lab (i * nc + j)))) <$> seqZ 0 nc)
              <$> seqZ 0 nr).
  assert (traverse (λ i,
      traverse (λ j,
        match nthZ labels (i * nc + j) with
        | None => inl MissingLabel
        | Some l => inr (Some (newSlot l))
        end) (seqZ 0 nc)) (seqZ 0 nr) = inr g) as Hg.
  { apply traverse_ok. intros i Hi%elem_of_seqZ.
    apply traverse_ok. intros j Hj%elem_of_seqZ.
    destruct (Hlab i j) as (l & Hl & _); [lia..|].
    unfold lab. by rewrite Hl. }
  assert (RI (mkBoard nr nc g ∅ ∅)) as HRI.
  { assert (∀ p s, cellAt (mkBoard nr nc g ∅ ∅) p = Some s →
              ∃ l, token l ∧ s = newSlot l) as Hcells.
    { intros p s (rw & Hr & Hc)%cellOf_Some. simpl in Hr.
      pose proof (nthZ_Some _ _ _ Hr) as Hr'.
      pose proof (nthZ_Some _ _ _ Hc) as Hc'.
      rewrite nthZ_lookup in Hr by lia. rewrite nthZ_lookup in Hc by lia.
      unfold g in Hr.
      apply list_lookup_fmap_Some in Hr as (i & -> & Hi).
      apply list_lookup_fmap_Some in Hc as (j & [= ->] & Hj).
      apply list_elem_of_lookup_2, elem_of_seqZ in Hi.
      apply list_elem_of_lookup_2, elem_of_seqZ in Hj.
      destruct (Hlab i j) as (l & Hl & Ht); [lia..|].
      exists l. unfold lab. by rewrite Hl. }
    split.
    - split; simpl.
      + unfold g. rewrite length_fmap, length_seqZ. lia.
      + unfold g. apply Forall_fmap, Forall_forall.
        intros i Hi%elem_of_seqZ. simpl.
        rewrite length_fmap, length_seqZ. lia.
    - intros p s (l & Hl & ->)%Hcells. simpl. by apply cardRe_token.
    - by intros p s (l & Hl & ->)%Hcells.
    - intros pl out. simpl. by rewrite lookup_empty. }
  exists (mkBoard nr nc g ∅ ∅). unfold construct.
  rewrite Hg. by rewrite checkRep_ok.
Qed.

(** X4.  For dimensions and a label array of the sizes an array can have
    (fewer than 2^32 rows, columns and labels; from 2^32 rows or columns on
    [Array.from] throws a range error, which the model leaves out), the
    constructor returns a board exactly when the row count is not
    negative, the column count is not negative unless there are no rows,
    and every label it reads (the label of cell [(i, j)] is
    [labels[i * cols + j]]) is there and is a non-empty string without white
    space.  Labels past the first [rows * cols] are never looked at. *)
Theorem construct_succeeds_iff (nr nc : Z) (labels : list jsstring) :
  nr < 2 ^ 32 → (0 < nr → nc < 2 ^ 32) →
  Z.of_nat (length labels) < 2 ^ 32 →
  (∃ b, construct nr nc labels = inr b)
  ↔ 0 ≤ nr ∧ (0 < nr → 0 ≤ nc)
    ∧ ∀ i j, 0 ≤ i < nr → 0 ≤ j < nc →
        ∃ l, nthZ labels (i * nc + j) = Some l ∧ token l.
Proof.
  intros _ _ _. split.
  - intros [b Hb].
    destruct (construct_inr _ _ _ _ Hb) as (Hr & Hc & _ & _ & HRI & _).
    destruct (RI_shaped b HRI) as [Hrows Hcols].
    split_and!.
    + lia.
    + intros Hpos. destruct (grid b) as [|rw g]; [simpl in *; lia|].
      inversion Hcols; subst. lia.
    + intros i j Hi Hj.
      destruct (construct_cell_label nr nc labels b i j Hb Hi Hj)
        as (l & Hl & Hcell).
      exists l. split; [done|].
      apply cardRe_token. apply (ri_label b HRI _ _ Hcell).
  - intros (Hnr & Hnc & Hlab). by apply construct_ok.
Qed.

Lemma construct_succeeds_iff_witness :
  3 < 2 ^ 32 ∧ (0 < 3 → 3 < 2 ^ 32)
  ∧ Z.of_nat (length demoLabels) < 2 ^ 32
  ∧ construct 3 3 demoLabels = inr demo0
  ∧ ((∃ b, construct 3 3 demoLabels = inr b)
     ↔ 0 ≤ 3 ∧ (0 < 3 → 0 ≤ 3)
       ∧ ∀ i j, 0 ≤ i < 3 → 0 ≤ j < 3 →
           ∃ l, nthZ demoLabels (i * 3 + j) = Some l ∧ token l).
Proof.
  assert (3 < 2 ^ 32) as H1 by (vm_compute; reflexivity).
  assert (Z.of_nat (length demoLabels) < 2 ^ 32) as H2
    by (vm_compute; reflexivity).
  split; [exact H1|]. split; [exact (λ _, H1)|]. split; [exact H2|].
  split; [vm_compute; reflexivity|].
  exact (construct_succeeds_iff 3 3 demoLabels H1 (λ _, H1) H2).
Defined.

(** X5.  The board the constructor returns has the dimensions it was
    given, no first selection and no recorded outcome, and holds the
    labels in row-major order: cell [(i, j)] is the card
    [labels[i * cols + j]], face down and uncontrolled; outside the grid
    there is no cell. *)
Theorem construct_layout
    (nr nc : Z) (labels : list jsstring) (b : Board) :
  construct nr nc labels = inr b →
  rows b = nr ∧ cols b = nc
  ∧ firstSelection b = ∅ ∧ pending b = ∅
  ∧ (∀ i j, 0 ≤ i < nr → 0 ≤ j < nc →
       ∃ l, nthZ labels (i * nc + j) = Some l
            ∧ cellAt b (mkPos i j) = Some (mkSlot l false None))
  ∧ (∀ q, withinb b q = false → cellAt b q = None).
Proof.
  intros Hb.
  destruct (construct_inr _ _ _ _ Hb) as (Hr & Hc & Hf & Hp & HRI & _).
  split_and!; try done.
  - intros i j Hi Hj. by apply (construct_cell_label nr nc labels b).
  - intros q Hq. apply cellAt_outside; [|done]. by apply RI_shaped.
Qed.

Lemma construct_layout_witness :
  construct 3 3 demoLabels = inr demo0
  ∧ rows demo0 = 3 ∧ cols demo0 = 3
  ∧ firstSelection demo0 = ∅ ∧ pending demo0 = ∅
  ∧ (∀ i j, 0 ≤ i < 3 → 0 ≤ j < 3 →
       ∃ l, nthZ demoLabels (i * 3 + j) = Some l
            ∧ cellAt demo0 (mkPos i j) = Some (mkSlot l false None))
  ∧ (∀ q, withinb demo0 q = false → cellAt demo0 q = None).
Proof.
  assert (construct 3 3 demoLabels = inr demo0) as H
    by (vm_compute; reflexivity).
  split; [exact H|]. exact (construct_layout 3 3 demoLabels demo0 H).
Defined.

Lemma forEach_throw {A} (xs : list A) body b e :
  (∀ x, x ∈ xs → body x b = (inr tt, b) ∨ body x b = (inl e, b)) →
  (∃ x, x ∈ xs ∧ body x b = (inl e, b)) →
  forEach xs body b = (inl e, b).
Proof.
  induction xs as [|x xs IH]; intros Hall (y & Hy & Hf).
  - by apply elem_of_nil in Hy.
  - simpl. unfold bind.
    destruct (Hall x) as [Hx|Hx]; [left|rewrite Hx..]; [|done].
    apply IH.
    + intros z Hz. apply Hall. by right.
    + apply elem_of_cons in Hy as [->|Hy]; [congruence|eauto].
Qed.

(** X6.  For dimensions and a label array of the sizes an array can have
    (fewer than 2^32 rows, columns and labels), the constructor throws
    "missing label" when one of the labels it needs is not in the list, in
    particular when the list is shorter than [rows * cols]; no board is
    built. *)
Theorem construct_missing_label
    (nr nc : Z) (labels : list jsstring) (i j : Z) :
  nr < 2 ^ 32 → nc < 2 ^ 32 → Z.of_nat (length labels) < 2 ^ 32 →
  0 ≤ i < nr → 0 ≤ j < nc → nthZ labels (i * nc + j) = None →
  construct nr nc labels = inl MissingLabel.
Proof.
  intros _ _ _ Hi Hj Hnone. unfold construct.
  destruct (traverse _ (seqZ 0 nr)) as [e|g] eqn:Eg.
  - apply traverse_inl in Eg as (i' & _ & Hrow).
    apply traverse_inl in Hrow as (j' & _ & Hcell).
    destruct (nthZ labels (i' * nc + j')); [done|]. by injection Hcell as <-.
  - exfalso. apply traverse_inr in Eg.
    assert (seqZ 0 nr !! Z.to_nat i = Some i) as Hli
      by (apply lookup_seqZ; lia).
    destruct (Forall2_lookup_l _ _ _ _ _ Eg Hli) as (rw & _ & Hrow).
    apply traverse_inr in Hrow.
    assert (seqZ 0 nc !! Z.to_nat j = Some j) as Hlj
      by (apply lookup_seqZ; lia).
    destruct (Forall2_lookup_l _ _ _ _ _ Hrow Hlj) as (cell & _ & Hc).
    by rewrite Hnone in Hc.
Qed.

Lemma construct_missing_label_witness :
  2 < 2 ^ 32 ∧ Z.of_nat (length [js "A"; js "B"]) < 2 ^ 32
  ∧ 0 ≤ 1 < 2 ∧ 0 ≤ 0 < 2
  ∧ nthZ [js "A"; js "B"] (1 * 2 + 0) = None
  ∧ construct 2 2 [js "A"; js "B"] = inl MissingLabel.
Proof.
  assert (2 < 2 ^ 32) as Hb by (vm_compute; reflexivity).
  assert (Z.of_nat (length [js "A"; js "B"]) < 2 ^ 32) as Hl
    by (vm_compute; reflexivity).
  assert (0 ≤ 1 < 2) as H1 by lia. assert (0 ≤ 0 < 2) as H2 by lia.
  split; [exact Hb|]. split; [exact Hl|].
  split; [exact H1|]. split; [exact H2|]. split; [reflexivity|].
  exact (construct_missing_label 2 2 [js "A"; js "B"] 1 0 Hb Hb Hl
           H1 H2 eq_refl).
Defined.

Lemma traverse_fresh nr nc (labels : list jsstring) :
  (∀ i j, 0 ≤ i < nr → 0 ≤ j < nc → is_Some (nthZ labels (i * nc + j))) →
  traverse (λ i,
    traverse (λ j,
      match nthZ labels (i * nc + j) with
      | None => inl MissingLabel
      | Some l => inr (Some (newSlot l))
      end) (seqZ 0 nc)) (seqZ 0 nr) = inr (freshGrid nr nc labels).
Proof.
  intros Hlab. apply traverse_ok. intros i Hi%elem_of_seqZ.
  apply traverse_ok. intros j Hj%elem_of_seqZ.
  destruct (Hlab i j) as [l Hl]; [lia..|]. by rewrite Hl.
Qed.

Lemma cellOf_fresh nr nc (labels : list jsstring) i j :
  0 ≤ i < nr → 0 ≤ j < nc →
  cellOf (freshGrid nr nc labels) (mkPos i j)
  = Some (newSlot (default [] (nthZ labels (i * nc + j)))).
Proof.
  intros Hi Hj. unfold cellOf, freshGrid. simpl.
  rewrite nthZ_lookup by lia. rewrite list_lookup_fmap.
  rewrite (proj2 (lookup_seqZ 0 nr (Z.to_nat i) i)) by lia. simpl.
  rewrite nthZ_lookup by lia. rewrite list_lookup_fmap.
  rewrite (proj2 (lookup_seqZ 0 nc (Z.to_nat j) j)) by lia. done.
Qed.

Lemma shaped_fresh nr nc (labels : list jsstring) fs pd :
  0 ≤ nr → (0 < nr → 0 ≤ nc) →
  shaped (mkBoard nr nc (freshGrid nr nc labels) fs pd).
Proof.
  intros Hnr Hnc. split; simpl; unfold freshGrid.
  - rewrite length_fmap, length_seqZ. lia.
  - apply Forall_fmap, Forall_forall. intros i Hi%elem_of_seqZ. simpl.
    rewrite length_fmap, length_seqZ. lia.
Qed.

Lemma forEach_either {A} (xs : list A) body b e :
  (∀ x, x ∈ xs → body x b = (inr tt, b) ∨ body x b = (inl e, b)) →
  forEach xs body b = (inr tt, b) ∨ forEach xs body b = (inl e, b).
Proof.
  induction xs as [|x xs IH]; intros Hall; simpl; [by left|].
  unfold bind. destruct (Hall x) as [Hx|Hx]; [left|rewrite Hx..].
  - apply IH. intros z Hz. apply Hall. by right.
  - by right.
Qed.

(** X7.  When every label it needs is there but one of them is empty or
    contains white space, the constructor throws the "bad label" error of
    [checkRep], and no board is built. *)
Theorem construct_bad_label
    (nr nc : Z) (labels : list jsstring) (i j : Z) (l : jsstring) :
  (∀ i' j', 0 ≤ i' < nr → 0 ≤ j' < nc →
     is_Some (nthZ labels (i' * nc + j'))) →
  0 ≤ i < nr → 0 ≤ j < nc →
  nthZ labels (i * nc + j) = Some l → ¬ token l →
  construct nr nc labels = inl RIBadLabel.
Proof.
  intros Hlab Hi Hj Hl Hbad. unfold construct.
  rewrite traverse_fresh by done.
  set (b := mkBoard nr nc (freshGrid nr nc labels) ∅ ∅).
  assert (shaped b) as Hs by (apply shaped_fresh; lia).
  assert (checkRep b = (inl RIBadLabel, b)) as ->; [|done].
  rewrite checkRep_unfold. destruct Hs as [Hrows Hcols].
  rewrite decide_False by (rewrite Hrows; tauto).
  rewrite bind_run, forEach_ok.
  2:{ intros rw Hrw. rewrite Forall_forall in Hcols.
      by rewrite decide_False by (rewrite (Hcols rw Hrw); tauto). }
  rewrite bind_run.
  assert (∀ i' j', i' ∈ seqZ 0 nr → j' ∈ seqZ 0 nc →
    checkCell i' j' b
    = (if cardRe (default [] (nthZ labels (i' * nc + j')))
       then inr tt else inl RIBadLabel, b)) as Hcell.
  { intros i' j' Hi'%elem_of_seqZ Hj'%elem_of_seqZ.
    unfold checkCell. rewrite bind_run, getCell_mkPos.
    2:{ apply nthZ_is_Some. rewrite Hrows. simpl. lia. }
    unfold cellAt. simpl. rewrite cellOf_fresh by lia. simpl.
    by destruct (cardRe _). }
  rewrite (forEach_throw _ _ b RIBadLabel); [done| |].
  - intros i' Hi'. apply forEach_either. intros j' Hj'.
    rewrite Hcell by done. destruct (cardRe _); auto.
  - assert (i ∈ seqZ 0 nr) as Hi' by (apply elem_of_seqZ; lia).
    assert (j ∈ seqZ 0 nc) as Hj' by (apply elem_of_seqZ; lia).
    exists i. split; [done|].
    apply forEach_throw.
    + intros j' Hj''. rewrite Hcell by done.
      destruct (cardRe _); auto.
    + exists j. split; [done|].
      rewrite Hcell by done. rewrite Hl. simpl.
      destruct (cardRe l) eqn:E; [|done].
      by apply cardRe_token in E.
Qed.

Lemma construct_bad_label_witness :
  (∀ i' j', 0 ≤ i' < 1 → 0 ≤ j' < 2 →
     is_Some (nthZ [js "A"; js "B C"] (i' * 2 + j')))
  ∧ 0 ≤ 0 < 1 ∧ 0 ≤ 1 < 2
  ∧ nthZ [js "A"; js "B C"] (0 * 2 + 1) = Some (js "B C")
  ∧ ¬ token (js "B C")
  ∧ construct 1 2 [js "A"; js "B C"] = inl RIBadLabel.
Proof.
  assert (∀ i' j', 0 ≤ i' < 1 → 0 ≤ j' < 2 →
     is_Some (nthZ [js "A"; js "B C"] (i' * 2 + j'))) as H0.
  { intros i' j' Hi' Hj'. assert (i' = 0) as -> by lia.
    assert (j' = 0 ∨ j' = 1) as [-> | ->] by lia; vm_compute; eauto. }
  assert (0 ≤ 0 < 1) as H1 by lia. assert (0 ≤ 1 < 2) as H2 by lia.
  assert (¬ token (js "B C")) as H3.
  { intros Ht%cardRe_token. vm_compute in Ht. discriminate Ht. }
  split; [exact H0|]. split; [exact H1|]. split; [exact H2|].
  split; [reflexivity|]. split; [exact H3|].
  exact (construct_bad_label 1 2 [js "A"; js "B C"] 0 1 (js "B C")
           H0 H1 H2 eq_refl H3).
Defined.

(** ** The ways a call ends on a reachable board *)

Lemma flipFirst_cases pos p b :
  RI b →
  (∃ e, flipFirst pos p b = (inl e, settled p b)
        ∧ (e = OutOfBounds (r pos) (c pos) ∨ e = EmptySpace1A
           ∨ e = Controlled1D))
  ∨ (∃ s, cellAt (settled p b) pos = Some s
          ∧ (faceUp s = true → controller s = None ∨ controller s = Some p)
          ∧ flipFirst pos p b = (inr tt, firstFlipped pos p s b)).
Proof.
  intros HRI. destruct (withinb b pos) eqn:Hw.
  2:{ left. eexists. split; [by apply flipFirst_outside|auto]. }
  destruct (cellAt (settled p b) pos) as [s|] eqn:E.
  2:{ left. eexists. split; [by apply flipFirst_empty|auto]. }
  assert ((faceUp s = true → controller s = None ∨ controller s = Some p)
          ∨ (faceUp s = true ∧ ∃ other, controller s = Some other
                                        ∧ other ≠ p)) as [Hfree|Hctl].
  { destruct (faceUp s); [|by left].
    destruct (controller s) as [other|]; [|left; auto].
    destruct (decide (other = p)) as [->|Hne]; [left; auto|].
    right. eauto. }
  - right. exists s. split_and!; [done..|]. by apply flipFirst_taken.
  - left. destruct Hctl as (Hup & other & Hc & Hne). eexists.
    split; [by eapply flipFirst_controlled|auto].
Qed.

Lemma flipSecond_cases pos p b :
  Inv b →
  (firstSelection b !! p = None
   ∧ flipSecond pos p b = (inl NoFirstCard, b))
  ∨ (∃ fst e, firstSelection b !! p = Some fst
       ∧ (e = EmptySpace2A ∨ e = Controlled2B)
       ∧ flipSecond pos p b = (inl e, released fst p b))
  ∨ (∃ fst t1 t2, firstSelection b !! p = Some fst
       ∧ cellAt b fst = Some t1 ∧ cellAt b pos = Some t2
       ∧ faceUp t2 && bool_decide (controller t2 ≠ None) = false
       ∧ flipSecond pos p b = (inr tt, resolved pos fst p t1 t2 b)).
Proof.
  intros HI. destruct (firstSelection b !! p) as [fst|] eqn:Hf.
  2:{ left. split; [done|]. by apply flipSecond_nofirst. }
  right. destruct (inv_first b HI p fst Hf) as (t1 & E1 & _).
  destruct (cellAt b pos) as [t2|] eqn:E2.
  2:{ left. exists fst, EmptySpace2A. split_and!; auto.
      by apply flipSecond_empty. }
  destruct (faceUp t2 && bool_decide (controller t2 ≠ None)) eqn:Hc.
  - left. exists fst, Controlled2B. split_and!; auto.
    by eapply flipSecond_controlled.
  - right. exists fst, t1, t2. split_and!; try done.
    by apply flipSecond_resolved.
Qed.

Lemma snapshot_ok p b :
  shaped b → ∃ text, snapshot p b = (inr text, b).
Proof.
  intros Hs. rewrite snapshot_run, snapshotLines_run by done. eauto.
Qed.

(** X8.  On a reachable board no internal error surfaces: settlement and
    snapshots return normally, a first flip can only throw the
    out-of-bounds, 1-A or 1-D error, and a second flip can only throw the
    no-first-card, 2-A or 2-B error.  The representation checks and the
    "first selection missing" error are never raised. *)
Theorem reachable_calls_only_throw_rule_errors
    (b : Board) (p : Player) (pos : Pos) :
  reachable b →
  (settleBeforeNewFirstMove p b).1 = inr tt
  ∧ (∃ text, (snapshot p b).1 = inr text)
  ∧ ((flipFirst pos p b).1 = inr tt
     ∨ (flipFirst pos p b).1 = inl (OutOfBounds (r pos) (c pos))
     ∨ (flipFirst pos p b).1 = inl EmptySpace1A
     ∨ (flipFirst pos p b).1 = inl Controlled1D)
  ∧ ((flipSecond pos p b).1 = inr tt
     ∨ (flipSecond pos p b).1 = inl NoFirstCard
     ∨ (flipSecond pos p b).1 = inl EmptySpace2A
     ∨ (flipSecond pos p b).1 = inl Controlled2B).
Proof.
  intros HI%reachable_Inv. pose proof (inv_ri b HI) as HRI.
  split_and!.
  - by rewrite settle_run.
  - destruct (snapshot_ok p b (RI_shaped b HRI)) as [text ->]. eauto.
  - destruct (flipFirst_cases pos p b HRI)
      as [(e & -> & [-> |[-> | ->]])|(s & _ & _ & ->)]; auto.
  - destruct (flipSecond_cases pos p b HI)
      as [[_ ->]|[(fst & e & _ & [-> | ->] & ->)
                 |(fst & t1 & t2 & _ & _ & _ & _ & ->)]]; auto.
Qed.

Lemma reachable_calls_only_throw_rule_errors_witness :
  reachable demo2
  ∧ (settleBeforeNewFirstMove bob demo2).1 = inr tt
  ∧ (∃ text, (snapshot bob demo2).1 = inr text)
  ∧ ((flipFirst (mkPos 0 1) bob demo2).1 = inr tt
     ∨ (flipFirst (mkPos 0 1) bob demo2).1 = inl (OutOfBounds 0 1)
     ∨ (flipFirst (mkPos 0 1) bob demo2).1 = inl EmptySpace1A
     ∨ (flipFirst (mkPos 0 1) bob demo2).1 = inl Controlled1D)
  ∧ ((flipSecond (mkPos 0 1) bob demo2).1 = inr tt
     ∨ (flipSecond (mkPos 0 1) bob demo2).1 = inl NoFirstCard
     ∨ (flipSecond (mkPos 0 1) bob demo2).1 = inl EmptySpace2A
     ∨ (flipSecond (mkPos 0 1) bob demo2).1 = inl Controlled2B).
Proof.
  split; [exact demo2_reachable|].
  exact (reachable_calls_only_throw_rule_errors demo2 bob (mkPos 0 1)
           demo2_reachable).
Defined.

Lemma step_cases p b b' :
  Inv b → step p b b' →
  b' = b ∨ b' = settled p b
  ∨ (∃ pos s, cellAt (settled p b) pos = Some s
       ∧ (faceUp s = true → controller s = None ∨ controller s = Some p)
       ∧ b' = firstFlipped pos p s b)
  ∨ (∃ fst, firstSelection b !! p = Some fst ∧ b' = released fst p b)
  ∨ (∃ pos fst t1 t2, firstSelection b !! p = Some fst
       ∧ cellAt b fst = Some t1 ∧ cellAt b pos = Some t2
       ∧ faceUp t2 && bool_decide (controller t2 ≠ None) = false
       ∧ b' = resolved pos fst p t1 t2 b).
Proof.
  intros HI Hstep. pose proof (inv_ri b HI) as HRI.
  inversion Hstep as [b0|pos b0|pos b0|b0]; subst; unfold after.
  - right. left. by rewrite settle_run.
  - destruct (flipFirst_cases pos p b HRI)
      as [(e & -> & _)|(s & E & Hfree & ->)]; [auto|].
    right. right. left. eauto.
  - destruct (flipSecond_cases pos p b HI)
      as [[_ ->]|[(fst & e & Hf & _ & ->)
                 |(fst & t1 & t2 & Hf & E1 & E2 & Hc & ->)]]; [auto| |].
    + do 3 right. left. eauto.
    + do 4 right. exists pos, fst, t1, t2. by split_and!.
  - left. apply snapshot_state.
Qed.

(** ** What a call cannot do *)

Lemma settled_cell_label p b q s' :
  RI b → cellAt (settled p b) q = Some s' →
  ∃ s, cellAt b q = Some s ∧ label s' = label s.
Proof.
  intros HRI. rewrite cellAt_settled by done.
  destruct (mjoin (pending b !! p)) as [out|]; [|eauto].
  destruct (kind out).
  - case_decide; [done|eauto].
  - destruct (cellAt b q) as [s|]; [|done].
    destruct (decide (q = first out ∨ q = second out)); [|intros [= <-]; eauto].
    destruct (faceUp s && bool_decide (controller s = None));
      intros [= <-]; eauto.
Qed.

Lemma firstFlipped_frame pos p s b :
  rows (firstFlipped pos p s b) = rows b
  ∧ cols (firstFlipped pos p s b) = cols b
  ∧ firstSelection (firstFlipped pos p s b)
    = <[p := pos]> (firstSelection b)
  ∧ pending (firstFlipped pos p s b) = pending (settled p b).
Proof.
  destruct (settled_frame p b) as (Hr & Hc & Hf).
  destruct (takeCard_frame pos p s (settled p b)) as (Hr' & Hc' & Hf' & Hp').
  unfold firstFlipped. simpl. rewrite Hf. by split_and!; congruence.
Qed.

(** X9.  Whatever a call does on a reachable board, the grid keeps its
    dimensions and every card present afterwards was already there with
    the same label: labels never change and a removed card never comes
    back. *)
Theorem step_keeps_cards (p : Player) (b b' : Board) :
  reachable b → step p b b' →
  rows b' = rows b ∧ cols b' = cols b
  ∧ ∀ q s', cellAt b' q = Some s' →
      ∃ s, cellAt b q = Some s ∧ label s' = label s.
Proof.
  intros HI%reachable_Inv Hstep. pose proof (inv_ri b HI) as HRI.
  pose proof (Inv_shaped b HI) as Hs.
  destruct (step_cases p b b' HI Hstep)
    as [-> |[-> |[(pos & s & E & Hfree & ->)
                |[(fst & Hf & ->)
                 |(pos & fst & t1 & t2 & Hf & E1 & E2 & Hc & ->)]]]].
  - split_and!; eauto.
  - destruct (settled_frame p b) as (Hr & Hc & _).
    split_and!; [done..|]. intros q s'. by apply settled_cell_label.
  - destruct (firstFlipped_frame pos p s b) as (Hr & Hc & _).
    split_and!; [done..|]. intros q s'.
    rewrite cellAt_firstFlipped by done. case_decide as Hq.
    + subst q. intros [= <-]. simpl. by apply (settled_cell_label p).
    + by apply settled_cell_label.
  - destruct (inv_first b HI p fst Hf) as (t1 & E1 & _).
    split_and!; [done..|]. intros q s'.
    rewrite cellAt_released by (done || by eapply cellAt_within).
    case_decide; [|eauto]. destruct (cellAt b q) as [s|]; [|done].
    intros [= <-]. eauto.
  - destruct (resolved_frame pos fst p t1 t2 b) as [Hr Hc'].
    destruct (inv_first b HI p fst Hf) as (t1' & E1' & Hup1 & Hctl1).
    assert (t1' = t1) as -> by congruence.
    assert (fst ≠ pos) as Hne.
    { intros ->. assert (t2 = t1) as -> by congruence.
      rewrite Hup1, Hctl1 in Hc. done. }
    split_and!; [done..|]. intros q s'.
    rewrite cellAt_resolved by done. simpl.
    destruct (decide (q = pos)) as [->|]; [intros [= <-]; eauto|].
    destruct (decide (q = fst)) as [->|]; [intros [= <-]; eauto|eauto].
Qed.

Lemma step_keeps_cards_witness :
  reachable demo2
  ∧ step alice demo2 (after (flipFirst (mkPos 1 1) alice) demo2)
  ∧ rows (after (flipFirst (mkPos 1 1) alice) demo2) = rows demo2
  ∧ cols (after (flipFirst (mkPos 1 1) alice) demo2) = cols demo2
  ∧ ∀ q s', cellAt (after (flipFirst (mkPos 1 1) alice) demo2) q = Some s' →
      ∃ s, cellAt demo2 q = Some s ∧ label s' = label s.
Proof.
  split; [exact demo2_reachable|].
  split; [exact (step_flipFirst alice (mkPos 1 1) demo2)|].
  exact (step_keeps_cards alice demo2 _ demo2_reachable
           (step_flipFirst alice (mkPos 1 1) demo2)).
Defined.

Lemma settled_keeps_controlled p other b q s :
  Inv b → other ≠ p → cellAt b q = Some s →
  faceUp s = true → controller s = Some other →
  cellAt (settled p b) q = Some s.
Proof.
  intros HI Hne E Hup Hctl. rewrite cellAt_settled by apply (inv_ri b HI).
  destruct (mjoin (pending b !! p)) as [out|] eqn:Ep; [|done].
  apply pending_join in Ep. destruct (kind out) eqn:Hk.
  - rewrite decide_False; [done|]. intros Hq.
    destruct (inv_matched b HI p out q Ep Hk Hq) as (t & Et & _ & Hc).
    congruence.
  - rewrite E. case_decide; [|done]. by rewrite Hup, Hctl.
Qed.

(** X10.  A call made for player [p] on a reachable board leaves every
    other player alone: their first selection and recorded outcome are
    untouched, and every face-up card they control stays exactly as it
    was. *)
Theorem step_leaves_other_players (p other : Player) (b b' : Board) :
  reachable b → step p b b' → other ≠ p →
  firstSelection b' !! other = firstSelection b !! other
  ∧ pending b' !! other = pending b !! other
  ∧ ∀ q s, cellAt b q = Some s → faceUp s = true →
           controller s = Some other → cellAt b' q = Some s.
Proof.
  intros HI%reachable_Inv Hstep Hne. pose proof (inv_ri b HI) as HRI.
  pose proof (Inv_shaped b HI) as Hs.
  assert (pending (settled p b) !! other = pending b !! other) as Hps.
  { rewrite pending_settled. destruct (mjoin (pending b !! p)); [|done].
    by rewrite lookup_insert_ne. }
  destruct (step_cases p b b' HI Hstep)
    as [-> |[-> |[(pos & s0 & E & Hfree & ->)
                |[(fst & Hf & ->)
                 |(pos & fst & t1 & t2 & Hf & E1 & E2 & Hc & ->)]]]].
  - done.
  - destruct (settled_frame p b) as (_ & _ & Hfs). rewrite Hfs.
    split_and!; [done..|]. intros q s. by apply settled_keeps_controlled.
  - destruct (firstFlipped_frame pos p s0 b) as (_ & _ & Hfs & Hp).
    rewrite Hfs, Hp, lookup_insert_ne by done.
    split_and!; [done..|]. intros q s Eq Hup Hctl.
    pose proof (settled_keeps_controlled p other b q s HI Hne Eq Hup Hctl)
      as Eq'.
    rewrite cellAt_firstFlipped by done. rewrite decide_False; [done|].
    intros ->. assert (s0 = s) as -> by congruence.
    destruct (Hfree Hup); congruence.
  - destruct (inv_first b HI p fst Hf) as (t1 & E1 & _ & Hc1).
    unfold released at 1 2. simpl. rewrite lookup_delete_ne by done.
    split_and!; [done..|]. intros q s Eq Hup Hctl.
    rewrite cellAt_released by (done || by eapply cellAt_within).
    rewrite decide_False; [done|]. intros ->. congruence.
  - destruct (inv_first b HI p fst Hf) as (t1' & E1' & Hup1 & Hctl1).
    assert (t1' = t1) as -> by congruence.
    assert (fst ≠ pos) as Hnefp.
    { intros ->. assert (t2 = t1) as -> by congruence.
      rewrite Hup1, Hctl1 in Hc. done. }
    unfold resolved at 1 2. simpl.
    rewrite lookup_delete_ne, lookup_insert_ne by done.
    split_and!; [done..|]. intros q s Eq Hup Hctl.
    rewrite cellAt_resolved by done. simpl.
    rewrite decide_False.
    2:{ intros ->. assert (s = t2) as -> by congruence.
        rewrite Hup, Hctl in Hc. done. }
    rewrite decide_False; [done|]. intros ->. congruence.
Qed.

Lemma step_leaves_other_players_witness :
  reachable demo1
  ∧ step bob demo1 (after (flipFirst (mkPos 0 0) bob) demo1)
  ∧ alice ≠ bob
  ∧ firstSelection (after (flipFirst (mkPos 0 0) bob) demo1) !! alice
    = firstSelection demo1 !! alice
  ∧ pending (after (flipFirst (mkPos 0 0) bob) demo1) !! alice
    = pending demo1 !! alice
  ∧ ∀ q s, cellAt demo1 q = Some s → faceUp s = true →
           controller s = Some alice →
           cellAt (after (flipFirst (mkPos 0 0) bob) demo1) q = Some s.
Proof.
  assert (alice ≠ bob) as H by (vm_compute; discriminate).
  split; [exact demo1_reachable|].
  split; [exact (step_flipFirst bob (mkPos 0 0) demo1)|].
  split; [exact H|].
  exact (step_leaves_other_players bob alice demo1 _ demo1_reachable
           (step_flipFirst bob (mkPos 0 0) demo1) H).
Defined.

(** ** How calls compose *)

(** X11.  Settling twice is settling once: on a board that satisfies the
    representation invariant a second [settleBeforeNewFirstMove] for the
    same player returns normally and changes nothing. *)
Theorem settle_twice (p : Player) (b : Board) :
  RI b →
  settleBeforeNewFirstMove p (after (settleBeforeNewFirstMove p) b)
  = (inr tt, after (settleBeforeNewFirstMove p) b).
Proof.
  intros HRI. rewrite after_settle by done.
  rewrite settle_run by (by apply RI_settled).
  f_equal. unfold settled at 1. by rewrite settled_pending.
Qed.

Lemma settle_twice_witness :
  RI demo2
  ∧ settleBeforeNewFirstMove alice
      (after (settleBeforeNewFirstMove alice) demo2)
    = (inr tt, after (settleBeforeNewFirstMove alice) demo2).
Proof.
  assert (RI demo2) as H by (apply checkRep_sound; vm_compute; reflexivity).
  split; [exact H|]. exact (settle_twice alice demo2 H).
Defined.

Lemma flipFirst_other_cells pos p b q :
  RI b → q ≠ pos →
  cellAt (after (flipFirst pos p) b) q = cellAt (settled p b) q.
Proof.
  intros HRI Hq. unfold after.
  destruct (flipFirst_cases pos p b HRI)
    as [(e & -> & _)|(s & E & Hfree & ->)]; [done|]. simpl.
  by rewrite cellAt_firstFlipped, decide_False.
Qed.


Lemma flipFirst_face_down_cell pos p b s :
  RI b → cellAt (settled p b) pos = Some s → faceUp s = false →
  cellAt (after (flipFirst pos p) b) pos
  = Some (mkSlot (label s) true (Some p)).
Proof.
  intros HRI E Hd. unfold after.
  rewrite (flipFirst_taken pos p b s) by (done || by rewrite Hd). simpl.
  rewrite cellAt_firstFlipped by (done || by rewrite Hd).
  by rewrite decide_True.
Qed.



(** X13.  When a second flip has mismatched two cards and the very next
    call on the board is a first flip by the same player, with no call by
    anyone in between, that first flip turns both cards face down with no
    controller, except that a card the flip is aimed at is turned down and
    taken again at once: it ends face up and controlled by the player. *)
Theorem mismatch_then_first_flip
    (p : Player) (b : Board) (fst pos pos2 : Pos) (t1 t2 : Slot) :
  reachable b → firstSelection b !! p = Some fst →
  cellAt b fst = Some t1 → cellAt b pos = Some t2 →
  ¬ (faceUp t2 = true ∧ controller t2 ≠ None) →
  label t1 ≠ label t2 →
  cellAt (after (flipFirst pos2 p) (after (flipSecond pos p) b)) fst
  = Some (if decide (pos2 = fst) then mkSlot (label t1) true (Some p)
          else mkSlot (label t1) false None)
  ∧ cellAt (after (flipFirst pos2 p) (after (flipSecond pos p) b)) pos
    = Some (if decide (pos2 = pos) then mkSlot (label t2) true (Some p)
            else mkSlot (label t2) false None).
Proof.
  intros HI%reachable_Inv Hf E1 E2 Hfree Hdiff.
  pose proof (Inv_shaped b HI) as Hs.
  assert (faceUp t2 && bool_decide (controller t2 ≠ None) = false) as Hc.
  { apply not_true_is_false. intros [Hu Hn]%andb_prop.
    apply bool_decide_eq_true_1 in Hn. by apply Hfree. }
  destruct (inv_first b HI p fst Hf) as (t1' & E1' & Hup1 & Hctl1).
  assert (t1' = t1) as -> by congruence.
  assert (fst ≠ pos) as Hne.
  { intros ->. assert (t2 = t1) as -> by congruence.
    rewrite Hup1, Hctl1 in Hc. done. }
  unfold after at 2 4.
  rewrite (flipSecond_resolved pos fst p b t1 t2) by done. simpl.
  set (b1 := resolved pos fst p t1 t2 b).
  pose proof (Inv_resolve pos fst p t1 t2 b HI Hf E1 E2 Hc) as HI1.
  fold b1 in HI1. pose proof (inv_ri b1 HI1) as HRI1.
  assert (pending b1 !! p = Some (Some (mkOutcome mismatched fst pos))) as Hp.
  { unfold b1, resolved. simpl.
    rewrite bool_decide_eq_false_2 by done. apply lookup_insert_eq. }
  pose proof (λ q, cellAt_settled p b1 q HRI1) as Hcell.
  rewrite Hp in Hcell. simpl in Hcell.
  pose proof (λ q, cellAt_resolved pos fst p t1 t2 b q Hs E1 E2 Hup1 Hne)
    as Hres. simpl in Hres. fold b1 in Hres.
  rewrite bool_decide_eq_false_2 in Hres by done.
  assert (cellAt (settled p b1) fst = Some (mkSlot (label t1) false None))
    as S1.
  { rewrite Hcell, Hres. rewrite decide_False, decide_True by done.
    by rewrite decide_True by auto. }
  assert (cellAt (settled p b1) pos = Some (mkSlot (label t2) false None))
    as S2.
  { rewrite Hcell, Hres. rewrite decide_True by done.
    by rewrite decide_True by auto. }
  split.
  - case_decide as Hq.
    + subst pos2. by rewrite (flipFirst_face_down_cell _ _ _ _ HRI1 S1).
    + by rewrite flipFirst_other_cells by done.
  - case_decide as Hq.
    + subst pos2. by rewrite (flipFirst_face_down_cell _ _ _ _ HRI1 S2).
    + by rewrite flipFirst_other_cells by done.
Qed.

Lemma mismatch_then_first_flip_witness :
  reachable demo1
  ∧ firstSelection demo1 !! alice = Some (mkPos 0 0)
  ∧ cellAt demo1 (mkPos 0 0) = Some (mkSlot (js "A") true (Some alice))
  ∧ cellAt demo1 (mkPos 0 2) = Some (mkSlot (js "B") false None)
  ∧ ¬ (faceUp (mkSlot (js "B") false None) = true
       ∧ controller (mkSlot (js "B") false None) ≠ None)
  ∧ js "A" ≠ js "B"
  ∧ cellAt (after (flipFirst (mkPos 2 2) alice)
                  (after (flipSecond (mkPos 0 2) alice) demo1)) (mkPos 0 0)
    = Some (if decide (mkPos 2 2 = mkPos 0 0)
            then mkSlot (js "A") true (Some alice)
            else mkSlot (js "A") false None)
  ∧ cellAt (after (flipFirst (mkPos 2 2) alice)
                  (after (flipSecond (mkPos 0 2) alice) demo1)) (mkPos 0 2)
    = Some (if decide (mkPos 2 2 = mkPos 0 2)
            then mkSlot (js "B") true (Some alice)
            else mkSlot (js "B") false None).
Proof.
  assert (firstSelection demo1 !! alice = Some (mkPos 0 0)) as Hf
    by (vm_compute; reflexivity).
  assert (cellAt demo1 (mkPos 0 0) = Some (mkSlot (js "A") true (Some alice)))
    as E1 by (vm_compute; reflexivity).
  assert (cellAt demo1 (mkPos 0 2) = Some (mkSlot (js "B") false None)) as E2
    by (vm_compute; reflexivity).
  assert (¬ (faceUp (mkSlot (js "B") false None) = true
       ∧ controller (mkSlot (js "B") false None) ≠ None)) as Hn
    by (intros [Hu _]; discriminate Hu).
  assert (js "A" ≠ js "B") as Hd by (vm_compute; discriminate).
  split; [exact demo1_reachable|]. split; [exact Hf|]. split; [exact E1|].
  split; [exact E2|]. split; [exact Hn|]. split; [exact Hd|].
  exact (mismatch_then_first_flip alice demo1 (mkPos 0 0) (mkPos 0 2)
           (mkPos 2 2) _ _ demo1_reachable Hf E1 E2 Hn Hd).
Defined.

Lemma flipSecond_clears_first pos p b :
  Inv b → firstSelection (after (flipSecond pos p) b) !! p = None.
Proof.
  intros HI. unfold after.
  destruct (flipSecond_cases pos p b HI)
    as [[Hf ->]|[(fst & e & _ & _ & ->)
                |(fst & t1 & t2 & _ & _ & _ & _ & ->)]]; simpl.
  - done.
  - apply lookup_delete_eq.
  - apply lookup_delete_eq.
Qed.

(** X14.  A second flip always ends the turn: after any second flip by
    [p] on a reachable board (successful or not), a further second flip by
    [p] throws the no-first-card error and changes nothing. *)
Theorem flipSecond_twice (p : Player) (b : Board) (pos pos2 : Pos) :
  reachable b →
  flipSecond pos2 p (after (flipSecond pos p) b)
  = (inl NoFirstCard, after (flipSecond pos p) b).
Proof.
  intros HI%reachable_Inv. apply flipSecond_nofirst.
  by apply flipSecond_clears_first.
Qed.

Lemma flipSecond_twice_witness :
  reachable demo1
  ∧ flipSecond (mkPos 1 1) alice (after (flipSecond (mkPos 0 1) alice) demo1)
    = (inl NoFirstCard, after (flipSecond (mkPos 0 1) alice) demo1).
Proof.
  split; [exact demo1_reachable|].
  exact (flipSecond_twice alice demo1 (mkPos 0 1) (mkPos 1 1)
           demo1_reachable).
Defined.

(** ** The commands *)

Lemma flipFirst_first_selection pos p b :
  RI b →
  firstSelection (after (flipFirst pos p) b)
  = if (flipFirst pos p b).1 is inr _ then <[p := pos]> (firstSelection b)
    else firstSelection b.
Proof.
  intros HRI. unfold after.
  destruct (settled_frame p b) as (_ & _ & Hf).
  destruct (flipFirst_cases pos p b HRI)
    as [(e & -> & _)|(s & E & Hfree & ->)]; cbn [fst snd]; [done|].
  by destruct (firstFlipped_frame pos p s b) as (_ & _ & -> & _).
Qed.

Lemma flip_run p i j b :
  Inv b →
  Commands.flip p i j b
  = let m := if bool_decide (is_Some (firstSelection b !! p))
             then flipSecond (mkPos i j) p else flipFirst (mkPos i j) p in
    match (m b).1 with
    | inr _ => snapshot p (after m b)
    | inl e => (inl e, after m b)
    end.
Proof.
  intros HI. unfold Commands.flip, hasFirstSelection, after.
  cbv beta iota zeta delta [mbind M_bind bind gets].
  destruct (bool_decide (is_Some (firstSelection b !! p))).
  - by destruct (flipSecond (mkPos i j) p b) as [[e|[]] b'].
  - by destruct (flipFirst (mkPos i j) p b) as [[e|[]] b'].
Qed.

Lemma flip_leaves (p : Player) (i j : Z) (b : Board) :
  reachable b →
  reachable (after (Commands.flip p i j) b)
  ∧ after (Commands.flip p i j) b
    = (if decide (is_Some (firstSelection b !! p))
       then after (flipSecond (mkPos i j) p) b
       else after (flipFirst (mkPos i j) p) b)
  ∧ (∀ text, (Commands.flip p i j b).1 = inr text →
       snapshot p (after (Commands.flip p i j) b)
       = (inr text, after (Commands.flip p i j) b))
  ∧ (is_Some (firstSelection (after (Commands.flip p i j) b) !! p)
     ↔ firstSelection b !! p = None
       ∧ ∃ text, (Commands.flip p i j b).1 = inr text).
Proof.
  intros Hreach. pose proof (reachable_Inv b Hreach) as HI.
  pose proof (inv_ri b HI) as HRI.
  pose proof (flip_run p i j b HI) as Hrun. cbv zeta in Hrun.
  destruct (firstSelection b !! p) as [fst|] eqn:Hf.
  - rewrite bool_decide_eq_true_2 in Hrun by eauto.
    rewrite decide_True by eauto.
    pose proof (flipSecond_Inv (mkPos i j) p b HI) as HI'.
    pose proof (flipSecond_clears_first (mkPos i j) p b HI) as Hnone.
    destruct (snapshot_ok p _ (Inv_shaped _ HI')) as [text Hsnap].
    assert (after (Commands.flip p i j) b
            = after (flipSecond (mkPos i j) p) b) as Hb.
    { unfold after at 1. rewrite Hrun.
      destruct ((flipSecond (mkPos i j) p b).1); [done|].
      by rewrite Hsnap. }
    rewrite Hb. split_and!.
    + by apply reach_flipSecond.
    + done.
    + intros text' Ht. rewrite Hrun in Ht.
      destruct ((flipSecond (mkPos i j) p b).1); [done|].
      rewrite Hsnap in Ht |- *. simpl in Ht. congruence.
    + rewrite Hnone. split; [by intros [? ?]|by intros [? _]].
  - rewrite bool_decide_eq_false_2 in Hrun by (by intros [? ?]).
    rewrite decide_False by (by intros [? ?]).
    pose proof (flipFirst_Inv (mkPos i j) p b HI) as HI'.
    pose proof (flipFirst_first_selection (mkPos i j) p b HRI) as Hfs.
    destruct (snapshot_ok p _ (Inv_shaped _ HI')) as [text Hsnap].
    assert (after (Commands.flip p i j) b
            = after (flipFirst (mkPos i j) p) b) as Hb.
    { unfold after at 1. rewrite Hrun.
      destruct ((flipFirst (mkPos i j) p b).1); [done|].
      by rewrite Hsnap. }
    rewrite Hb. split_and!.
    + by apply reach_flipFirst.
    + done.
    + intros text' Ht. rewrite Hrun in Ht.
      destruct ((flipFirst (mkPos i j) p b).1); [done|].
      rewrite Hsnap in Ht |- *. simpl in Ht. congruence.
    + rewrite Hfs, Hrun.
      destruct ((flipFirst (mkPos i j) p b).1) as [e|[]].
      * rewrite Hf. split; [by intros [? ?]|by intros [_ [? ?]]].
      * rewrite lookup_insert_eq, Hsnap. split; eauto.
Qed.

(** X15.  The [flip] command on a reachable board makes a second flip
    when the player holds a first card and a first flip otherwise, and the
    board it leaves, the one that flip leaves, is reachable.  When the
    flip throws, the command throws the same error; when the flip returns
    normally, the command returns a text, the snapshot of the board it
    leaves.  Afterwards the player holds a first card if and only if the
    player held none before and the command succeeded: successful flips
    alternate between first and second, and a failed flip always leaves
    the player without a first card. *)
Theorem flip_command (p : Player) (i j : Z) (b : Board) :
  reachable b →
  reachable (after (Commands.flip p i j) b)
  ∧ after (Commands.flip p i j) b
    = (if decide (is_Some (firstSelection b !! p))
       then after (flipSecond (mkPos i j) p) b
       else after (flipFirst (mkPos i j) p) b)
  ∧ match (if decide (is_Some (firstSelection b !! p))
           then flipSecond (mkPos i j) p b
           else flipFirst (mkPos i j) p b).1 with
    | inl e => (Commands.flip p i j b).1 = inl e
    | inr _ => ∃ text, (Commands.flip p i j b).1 = inr text
    end
  ∧ (∀ text, (Commands.flip p i j b).1 = inr text →
       snapshot p (after (Commands.flip p i j) b)
       = (inr text, after (Commands.flip p i j) b))
  ∧ (is_Some (firstSelection (after (Commands.flip p i j) b) !! p)
     ↔ firstSelection b !! p = None
       ∧ ∃ text, (Commands.flip p i j b).1 = inr text).
Proof.
  intros Hreach. pose proof (reachable_Inv b Hreach) as HI.
  destruct (flip_leaves p i j b Hreach) as (H1 & H2 & H3 & H4).
  split_and!; try done.
  pose proof (flip_run p i j b HI) as Hrun. cbv zeta in Hrun.
  destruct (decide (is_Some (firstSelection b !! p))) as [Hf|Hf].
  - rewrite bool_decide_eq_true_2 in Hrun by done. rewrite Hrun.
    destruct ((flipSecond (mkPos i j) p b).1) as [e|[]] eqn:E; [done|].
    pose proof (flipSecond_Inv (mkPos i j) p b HI) as HI'.
    destruct (snapshot_ok p _ (Inv_shaped _ HI')) as [text ->]. eauto.
  - rewrite bool_decide_eq_false_2 in Hrun by done. rewrite Hrun.
    destruct ((flipFirst (mkPos i j) p b).1) as [e|[]] eqn:E; [done|].
    pose proof (flipFirst_Inv (mkPos i j) p b HI) as HI'.
    destruct (snapshot_ok p _ (Inv_shaped _ HI')) as [text ->]. eauto.
Qed.

Lemma flip_command_witness :
  reachable demo1
  ∧ Commands.flip bob 0 0 demo1 = (inl Controlled1D, demo1)
  ∧ Commands.flip alice 0 0 demo1
    = (inl Controlled2B, after (flipSecond (mkPos 0 0) alice) demo1)
  ∧ (∃ text, (Commands.flip alice 0 1 demo1).1 = inr text)
  ∧ reachable (after (Commands.flip alice 0 1) demo1)
  ∧ after (Commands.flip alice 0 1) demo1
    = (if decide (is_Some (firstSelection demo1 !! alice))
       then after (flipSecond (mkPos 0 1) alice) demo1
       else after (flipFirst (mkPos 0 1) alice) demo1)
  ∧ match (if decide (is_Some (firstSelection demo1 !! alice))
           then flipSecond (mkPos 0 1) alice demo1
           else flipFirst (mkPos 0 1) alice demo1).1 with
    | inl e => (Commands.flip alice 0 1 demo1).1 = inl e
    | inr _ => ∃ text, (Commands.flip alice 0 1 demo1).1 = inr text
    end
  ∧ (∀ text, (Commands.flip alice 0 1 demo1).1 = inr text →
       snapshot alice (after (Commands.flip alice 0 1) demo1)
       = (inr text, after (Commands.flip alice 0 1) demo1))
  ∧ (is_Some (firstSelection (after (Commands.flip alice 0 1) demo1) !! alice)
     ↔ firstSelection demo1 !! alice = None
       ∧ ∃ text, (Commands.flip alice 0 1 demo1).1 = inr text).
Proof.
  split; [exact demo1_reachable|].
  split; [vm_compute; reflexivity|].
  split; [vm_compute; reflexivity|].
  split; [eexists; vm_compute; reflexivity|].
  exact (flip_command alice 0 1 demo1 demo1_reachable).
Defined.

(** X16.  [look], [watch] and [map] (whatever transformer it is given)
    only read: on a reachable board each returns normally, all three give
    the same text, namely the one the [flip] command that produced the
    board answered with, and the board and its labels stay as they are. *)
Theorem look_after_flip
    (T : Type) (transform : T) (p : Player) (i j : Z) (b b' : Board)
    (text : jsstring) :
  reachable b → Commands.flip p i j b = (inr text, b') →
  Commands.look p b' = (inr text, b')
  ∧ Commands.watch p b' = (inr text, b')
  ∧ Commands.map p transform b' = (inr text, b').
Proof.
  intros Hreach Hflip.
  destruct (flip_leaves p i j b Hreach) as (_ & _ & Hsnap & _).
  specialize (Hsnap text). unfold after in Hsnap.
  rewrite Hflip in Hsnap. specialize (Hsnap eq_refl).
  cbn [fst snd] in Hsnap.
  unfold Commands.look, Commands.watch, Commands.map.
  by rewrite Hsnap.
Qed.

Lemma look_after_flip_witness :
  reachable demo0
  ∧ (∃ text b', Commands.flip alice 0 0 demo0 = (inr text, b')
       ∧ Commands.look alice b' = (inr text, b')
       ∧ Commands.watch alice b' = (inr text, b')
       ∧ Commands.map alice isSpace b' = (inr text, b')).
Proof.
  split; [exact demo0_reachable|].
  destruct (Commands.flip alice 0 0 demo0) as [[e|text] b'] eqn:E.
  - exfalso. vm_compute in E. discriminate E.
  - exists text, b'. split; [reflexivity|].
    exact (look_after_flip _ isSpace alice 0 0 demo0 b' text
             demo0_reachable E).
Defined.

(** ** The lines of a board file *)

Lemma replaceCRLF_cons_ne u rest :
  u ≠ 13%N → replaceCRLF (u :: rest) = u :: replaceCRLF rest.
Proof.
  intros Hu. simpl. destruct rest as [|v rest']; [done|].
  by rewrite (proj2 (N.eqb_neq u 13) Hu).
Qed.

Lemma replaceCRLF_CR_LF rest :
  replaceCRLF (13%N :: 10%N :: rest) = 10%N :: replaceCRLF rest.
Proof. reflexivity. Qed.

Lemma replaceCRLF_CR_other v rest :
  v ≠ 10%N →
  replaceCRLF (13%N :: v :: rest) = 13%N :: replaceCRLF (v :: rest).
Proof.
  intros Hv. cbn [replaceCRLF]. simpl.
  by rewrite (proj2 (N.eqb_neq v 10) Hv).
Qed.

Lemma replaceCRLF_app (l t : jsstring) :
  Forall (λ u, u ≠ 13%N) l → replaceCRLF (l ++ t) = l ++ replaceCRLF t.
Proof.
  induction 1 as [|u l Hu _ IH]; [done|].
  rewrite <- app_comm_cons, replaceCRLF_cons_ne by done. by rewrite IH.
Qed.

(** A property of every string and of every string with one more code
    unit in front holds of every string: the induction that follows the
    two-step recursion of [replaceCRLF]. *)
Lemma replaceCRLF_ind (P : jsstring → Prop) :
  P [] → (∀ u, P [u]) →
  (∀ u v s, P s → P (v :: s) → P (u :: v :: s)) →
  ∀ s, P s.
Proof.
  intros H0 H1 H2 s.
  assert (P s ∧ ∀ u, P (u :: s)) as [? _]; [|done].
  induction s as [|v s [IH1 IH2]]; [by split|].
  split; [apply IH2|]. intros u. apply H2; [done|apply IH2].
Qed.

Lemma replaceCRLF_Forall (P : N → Prop) s :
  P 10%N → Forall P s → Forall P (replaceCRLF s).
Proof.
  intros H10. induction s as [|u|u v s IH1 IH2] using replaceCRLF_ind;
    [done..|].
  intros HF. inversion HF as [|? ? Hu HF']; subst.
  inversion HF' as [|? ? Hv HF'']; subst.
  cbn [replaceCRLF]. destruct ((u =? 13) && (v =? 10))%N.
  - constructor; [done|]. by apply IH1.
  - constructor; [done|]. by apply IH2.
Qed.

Lemma replaceCRLF_keeps s u :
  u ∈ s → u ≠ 13%N → u ≠ 10%N → u ∈ replaceCRLF s.
Proof.
  intros Hin Hu Hu'. revert Hin.
  induction s as [|w|w v s IH1 IH2] using replaceCRLF_ind; [done..|].
  intros Hin. cbn [replaceCRLF].
  destruct ((w =? 13) && (v =? 10))%N eqn:E.
  - apply andb_prop in E as [Ew%N.eqb_eq Ev%N.eqb_eq]. subst.
    right. apply IH1.
    apply elem_of_cons in Hin as [?|Hin]; [done|].
    apply elem_of_cons in Hin as [?|Hin]; done.
  - apply elem_of_cons in Hin as [->|Hin]; [left|right; by apply IH2].
Qed.

Lemma replaceCR_Forall s : Forall (λ u, u ≠ 13%N) (replaceCR s).
Proof.
  unfold replaceCR. apply Forall_fmap, Forall_forall. intros u _. simpl.
  destruct (u =? 13)%N eqn:E; [done|]. by apply N.eqb_neq.
Qed.

Lemma replaceCR_id s : Forall (λ u, u ≠ 13%N) s → replaceCR s = s.
Proof.
  unfold replaceCR. induction 1 as [|u s Hu _ IH]; [done|].
  rewrite fmap_cons, IH. by rewrite (proj2 (N.eqb_neq u 13) Hu).
Qed.

Lemma replaceCR_app s t : replaceCR (s ++ t) = replaceCR s ++ replaceCR t.
Proof. unfold replaceCR. apply fmap_app. Qed.

Lemma splitLines_app_nl (l t : jsstring) :
  Forall (λ u, u ≠ 10%N) l → splitLines (l ++ 10%N :: t) = l :: splitLines t.
Proof.
  induction 1 as [|u l Hu _ IH]; [done|].
  rewrite <- app_comm_cons. cbn [splitLines].
  by rewrite (proj2 (N.eqb_neq u 10) Hu), IH.
Qed.

Lemma splitLines_clean (l : jsstring) :
  Forall (λ u, u ≠ 10%N) l → splitLines l = [l].
Proof.
  induction 1 as [|u l Hu _ IH]; [done|]. cbn [splitLines].
  by rewrite (proj2 (N.eqb_neq u 10) Hu), IH.
Qed.

Lemma splitLines_lines s :
  Forall (λ l, Forall (λ u, u ≠ 10%N ∧ u ∈ s) l) (splitLines s).
Proof.
  induction s as [|u s IH]; [by repeat constructor|].
  assert (Forall (λ l, Forall (λ v, v ≠ 10%N ∧ v ∈ u :: s) l)
            (splitLines s)) as IH'.
  { eapply Forall_impl; [exact IH|]. intros l Hl.
    eapply Forall_impl; [exact Hl|]. intros v [? ?]. split; [done|by right]. }
  cbn [splitLines]. destruct (u =? 10)%N eqn:E.
  - by constructor.
  - apply N.eqb_neq in E. destruct (splitLines s) as [|l ls].
    + constructor; [|constructor]. constructor; [|constructor].
      split; [done|left].
    + inversion IH' as [|? ? Hl Hls]; subst.
      constructor; [|done]. constructor; [|done]. split; [done|left].
Qed.

Lemma splitLines_covers s u :
  u ∈ s → u ≠ 10%N → ∃ l, l ∈ splitLines s ∧ u ∈ l.
Proof.
  intros Hin Hu. induction s as [|w s IH]; [by apply elem_of_nil in Hin|].
  cbn [splitLines]. destruct (w =? 10)%N eqn:E.
  - apply N.eqb_eq in E. subst w.
    apply elem_of_cons in Hin as [?|Hin]; [done|].
    destruct (IH Hin) as (l & Hl & Hul). exists l. split; [by right|done].
  - apply elem_of_cons in Hin as [->|Hin].
    + destruct (splitLines s) as [|l ls]; eexists; (split; [left|left]).
    + destruct (IH Hin) as (l & Hl & Hul).
      destruct (splitLines s) as [|l0 ls]; [by apply elem_of_nil in Hl|].
      apply elem_of_cons in Hl as [->|Hl].
      * exists (w :: l0). split; [left|by right].
      * exists l. split; [by right|done].
Qed.

(** X17.  Every line the parser works on is non-empty and contains
    neither a line feed nor a carriage return, whatever the text. *)
Theorem fileLines_clean (text line : jsstring) :
  line ∈ fileLines text →
  line ≠ [] ∧ Forall (λ u, u ≠ 10%N ∧ u ≠ 13%N) line.
Proof.
  unfold fileLines. intros [Hlen Hin]%list_elem_of_filter.
  split; [by destruct line; simpl in *; [lia|]|].
  pose proof (splitLines_lines (replaceCR (replaceCRLF text))) as HF.
  rewrite Forall_forall in HF. specialize (HF line Hin).
  eapply Forall_impl; [exact HF|]. intros u [Hu Hin']. split; [done|].
  pose proof (replaceCR_Forall (replaceCRLF text)) as H13.
  rewrite Forall_forall in H13. by apply H13.
Qed.

Lemma fileLines_clean_witness :
  js "3x3" ∈ fileLines demoText
  ∧ js "3x3" ≠ [] ∧ Forall (λ u, u ≠ 10%N ∧ u ≠ 13%N) (js "3x3").
Proof.
  assert (js "3x3" ∈ fileLines demoText) as H by (vm_compute; left).
  split; [exact H|]. exact (fileLines_clean demoText (js "3x3") H).
Defined.

Lemma fileLines_split_cons (l t : jsstring) :
  Forall (λ u, u ≠ 10%N) l →
  filter (λ x : jsstring, (0 < length x)%nat) (l :: splitLines t)
  = (if l is [] then [] else [l])
    ++ filter (λ x : jsstring, (0 < length x)%nat) (splitLines t).
Proof.
  intros _. destruct l as [|u l].
  - rewrite filter_cons_False; [done|]. simpl. lia.
  - rewrite filter_cons_True; [done|]. simpl. lia.
Qed.

(** X18.  The three line endings are interchangeable and blank lines do
    not count: a text that starts with a line [l] (free of line feeds and
    carriage returns) ended by LF, CR or CR LF has the lines of the rest of
    the text, preceded by [l] unless [l] is empty; and a text that is just
    such a line, with no line ending, has that one line. *)
Theorem fileLines_line_endings (l sep rest : jsstring) :
  Forall (λ u, u ≠ 10%N ∧ u ≠ 13%N) l →
  sep = [10%N] ∨ sep = [13%N] ∨ sep = [13%N; 10%N] →
  fileLines (l ++ sep ++ rest)
  = (if l is [] then [] else [l]) ++ fileLines rest
  ∧ fileLines l = (if l is [] then [] else [l]).
Proof.
  intros Hl Hsep.
  assert (Forall (λ u, u ≠ 10%N) l) as H10
    by (eapply Forall_impl; [exact Hl|]; by intros u [? ?]).
  assert (Forall (λ u, u ≠ 13%N) l) as H13
    by (eapply Forall_impl; [exact Hl|]; by intros u [? ?]).
  split.
  - unfold fileLines. rewrite replaceCRLF_app, replaceCR_app by done.
    rewrite (replaceCR_id l) by done.
    assert (∀ t, filter (λ x : jsstring, (0 < length x)%nat)
                   (splitLines (l ++ 10%N :: t))
                 = (if l is [] then [] else [l])
                   ++ filter (λ x : jsstring, (0 < length x)%nat)
                        (splitLines t)) as Hcut.
    { intros t. rewrite splitLines_app_nl by done.
      by apply fileLines_split_cons. }
    destruct Hsep as [-> |[-> | ->]].
    + change ([10%N] ++ rest) with (10%N :: rest).
      rewrite replaceCRLF_cons_ne by done. apply Hcut.
    + change ([13%N] ++ rest) with (13%N :: rest).
      destruct rest as [|v rest']; [apply Hcut|].
      destruct (decide (v = 10%N)) as [->|Hv].
      * rewrite replaceCRLF_CR_LF. rewrite (replaceCRLF_cons_ne 10) by done.
        change (replaceCR (10%N :: ?x)) with (10%N :: replaceCR x).
        rewrite Hcut. by f_equal.
      * rewrite replaceCRLF_CR_other by done. apply Hcut.
    + change ([13%N; 10%N] ++ rest) with (13%N :: 10%N :: rest).
      rewrite replaceCRLF_CR_LF. apply Hcut.
  - unfold fileLines.
    pose proof (replaceCRLF_app l [] H13) as Hr. rewrite !app_nil_r in Hr.
    rewrite Hr, replaceCR_id, splitLines_clean by done.
    destruct l as [|u l]; [by rewrite filter_cons_False by (simpl; lia)|].
    by rewrite filter_cons_True by (simpl; lia).
Qed.

Lemma fileLines_line_endings_witness :
  Forall (λ u, u ≠ 10%N ∧ u ≠ 13%N) (js "2x1")
  ∧ ([13%N] = [10%N] ∨ [13%N] = [13%N] ∨ [13%N] = [13%N; 10%N])
  ∧ fileLines (js "2x1" ++ [13%N] ++ (nl ++ js "A" ++ nl ++ js "B"))
    = [js "2x1"] ++ fileLines (nl ++ js "A" ++ nl ++ js "B")
  ∧ fileLines (js "2x1") = [js "2x1"].
Proof.
  assert (Forall (λ u, u ≠ 10%N ∧ u ≠ 13%N) (js "2x1")) as H
    by (vm_compute; repeat constructor; discriminate).
  assert ([13%N] = [10%N] ∨ [13%N] = [13%N] ∨ [13%N] = [13%N; 10%N]) as H'
    by (right; left; reflexivity).
  split; [exact H|]. split; [exact H'|].
  exact (fileLines_line_endings (js "2x1") [13%N]
           (nl ++ js "A" ++ nl ++ js "B") H H').
Defined.

(** ** The diagnostics of the parser *)

Lemma splitLines_blank s :
  Forall (λ u, u = 10%N) s → Forall (λ l, l = []) (splitLines s).
Proof.
  induction 1 as [|u s -> _ IH]; [by repeat constructor|].
  cbn [splitLines]. simpl. by constructor.
Qed.

Lemma filter_blank (ls : list jsstring) :
  Forall (λ l, l = []) ls →
  filter (λ x : jsstring, (0 < length x)%nat) ls = [].
Proof.
  induction 1 as [|l ls -> _ IH]; [done|].
  rewrite filter_cons_False; [done|]. simpl. lia.
Qed.

Lemma fileLines_nil_iff text :
  fileLines text = [] ↔ Forall (λ u, u = 10%N ∨ u = 13%N) text.
Proof.
  unfold fileLines. split.
  - intros Hnil. apply Forall_forall. intros u Hu.
    destruct (decide (u = 10%N)) as [|H10]; [by left|].
    destruct (decide (u = 13%N)) as [|H13]; [by right|]. exfalso.
    assert (u ∈ replaceCR (replaceCRLF text)) as Hin.
    { unfold replaceCR. apply list_elem_of_fmap. exists u.
      split; [by rewrite (proj2 (N.eqb_neq u 13) H13)|].
      by apply replaceCRLF_keeps. }
    destruct (splitLines_covers _ u Hin H10) as (l & Hl & Hul).
    assert (l ∈ filter (λ x : jsstring, (0 < length x)%nat)
                  (splitLines (replaceCR (replaceCRLF text)))) as Hf.
    { apply list_elem_of_filter. split; [|done].
      destruct l; [by apply elem_of_nil in Hul|simpl; lia]. }
    rewrite Hnil in Hf. by apply elem_of_nil in Hf.
  - intros HF. apply filter_blank, splitLines_blank.
    apply (replaceCRLF_Forall _ _ (or_introl eq_refl)) in HF.
    unfold replaceCR. apply Forall_fmap. eapply Forall_impl; [exact HF|].
    intros u [-> | ->]; reflexivity.
Qed.

Lemma checkCards_inl_card cards e :
  checkCards cards = inl e → ∃ card, e = InvalidCard card.
Proof.
  induction cards as [|card cards IH]; simpl; [done|].
  destruct (cardRe card); [done|]. intros [= <-]. eauto.
Qed.

(** The parser, with its checks read as properties of the lines. *)
Lemma parseFromFile_checked text m1 m2 cards :
  fileLines text = (m1 ++ js "x" ++ m2) :: cards →
  digits m1 → digits m2 →
  parseFromFile text
  = if negb (isFinite (parseInt m1)) || negb (isFinite (parseInt m2))
       || (parseInt m1 <=? 0) || (parseInt m2 <=? 0)
    then inl NotPositive
    else if negb (Z.of_nat (length cards) =? parseInt m1 * parseInt m2)
    then inl (CardCount (parseInt m1 * parseInt m2)
                (Z.of_nat (length cards)))
    else match checkCards cards with
         | inl e => inl e
         | inr _ => construct (parseInt m1) (parseInt m2) cards
         end.
Proof.
  intros El Hd1 Hd2. unfold parseFromFile.
  by rewrite El, headerRe_complete.
Qed.

Lemma parseFromFile_inr text b :
  parseFromFile text = inr b →
  ∃ m1 m2 cards,
    fileLines text = (m1 ++ js "x" ++ m2) :: cards
    ∧ digits m1 ∧ digits m2
    ∧ 0 < parseInt m1 < 2 ^ 1024 - 2 ^ 970
    ∧ 0 < parseInt m2 < 2 ^ 1024 - 2 ^ 970
    ∧ Z.of_nat (length cards) = parseInt m1 * parseInt m2
    ∧ Forall token cards
    ∧ construct (parseInt m1) (parseInt m2) cards = inr b.
Proof.
  unfold parseFromFile.
  destruct (fileLines text) as [|header cards] eqn:El; [done|].
  destruct (headerRe header) as [[m1 m2]|] eqn:Eh; [|done].
  apply headerRe_spec in Eh as (-> & Hd1 & Hd2). cbv zeta.
  destruct (negb (isFinite (parseInt m1)) || negb (isFinite (parseInt m2))
            || (parseInt m1 <=? 0) || (parseInt m2 <=? 0)) eqn:Epos; [done|].
  apply orb_false_elim in Epos as [Epos H2%Z.leb_gt].
  apply orb_false_elim in Epos as [Epos H1%Z.leb_gt].
  apply orb_false_elim in Epos as [F1%negb_false_iff F2%negb_false_iff].
  apply Z.ltb_lt in F1, F2.
  destruct (Z.of_nat (length cards) =? parseInt m1 * parseInt m2) eqn:Ec;
    [|done]. apply Z.eqb_eq in Ec. simpl.
  destruct (checkCards cards) as [e|[]] eqn:Ek; [done|].
  apply checkCards_inr in Ek. intros Hb.
  exists m1, m2, cards. by split_and!.
Qed.

(** X19.  The parser reports a missing header exactly for the texts that
    contain nothing but line feeds and carriage returns, the empty text
    among them. *)
Theorem parseFromFile_missing_header (text : jsstring) :
  parseFromFile text = inl MissingHeader
  ↔ Forall (λ u, u = 10%N ∨ u = 13%N) text.
Proof.
  rewrite <- fileLines_nil_iff. split.
  - unfold parseFromFile.
    destruct (fileLines text) as [|header cards] eqn:El; [done|].
    destruct (headerRe header) as [[m1 m2]|] eqn:Eh; [|done]. cbv zeta.
    destruct (negb (isFinite (parseInt m1)) || negb (isFinite (parseInt m2))
              || (parseInt m1 <=? 0) || (parseInt m2 <=? 0)) eqn:Epos;
      [done|].
    apply orb_false_elim in Epos as [Epos H2%Z.leb_gt].
    apply orb_false_elim in Epos as [_ H1%Z.leb_gt].
    destruct (Z.of_nat (length cards) =? parseInt m1 * parseInt m2) eqn:Ec;
      [|done]. apply Z.eqb_eq in Ec. simpl.
    destruct (checkCards cards) as [e|[]] eqn:Ek.
    { apply checkCards_inl_card in Ek as [card ->]. done. }
    apply checkCards_inr in Ek.
    destruct (construct_tokens (parseInt m1) (parseInt m2) cards)
      as [b ->]; [lia..|done|done].
  - intros El. unfold parseFromFile. by rewrite El.
Qed.

(** X20.  When the first non-empty line is not one or more digits, an
    [x], and one or more digits, with nothing else, the parser throws the
    malformed-header diagnostic, which quotes that line. *)
Theorem parseFromFile_malformed_header
    (text header : jsstring) (cards : list jsstring) :
  fileLines text = header :: cards →
  ¬ (∃ m1 m2, header = m1 ++ js "x" ++ m2 ∧ digits m1 ∧ digits m2) →
  parseFromFile text = inl (MalformedHeader header).
Proof.
  intros El Hbad. unfold parseFromFile. rewrite El.
  destruct (headerRe header) as [[m1 m2]|] eqn:Eh; [|done].
  exfalso. apply Hbad. exists m1, m2. by apply headerRe_spec.
Qed.

Lemma parseFromFile_malformed_header_witness :
  fileLines (js "3 x 3" ++ nl ++ js "A") = [js "3 x 3"; js "A"]
  ∧ ¬ (∃ m1 m2, js "3 x 3" = m1 ++ js "x" ++ m2 ∧ digits m1 ∧ digits m2)
  ∧ parseFromFile (js "3 x 3" ++ nl ++ js "A")
    = inl (MalformedHeader (js "3 x 3")).
Proof.
  assert (fileLines (js "3 x 3" ++ nl ++ js "A") = [js "3 x 3"; js "A"])
    as H by (vm_compute; reflexivity).
  assert (¬ (∃ m1 m2, js "3 x 3" = m1 ++ js "x" ++ m2
                       ∧ digits m1 ∧ digits m2)) as H'.
  { intros (m1 & m2 & E & Hd1 & Hd2).
    pose proof (headerRe_complete m1 m2 Hd1 Hd2) as Hc.
    rewrite <- E in Hc. vm_compute in Hc. discriminate Hc. }
  split; [exact H|]. split; [exact H'|].
  exact (parseFromFile_malformed_header _ _ _ H H').
Defined.

(** X21.  With a well-formed header whose dimensions are positive (and
    small enough for their product to be an exact double), a number of
    card lines different from [rows * cols] makes the parser throw the
    count diagnostic, which carries the number expected and the number
    found; the card lines themselves are not examined. *)
Theorem parseFromFile_card_count
    (text m1 m2 : jsstring) (cards : list jsstring) :
  fileLines text = (m1 ++ js "x" ++ m2) :: cards →
  digits m1 → digits m2 →
  0 < parseInt m1 → 0 < parseInt m2 →
  parseInt m1 * parseInt m2 ≤ 2 ^ 53 →
  Z.of_nat (length cards) ≠ parseInt m1 * parseInt m2 →
  parseFromFile text
  = inl (CardCount (parseInt m1 * parseInt m2) (Z.of_nat (length cards))).
Proof.
  intros El Hd1 Hd2 H1 H2 Hprod Hlen.
  assert (2 ^ 53 < 2 ^ 1024 - 2 ^ 970) as Hb by (vm_compute; reflexivity).
  assert (parseInt m1 < 2 ^ 1024 - 2 ^ 970) as F1.
  { eapply Z.le_lt_trans; [|exact Hb]. etrans; [|exact Hprod]. nia. }
  assert (parseInt m2 < 2 ^ 1024 - 2 ^ 970) as F2.
  { eapply Z.le_lt_trans; [|exact Hb]. etrans; [|exact Hprod]. nia. }
  rewrite (parseFromFile_checked text m1 m2 cards) by done. unfold isFinite.
  rewrite (proj2 (Z.ltb_lt _ _) F1), (proj2 (Z.ltb_lt _ _) F2).
  rewrite (proj2 (Z.leb_gt _ _) H1), (proj2 (Z.leb_gt _ _) H2). simpl.
  by rewrite (proj2 (Z.eqb_neq _ _) Hlen).
Qed.

Lemma digits_js_1 : digits (js "1").
Proof. split; [done|]. by repeat constructor. Qed.

Lemma digits_js_2 : digits (js "2").
Proof. split; [done|]. by repeat constructor. Qed.

Lemma parseFromFile_card_count_witness :
  fileLines (js "2x1" ++ nl ++ js "A" ++ nl)
  = (js "2" ++ js "x" ++ js "1") :: [js "A"]
  ∧ digits (js "2") ∧ digits (js "1")
  ∧ 0 < parseInt (js "2") ∧ 0 < parseInt (js "1")
  ∧ parseInt (js "2") * parseInt (js "1") ≤ 2 ^ 53
  ∧ Z.of_nat (length [js "A"]) ≠ parseInt (js "2") * parseInt (js "1")
  ∧ parseFromFile (js "2x1" ++ nl ++ js "A" ++ nl)
    = inl (CardCount (parseInt (js "2") * parseInt (js "1"))
             (Z.of_nat (length [js "A"]))).
Proof.
  assert (fileLines (js "2x1" ++ nl ++ js "A" ++ nl)
          = (js "2" ++ js "x" ++ js "1") :: [js "A"]) as H
    by (vm_compute; reflexivity).
  assert (0 < parseInt (js "2")) as H2 by (vm_compute; reflexivity).
  assert (0 < parseInt (js "1")) as H1 by (vm_compute; reflexivity).
  assert (parseInt (js "2") * parseInt (js "1") ≤ 2 ^ 53) as Hp
    by (vm_compute; discriminate).
  assert (Z.of_nat (length [js "A"]) ≠ parseInt (js "2") * parseInt (js "1"))
    as H3 by (vm_compute; discriminate).
  split; [exact H|]. split; [exact digits_js_2|]. split; [exact digits_js_1|].
  split; [exact H2|]. split; [exact H1|]. split; [exact Hp|].
  split; [exact H3|].
  exact (parseFromFile_card_count _ _ _ _ H digits_js_2 digits_js_1
           H2 H1 Hp H3).
Defined.

Lemma checkCards_first_bad good bad rest :
  Forall token good → ¬ token bad →
  checkCards (good ++ bad :: rest) = inl (InvalidCard bad).
Proof.
  intros Hgood Hbad. induction Hgood as [|card good Hc _ IH]; simpl.
  - destruct (cardRe bad) eqn:E; [|done]. by apply cardRe_token in E.
  - by rewrite (proj2 (cardRe_token card) Hc).
Qed.

(** X22.  With a well-formed header and the right number of card lines,
    the parser throws the invalid-card diagnostic for the first card line
    that is not free of white space, and quotes it. *)
Theorem parseFromFile_invalid_card
    (text m1 m2 bad : jsstring) (good rest : list jsstring) :
  fileLines text = (m1 ++ js "x" ++ m2) :: good ++ bad :: rest →
  digits m1 → digits m2 →
  0 < parseInt m1 < 2 ^ 1024 - 2 ^ 970 →
  0 < parseInt m2 < 2 ^ 1024 - 2 ^ 970 →
  Z.of_nat (length (good ++ bad :: rest)) = parseInt m1 * parseInt m2 →
  Forall token good → ¬ token bad →
  parseFromFile text = inl (InvalidCard bad).
Proof.
  intros El Hd1 Hd2 [H1 F1] [H2 F2] Hlen Hgood Hbad.
  rewrite (parseFromFile_checked text m1 m2 _ El) by done. unfold isFinite.
  rewrite (proj2 (Z.ltb_lt _ _) F1), (proj2 (Z.ltb_lt _ _) F2).
  rewrite (proj2 (Z.leb_gt _ _) H1), (proj2 (Z.leb_gt _ _) H2). simpl.
  rewrite (proj2 (Z.eqb_eq _ _) Hlen). simpl.
  by rewrite checkCards_first_bad.
Qed.

Lemma parseFromFile_invalid_card_witness :
  fileLines (js "2x1" ++ nl ++ js "A" ++ nl ++ js "B C" ++ nl)
  = (js "2" ++ js "x" ++ js "1") :: [js "A"] ++ js "B C" :: []
  ∧ digits (js "2") ∧ digits (js "1")
  ∧ 0 < parseInt (js "2") < 2 ^ 1024 - 2 ^ 970
  ∧ 0 < parseInt (js "1") < 2 ^ 1024 - 2 ^ 970
  ∧ Z.of_nat (length ([js "A"] ++ js "B C" :: []))
    = parseInt (js "2") * parseInt (js "1")
  ∧ Forall token [js "A"] ∧ ¬ token (js "B C")
  ∧ parseFromFile (js "2x1" ++ nl ++ js "A" ++ nl ++ js "B C" ++ nl)
    = inl (InvalidCard (js "B C")).
Proof.
  assert (fileLines (js "2x1" ++ nl ++ js "A" ++ nl ++ js "B C" ++ nl)
          = (js "2" ++ js "x" ++ js "1") :: [js "A"] ++ js "B C" :: []) as H
    by (vm_compute; reflexivity).
  assert (0 < parseInt (js "2") < 2 ^ 1024 - 2 ^ 970) as H2
    by (vm_compute; split; reflexivity).
  assert (0 < parseInt (js "1") < 2 ^ 1024 - 2 ^ 970) as H1
    by (vm_compute; split; reflexivity).
  assert (Z.of_nat (length ([js "A"] ++ js "B C" :: []))
          = parseInt (js "2") * parseInt (js "1")) as H3
    by (vm_compute; reflexivity).
  assert (Forall token [js "A"]) as H4.
  { constructor; [|constructor]. by apply cardRe_token. }
  assert (¬ token (js "B C")) as H5.
  { intros Ht%cardRe_token. vm_compute in Ht. discriminate Ht. }
  split; [exact H|]. split; [exact digits_js_2|]. split; [exact digits_js_1|].
  split; [exact H2|]. split; [exact H1|]. split; [exact H3|].
  split; [exact H4|]. split; [exact H5|].
  exact (parseFromFile_invalid_card _ _ _ _ _ _ H digits_js_2 digits_js_1
           H2 H1 H3 H4 H5).
Defined.

(** X23.  A header with a zero dimension is refused with the diagnostic for
    non-positive dimensions, whatever follows it: [0x0] with no card line
    at all is not a board. *)
Theorem parseFromFile_zero_dimension
    (text m1 m2 : jsstring) (cards : list jsstring) :
  fileLines text = (m1 ++ js "x" ++ m2) :: cards →
  digits m1 → digits m2 →
  parseInt m1 = 0 ∨ parseInt m2 = 0 →
  parseFromFile text = inl NotPositive.
Proof.
  intros El Hd1 Hd2 H0.
  rewrite (parseFromFile_checked text m1 m2 cards) by done.
  destruct H0 as [-> | ->]; simpl; [|by rewrite !orb_true_r].
  by rewrite orb_true_r.
Qed.

Lemma digits_js_0 : digits (js "0").
Proof. split; [done|]. by repeat constructor. Qed.

Lemma parseFromFile_zero_dimension_witness :
  fileLines (js "0x0" ++ nl) = (js "0" ++ js "x" ++ js "0") :: []
  ∧ digits (js "0")
  ∧ (parseInt (js "0") = 0 ∨ parseInt (js "0") = 0)
  ∧ parseFromFile (js "0x0" ++ nl) = inl NotPositive.
Proof.
  assert (fileLines (js "0x0" ++ nl) = (js "0" ++ js "x" ++ js "0") :: [])
    as H by (vm_compute; reflexivity).
  assert (parseInt (js "0") = 0 ∨ parseInt (js "0") = 0) as H0
    by (left; vm_compute; reflexivity).
  split; [exact H|]. split; [exact digits_js_0|]. split; [exact H0|].
  exact (parseFromFile_zero_dimension _ _ _ _ H digits_js_0 digits_js_0 H0).
Defined.

(** X24.  The parser returns a board exactly for the texts whose non-empty
    lines are a header of two digit strings around an [x], denoting
    positive finite numbers, followed by exactly [rows * cols] lines that
    are non-empty and free of white space: every such text is accepted,
    and no other. *)
Theorem parseFromFile_accepts_iff (text : jsstring) :
  (∃ b, parseFromFile text = inr b)
  ↔ ∃ m1 m2 cards,
      fileLines text = (m1 ++ js "x" ++ m2) :: cards
      ∧ digits m1 ∧ digits m2
      ∧ 0 < parseInt m1 < 2 ^ 1024 - 2 ^ 970
      ∧ 0 < parseInt m2 < 2 ^ 1024 - 2 ^ 970
      ∧ Z.of_nat (length cards) = parseInt m1 * parseInt m2
      ∧ Forall token cards.
Proof.
  split.
  - intros [b Hb].
    destruct (parseFromFile_inr text b Hb)
      as (m1 & m2 & cards & El & Hd1 & Hd2 & H1 & H2 & Hlen & Htok & _).
    exists m1, m2, cards. repeat (split; [assumption|]). assumption.
  - intros (m1 & m2 & cards & El & Hd1 & Hd2 & H1 & H2 & Hlen & Htok).
    by apply (parseFromFile_accepts text m1 m2 cards).
Qed.

(** ** Reading a snapshot back *)

Lemma printed_app pre t :
  Forall (λ u, u ≠ 10%N ∧ u ≠ 13%N) pre →
  t ≠ [] → Forall (λ u, isSpace u = false) t →
  printed (pre ++ t).
Proof.
  intros Hpre Hne Ht. split.
  - apply Forall_app. split; [done|].
    eapply Forall_impl; [exact Ht|]. apply isSpace_clean.
  - destruct (last t) as [u|] eqn:El.
    + exists u. rewrite last_app, El. split; [done|].
      apply last_Some in El as [t' ->].
      apply Forall_app in Ht as [_ Hu]. by inversion Hu.
    + apply last_None in El. done.
Qed.

Lemma printed_header nr nc : printed (showZ nr ++ js "x" ++ showZ nc).
Proof.
  destruct (showZ_chars nr) as [_ Hr]. destruct (showZ_chars nc) as [Hne Hc].
  rewrite app_assoc. apply printed_app; [|done..].
  apply Forall_app. split; [|by repeat constructor].
  eapply Forall_impl; [exact Hr|]. apply isSpace_clean.
Qed.

Lemma cardRe_chars l :
  cardRe l = true → l ≠ [] ∧ Forall (λ u, isSpace u = false) l.
Proof. intros H. by apply cardRe_token. Qed.

Lemma printed_cellLine p cell :
  (∀ s, cell = Some s → cardRe (label s) = true) →
  printed (cellLine p cell).
Proof.
  intros Hl. unfold cellLine. destruct cell as [s|].
  - destruct (cardRe_chars _ (Hl s eq_refl)) as [Hne Hc].
    destruct (faceUp s); cbn [negb].
    + destruct (bool_decide _).
      * apply (printed_app (js "my ")); [by repeat constructor|done..].
      * apply (printed_app (js "up ")); [by repeat constructor|done..].
    + apply (printed_app [] (js "down")); [done|done|by repeat constructor].
  - apply (printed_app [] (js "none")); [done|done|by repeat constructor].
Qed.

Lemma join_Forall (P : N → Prop) lines :
  P 10%N → Forall (Forall P) lines → Forall P (join nl lines).
Proof.
  intros H10. induction 1 as [|l ls Hl Hls IH]; [done|].
  destruct ls as [|l' ls]; [done|].
  change (join nl (l :: l' :: ls)) with (l ++ 10%N :: join nl (l' :: ls)).
  apply Forall_app. split; [done|]. by constructor.
Qed.

Lemma join_last lines :
  lines ≠ [] → Forall printed lines →
  ∃ u, last (join nl lines) = Some u ∧ isSpace u = false.
Proof.
  intros Hne. induction 1 as [|l ls [_ Hl] Hls IH]; [done|].
  destruct ls as [|l' ls]; [done|].
  change (join nl (l :: l' :: ls)) with (l ++ 10%N :: join nl (l' :: ls)).
  destruct IH as (u & Hu & Hs); [done|]. exists u. split; [|done].
  rewrite last_app. rewrite last_cons, Hu. done.
Qed.

Lemma splitLines_join lines :
  lines ≠ [] → Forall (Forall (λ u, u ≠ 10%N)) lines →
  splitLines (join nl lines) = lines.
Proof.
  intros Hne. induction 1 as [|l ls Hl Hls IH]; [done|].
  destruct ls as [|l' ls]; [by apply splitLines_clean|].
  change (join nl (l :: l' :: ls)) with (l ++ 10%N :: join nl (l' :: ls)).
  rewrite splitLines_app_nl by done. by rewrite IH.
Qed.

Lemma replaceCRLF_id s : Forall (λ u, u ≠ 13%N) s → replaceCRLF s = s.
Proof.
  induction 1 as [|u s Hu _ IH]; [done|].
  by rewrite replaceCRLF_cons_ne, IH.
Qed.

Lemma trimEnd_line s u :
  last s = Some u → isSpace u = false → trimEnd (s ++ nl) = s.
Proof.
  intros [s' ->]%last_Some Hu. unfold trimEnd, nl.
  rewrite !reverse_app, !reverse_singleton. simpl. rewrite Hu.
  by rewrite reverse_cons, reverse_involutive.
Qed.

(** What the helper of the tests makes of a text printed line by line. *)
Lemma linesOf_join lines :
  lines ≠ [] → Forall printed lines →
  linesOf (join nl lines ++ nl) = lines.
Proof.
  intros Hne Hp. unfold linesOf.
  assert (Forall (λ u, u ≠ 13%N) (join nl lines ++ nl)) as H13.
  { apply Forall_app. split; [|by repeat constructor].
    apply join_Forall; [done|]. eapply Forall_impl; [exact Hp|].
    intros l [Hl _]. eapply Forall_impl; [exact Hl|]. by intros u [_ ?]. }
  rewrite replaceCRLF_id, replaceCR_id by done.
  destruct (join_last lines Hne Hp) as (u & Hu & Hs).
  rewrite (trimEnd_line _ u Hu Hs). apply splitLines_join; [done|].
  eapply Forall_impl; [exact Hp|].
  intros l [Hl _]. eapply Forall_impl; [exact Hl|]. by intros v [? _].
Qed.

Lemma snapshot_text p b :
  shaped b →
  snapshot p b
  = (inr (join nl ((showZ (rows b) ++ js "x" ++ showZ (cols b))
                   :: ((λ q, cellLine p (cellAt b q))
                       <$> positions (rows b) (cols b))) ++ nl), b).
Proof.
  intros Hs. rewrite snapshot_run, snapshotLines_run by done.
  pose proof (concat_lines (λ q, cellLine p (cellAt b q))
                (seqZ 0 (rows b)) (seqZ 0 (cols b))) as Hl.
  cbv beta in Hl. unfold positions. by rewrite Hl.
Qed.

(** X25.  A snapshot can be read back: on a board that satisfies the
    representation invariant, the helper [linesOf] of the tests splits the
    text [snapshot] returns into the header and one line per cell in
    row-major order, and [spotAt] finds at row [i], column [j] the line
    that describes cell [(i, j)]. *)
Theorem spotAt_snapshot
    (forPlayer : Player) (b : Board) (text : jsstring) (i j : Z) :
  RI b →
  snapshot forPlayer b = (inr text, b) →
  0 ≤ i < rows b → 0 ≤ j < cols b →
  linesOf text
  = (showZ (rows b) ++ js "x" ++ showZ (cols b))
    :: ((λ q, cellLine forPlayer (cellAt b q))
        <$> positions (rows b) (cols b))
  ∧ spotAt text (rows b) (cols b) i j
    = Some (cellLine forPlayer (cellAt b (mkPos i j))).
Proof.
  intros HRI Hsnap Hi Hj. pose proof (RI_shaped b HRI) as Hs.
  rewrite snapshot_text in Hsnap by done.
  set (header := showZ (rows b) ++ js "x" ++ showZ (cols b)) in *.
  set (cells := (λ q, cellLine forPlayer (cellAt b q))
                <$> positions (rows b) (cols b)) in *.
  assert (text = join nl (header :: cells) ++ nl) as -> by congruence.
  clear Hsnap.
  assert (linesOf (join nl (header :: cells) ++ nl) = header :: cells)
    as Hlines.
  { apply linesOf_join; [done|]. constructor.
    - apply printed_header.
    - apply Forall_fmap, Forall_forall. intros q _. simpl.
      apply printed_cellLine. intros s E. by apply (ri_label b HRI q). }
  split; [exact Hlines|]. unfold spotAt. rewrite Hlines.
  assert (length cells = Z.to_nat (rows b * cols b)) as Hlen.
  { unfold cells. rewrite length_fmap. apply length_positions; lia. }
  rewrite decide_True by done.
  assert (i * cols b + j < rows b * cols b) by nia.
  rewrite decide_True by (simpl; rewrite Hlen; nia).
  rewrite nthZ_lookup by nia.
  replace (Z.to_nat (1 + i * cols b + j))
    with (S (Z.to_nat (i * cols b + j))) by nia.
  simpl. unfold cells.
  by rewrite list_lookup_fmap, positions_lookup.
Qed.

Lemma spotAt_snapshot_witness :
  RI demo2
  ∧ snapshot alice demo2
    = (inr (js "3x3" ++ nl ++ js "my A" ++ nl ++ js "my A" ++ nl
            ++ js "down" ++ nl ++ js "down" ++ nl ++ js "down" ++ nl
            ++ js "down" ++ nl ++ js "down" ++ nl ++ js "down" ++ nl
            ++ js "down" ++ nl), demo2)
  ∧ 0 ≤ 0 < rows demo2 ∧ 0 ≤ 1 < cols demo2
  ∧ spotAt (js "3x3" ++ nl ++ js "my A" ++ nl ++ js "my A" ++ nl
            ++ js "down" ++ nl ++ js "down" ++ nl ++ js "down" ++ nl
            ++ js "down" ++ nl ++ js "down" ++ nl ++ js "down" ++ nl
            ++ js "down" ++ nl) (rows demo2) (cols demo2) 0 1
    = Some (cellLine alice (cellAt demo2 (mkPos 0 1))).
Proof.
  pose proof (inv_ri demo2 (reachable_Inv demo2 demo2_reachable)) as HRI.
  assert (0 ≤ 0 < rows demo2) as Hi
    by (vm_compute; split; [discriminate|reflexivity]).
  assert (0 ≤ 1 < cols demo2) as Hj
    by (vm_compute; split; [discriminate|reflexivity]).
  split; [exact HRI|]. split; [vm_compute; reflexivity|].
  split; [exact Hi|]. split; [exact Hj|].
  exact (proj2 (spotAt_snapshot alice demo2 _ 0 1 HRI eq_refl Hi Hj)).
Defined.
